(** * Logger: buffered, persisted, de-duplicated logging (logging-utility)

    A shallow embedding of the [Logger] class: a process-wide singleton that
    queues log, warn and error events, mirrors the queue into an MMKV
    key-value store, and forwards it to Crashlytics on a timer or on demand.
    The platform primitives it calls are modelled too: [JSON.stringify],
    [JSON.parse], [String], [toUpperCase], [Array.prototype.join],
    [Set<string>], the store, the console and the interval timers.

    Conventions of the embedding
    - a JavaScript string is a [string]: every [ascii] is one code unit in
      the range 0..255;
    - a JavaScript number is an integer [Z] (timestamps are integral
      milliseconds); fractional numbers never arise in the logger;
    - [Set<string>] is a [gset string], the MMKV store a [gmap string string];
    - effects are threaded through one state record by a small state and
      exception monad; in the methods every [await] is a sequence point, and
      operations run one at a time; the points at which the two [async]
      methods are suspended, and what runs in between, are modelled on top
      of that (see [Async]);
    - remote calls and store accesses may throw: the environment of each
      operation says which ones do;
    - the logger's queue is typed ([LogEntry[]]): a stored text that parses
      as JSON of another shape lies outside the model (see [untyped]).

    Part one holds the definitions, part two the properties. *)

From Stdlib Require Import ZArith Ascii String DecimalString DecimalN DecimalFacts.
From stdpp Require Import gmap strings list.

Set Warnings "-register-all".

Local Open Scope string_scope.
Local Open Scope Z_scope.
Local Open Scope list_scope.

(** ** Characters that cannot be written inside a string literal *)

Definition dquote : ascii := "034"%char.
Definition backslash : ascii := "092"%char.

(** ** Completions: a platform call returns normally or throws *)

Inductive JsError : Type :=
| SyntaxError (msg : string)
| TypeError (msg : string)
| NativeError (msg : string).

Inductive Completion (A : Type) : Type :=
| Normal (a : A)
| Throw (e : JsError).
Arguments Normal {A} a.
Arguments Throw {A} e.

(** ** Runtime values passed as variadic logging arguments

    The JSON-like fragment of JavaScript values, plus [undefined] and BigInt
    (the one primitive on which [JSON.stringify] throws).  The fields of a
    [VObject] are listed in the object's own property enumeration order. *)

Inductive JSValue : Type :=
| VUndefined
| VNull
| VBool (b : bool)
| VNumber (z : Z)
| VBigInt (z : Z)
| VString (s : string)
| VArray (elems : list JSValue)
| VObject (fields : list (string * JSValue)).

(** [typeof param === 'object' && param !== null] *)
Definition is_nonnull_object (v : JSValue) : bool :=
  match v with
  | VArray _ | VObject _ => true
  | _ => false
  end.

(** ** Number to string: the decimal digits of an integer *)

Definition Number_toString (z : Z) : string :=
  match z with
  | Z0 => "0"
  | Zpos p => NilEmpty.string_of_uint (Pos.to_uint p)
  | Zneg p => String "-" (NilEmpty.string_of_uint (Pos.to_uint p))
  end.

(** [Array.prototype.join]: [undefined] elements count as empty strings. *)
Fixpoint join (sep : string) (parts : list string) : string :=
  match parts with
  | [] => ""
  | [x] => x
  | x :: rest => x +:+ sep +:+ join sep rest
  end.

(** ** [String.prototype.toUpperCase] on the ASCII letters *)

Definition upper_ascii (c : ascii) : ascii :=
  let n := N_of_ascii c in
  if ((97 <=? n) && (n <=? 122))%N then ascii_of_N (n - 32) else c.

Fixpoint toUpperCase (s : string) : string :=
  match s with
  | EmptyString => EmptyString
  | String c r => String (upper_ascii c) (toUpperCase r)
  end.

(** ** [JSON.stringify] *)

Definition hex_digit (n : N) : ascii :=
  ascii_of_N (if (n <? 10)%N then 48 + n else 87 + n).

(** One code unit inside a JSON string literal (QuoteJSONString). *)
Definition quote_char (c : ascii) : string :=
  let n := N_of_ascii c in
  if (n =? 8)%N then String backslash "b"
  else if (n =? 9)%N then String backslash "t"
  else if (n =? 10)%N then String backslash "n"
  else if (n =? 12)%N then String backslash "f"
  else if (n =? 13)%N then String backslash "r"
  else if (n =? 34)%N then String backslash (String dquote "")
  else if (n =? 92)%N then String backslash (String backslash "")
  else if (n <? 32)%N then
    String backslash ("u00" +:+ String (hex_digit (n / 16)) (String (hex_digit (n mod 16)) ""))
  else String c "".

Fixpoint quote_body (s : string) : string :=
  match s with
  | EmptyString => EmptyString
  | String c r => quote_char c +:+ quote_body r
  end.

Definition QuoteJSONString (s : string) : string :=
  String dquote (quote_body s +:+ String dquote "").

Definition bind_completion {A B} (c : Completion A) (k : A -> Completion B) : Completion B :=
  match c with
  | Normal a => k a
  | Throw e => Throw e
  end.

(** SerializeJSONProperty: [None] stands for [undefined] (the property is
    left out of an object and written [null] inside an array). *)
Fixpoint SerializeJSONProperty (v : JSValue) : Completion (option string) :=
  match v with
  | VUndefined => Normal None
  | VNull => Normal (Some "null")
  | VBool true => Normal (Some "true")
  | VBool false => Normal (Some "false")
  | VNumber z => Normal (Some (Number_toString z))
  | VBigInt _ => Throw (TypeError "Do not know how to serialize a BigInt")
  | VString s => Normal (Some (QuoteJSONString s))
  | VArray elems =>
      bind_completion
        ((fix items (l : list JSValue) : Completion (list string) :=
            match l with
            | [] => Normal []
            | x :: r =>
                bind_completion (SerializeJSONProperty x) (fun o =>
                bind_completion (items r) (fun ss =>
                Normal (default "null" o :: ss)))
            end) elems)
        (fun ss => Normal (Some ("[" +:+ join "," ss +:+ "]")))
  | VObject fields =>
      bind_completion
        ((fix members (l : list (string * JSValue)) : Completion (list string) :=
            match l with
            | [] => Normal []
            | (k, x) :: r =>
                bind_completion (SerializeJSONProperty x) (fun o =>
                bind_completion (members r) (fun ss =>
                Normal match o with
                       | Some text => (QuoteJSONString k +:+ ":" +:+ text) :: ss
                       | None => ss
                       end))
            end) fields)
        (fun ss => Normal (Some ("{" +:+ join "," ss +:+ "}")))
  end.

Definition JSON_stringify (v : JSValue) : Completion (option string) :=
  SerializeJSONProperty v.

(** ** [String(value)] *)

Fixpoint String_ (v : JSValue) : string :=
  match v with
  | VUndefined => "undefined"
  | VNull => "null"
  | VBool true => "true"
  | VBool false => "false"
  | VNumber z => Number_toString z
  | VBigInt z => Number_toString z
  | VString s => s
  | VArray elems =>
      join "," (map (fun x => match x with
                              | VUndefined | VNull => ""
                              | _ => String_ x
                              end) elems)
  | VObject _ => "[object Object]"
  end.

(** ** [JSON.parse]: lexical analysis *)

(** A JSON number literal, kept as written: sign, integer digits, fraction
    digits and exponent (its sign, [true] for a minus, and digits). *)
Record NumberLit : Type := mkNumberLit {
  num_neg : bool;
  num_int : Decimal.uint;
  num_frac : option Decimal.uint;
  num_exp : option (bool * Decimal.uint)
}.

(** A parsed string is a sequence of code units: an escape [\uXXXX] may
    denote a unit above 255. *)
Inductive token : Type :=
| TLBracket | TRBracket | TLBrace | TRBrace | TColon | TComma
| TTrue | TFalse | TNull
| TString (units : list N)
| TNumber (n : NumberLit).

Definition is_whitespace (c : ascii) : bool :=
  let n := N_of_ascii c in
  ((n =? 32) || (n =? 9) || (n =? 10) || (n =? 13))%N.

Definition digit_of_ascii (c : ascii) : option (Decimal.uint -> Decimal.uint) :=
  match c with
  | "0"%char => Some Decimal.D0 | "1"%char => Some Decimal.D1 | "2"%char => Some Decimal.D2
  | "3"%char => Some Decimal.D3 | "4"%char => Some Decimal.D4 | "5"%char => Some Decimal.D5
  | "6"%char => Some Decimal.D6 | "7"%char => Some Decimal.D7 | "8"%char => Some Decimal.D8
  | "9"%char => Some Decimal.D9
  | _ => None
  end.

(** The longest prefix of decimal digits, and what follows it. *)
Fixpoint lex_digits (s : string) : Decimal.uint * string :=
  match s with
  | EmptyString => (Decimal.Nil, EmptyString)
  | String c r =>
      match digit_of_ascii c with
      | Some d => let '(u, rest) := lex_digits r in (d u, rest)
      | None => (Decimal.Nil, s)
      end
  end.

Definition lex_fraction (s : string) : option (option Decimal.uint * string) :=
  match s with
  | String "." r =>
      match lex_digits r with
      | (Decimal.Nil, _) => None
      | (f, rest) => Some (Some f, rest)
      end
  | _ => Some (None, s)
  end.

Definition lex_exponent_digits (neg : bool) (s : string)
  : option (option (bool * Decimal.uint) * string) :=
  match lex_digits s with
  | (Decimal.Nil, _) => None
  | (e, rest) => Some (Some (neg, e), rest)
  end.

Definition lex_exponent (s : string) : option (option (bool * Decimal.uint) * string) :=
  match s with
  | String c r =>
      if ((c =? "e") || (c =? "E"))%char then
        match r with
        | String "+" r' => lex_exponent_digits false r'
        | String "-" r' => lex_exponent_digits true r'
        | _ => lex_exponent_digits false r
        end
      else Some (None, s)
  | EmptyString => Some (None, s)
  end.

(** A number: an optional minus; then a single 0, or a non-zero digit and
    further digits; then an optional fraction (a point and digits) and an
    optional exponent (e or E, an optional sign, digits). *)
Definition lex_number (s : string) : option (NumberLit * string) :=
  let '(neg, s1) := match s with
                    | String "-" r => (true, r)
                    | _ => (false, s)
                    end in
  let '(int, s2) := lex_digits s1 in
  match int with
  | Decimal.Nil => None
  | Decimal.D0 (Decimal.D0 _ | Decimal.D1 _ | Decimal.D2 _ | Decimal.D3 _ | Decimal.D4 _
               | Decimal.D5 _ | Decimal.D6 _ | Decimal.D7 _ | Decimal.D8 _ | Decimal.D9 _) => None
  | _ =>
      match lex_fraction s2 with
      | None => None
      | Some (frac, s3) =>
          match lex_exponent s3 with
          | None => None
          | Some (exp, s4) => Some (mkNumberLit neg int frac exp, s4)
          end
      end
  end.

Definition hex_value (c : ascii) : option N :=
  let n := N_of_ascii c in
  if ((48 <=? n) && (n <=? 57))%N then Some (n - 48)%N
  else if ((97 <=? n) && (n <=? 102))%N then Some (n - 87)%N
  else if ((65 <=? n) && (n <=? 70))%N then Some (n - 55)%N
  else None.

Definition hex4 (a b c d : ascii) : option N :=
  match hex_value a, hex_value b, hex_value c, hex_value d with
  | Some x, Some y, Some z, Some w => Some (((x * 16 + y) * 16 + z) * 16 + w)%N
  | _, _, _, _ => None
  end.

(** The code unit a single-character escape stands for. *)
Definition unescape (c : ascii) : option N :=
  let n := N_of_ascii c in
  if (n =? 34)%N then Some 34%N
  else if (n =? 92)%N then Some 92%N
  else if (n =? 47)%N then Some 47%N
  else if (n =? 98)%N then Some 8%N
  else if (n =? 102)%N then Some 12%N
  else if (n =? 110)%N then Some 10%N
  else if (n =? 114)%N then Some 13%N
  else if (n =? 116)%N then Some 9%N
  else None.

Definition cons_units (u : N) (r : option (list N * string)) : option (list N * string) :=
  match r with
  | Some (us, rest) => Some (u :: us, rest)
  | None => None
  end.

(** The body of a string literal, after its opening quote, up to and
    including the closing quote. *)
Fixpoint lex_string (s : string) : option (list N * string) :=
  match s with
  | EmptyString => None
  | String c r =>
      if (c =? dquote)%char then Some ([], r)
      else if (c =? backslash)%char then
        match r with
        | String e r' =>
            if (e =? "u")%char then
              match r' with
              | String h1 (String h2 (String h3 (String h4 r''))) =>
                  match hex4 h1 h2 h3 h4 with
                  | Some u => cons_units u (lex_string r'')
                  | None => None
                  end
              | _ => None
              end
            else
              match unescape e with
              | Some u => cons_units u (lex_string r')
              | None => None
              end
        | EmptyString => None
        end
      else if (N_of_ascii c <? 32)%N then None
      else cons_units (N_of_ascii c) (lex_string r)
  end.

Fixpoint strip_literal (p s : string) : option string :=
  match p, s with
  | EmptyString, _ => Some s
  | String a p', String b s' => if (a =? b)%char then strip_literal p' s' else None
  | String _ _, EmptyString => None
  end.

Definition cons_token (t : token) (r : option (list token)) : option (list token) :=
  match r with
  | Some ts => Some (t :: ts)
  | None => None
  end.

(** The token at the head of a non-empty text and the text after it;
    [Some (None, rest)] when the head is a whitespace character. *)
Definition next_token (s : string) : option (option token * string) :=
  match s with
  | EmptyString => None
  | String c r =>
      if is_whitespace c then Some (None, r)
      else if (c =? "[")%char then Some (Some TLBracket, r)
      else if (c =? "]")%char then Some (Some TRBracket, r)
      else if (c =? "{")%char then Some (Some TLBrace, r)
      else if (c =? "}")%char then Some (Some TRBrace, r)
      else if (c =? ":")%char then Some (Some TColon, r)
      else if (c =? ",")%char then Some (Some TComma, r)
      else if (c =? dquote)%char then
        match lex_string r with
        | Some (units, rest) => Some (Some (TString units), rest)
        | None => None
        end
      else if (c =? "t")%char then
        match strip_literal "rue" r with
        | Some rest => Some (Some TTrue, rest)
        | None => None
        end
      else if (c =? "f")%char then
        match strip_literal "alse" r with
        | Some rest => Some (Some TFalse, rest)
        | None => None
        end
      else if (c =? "n")%char then
        match strip_literal "ull" r with
        | Some rest => Some (Some TNull, rest)
        | None => None
        end
      else
        match lex_number s with
        | Some (n, rest) => Some (Some (TNumber n), rest)
        | None => None
        end
  end.

(** Every step consumes at least one character, so [String.length s] units
    of fuel are enough for [s] (lemma [lex_fuel]). *)
Fixpoint lex (fuel : nat) (s : string) : option (list token) :=
  match s with
  | EmptyString => Some []
  | String _ _ =>
      match fuel with
      | O => None
      | S f =>
          match next_token s with
          | Some (Some t, rest) => cons_token t (lex f rest)
          | Some (None, rest) => lex f rest
          | None => None
          end
      end
  end.

Definition tokenize (s : string) : option (list token) := lex (String.length s) s.

(** ** [JSON.parse]: the grammar *)

(** The parse tree of a JSON text. *)
Inductive json : Type :=
| JNull
| JBool (b : bool)
| JNumber (n : NumberLit)
| JString (units : list N)
| JArray (elems : list json)
| JObject (members : list (list N * json)).

(** A call consumes a token before it calls itself again, except that
    [parse_elements] first calls [parse_value] on the same tokens: twice the
    number of tokens, plus two, always suffices. *)
Fixpoint parse_value (fuel : nat) (ts : list token) : option (json * list token) :=
  match fuel with
  | O => None
  | S f =>
      match ts with
      | TNull :: r => Some (JNull, r)
      | TTrue :: r => Some (JBool true, r)
      | TFalse :: r => Some (JBool false, r)
      | TString u :: r => Some (JString u, r)
      | TNumber n :: r => Some (JNumber n, r)
      | TLBracket :: TRBracket :: r => Some (JArray [], r)
      | TLBracket :: r =>
          match parse_elements f r with
          | Some (vs, r') => Some (JArray vs, r')
          | None => None
          end
      | TLBrace :: TRBrace :: r => Some (JObject [], r)
      | TLBrace :: r =>
          match parse_members f r with
          | Some (ms, r') => Some (JObject ms, r')
          | None => None
          end
      | _ => None
      end
  end
with parse_elements (fuel : nat) (ts : list token) : option (list json * list token) :=
  match fuel with
  | O => None
  | S f =>
      match parse_value f ts with
      | Some (v, TRBracket :: r) => Some ([v], r)
      | Some (v, TComma :: r) =>
          match parse_elements f r with
          | Some (vs, r') => Some (v :: vs, r')
          | None => None
          end
      | _ => None
      end
  end
with parse_members (fuel : nat) (ts : list token) : option (list (list N * json) * list token) :=
  match fuel with
  | O => None
  | S f =>
      match ts with
      | TString k :: TColon :: r =>
          match parse_value f r with
          | Some (v, TRBrace :: r') => Some ([(k, v)], r')
          | Some (v, TComma :: r') =>
              match parse_members f r' with
              | Some (ms, r'') => Some ((k, v) :: ms, r'')
              | None => None
              end
          | _ => None
          end
      | _ => None
      end
  end.

(** [JSON.parse text]: [None] is a thrown SyntaxError. *)
Definition JSON_parse (text : string) : option json :=
  match tokenize text with
  | Some ts =>
      match parse_value (2 * length ts + 2) ts with
      | Some (v, []) => Some v
      | _ => None
      end
  | None => None
  end.

(** ** The logger's data *)

(** [type: 'log' | 'error' | 'warn'] *)
Inductive LogType : Type := Log | Error | Warn.

Global Instance LogType_eq_dec : EqDecision LogType.
Proof. solve_decision. Defined.

Definition type_tag (t : LogType) : string :=
  match t with
  | Log => "log"
  | Error => "error"
  | Warn => "warn"
  end.

Record LogEntry : Type := mkLogEntry {
  type : LogType;
  message : string;
  params : string;
  timestamp : Z;
  hash : option string
}.

Definition is_error (entry : LogEntry) : bool := bool_decide (type entry = Error).

(** Calls made on the Crashlytics service. *)
Inductive RemoteCall : Type :=
| SetCrashlyticsCollectionEnabled (enabled : bool)
| SetUserId (userId : string)
| SetAttribute (name value : string)
| CrashlyticsLog (line : string)
| RecordError (description : string).

Inductive ConsoleLevel : Type := ConsoleLog | ConsoleError | ConsoleWarn | ConsoleDebug.

Inductive ConsoleArg : Type :=
| ArgValue (v : JSValue)
| ArgError (e : JsError).

Record ConsoleLine : Type := mkConsoleLine {
  level : ConsoleLevel;
  text : string;
  args : list ConsoleArg
}.

(** The instance fields of [Logger] ([logQueue], [timerHandle],
    [errorHashes]) and the world around it: the MMKV [storage], the calls
    Crashlytics has accepted, the console output, and the interval timers
    that are running (each mapped to its period; their callback is always
    [flushLogs]). *)
Record State : Type := mkState {
  logQueue : list LogEntry;
  timerHandle : option positive;
  errorHashes : gset string;
  storage : gmap string string;
  crashlytics : list RemoteCall;
  console : list ConsoleLine;
  intervals : gmap positive Z;
  next_interval : positive
}.

(** What the environment decides for one operation: [now] is [Date.now()];
    [Platform_OS] and [APP_ENV] are [String(Platform.OS)] and
    [String(APP_ENV)], constants of modules outside this repository's
    sources; [DEV] is [__DEV__]; the last three fields say which remote and
    storage calls succeed ([remote_ok] sees the calls accepted so far). *)
Record Env : Type := mkEnv {
  now : Z;
  Platform_OS : string;
  APP_ENV : string;
  DEV : bool;
  remote_ok : list RemoteCall -> RemoteCall -> bool;
  storage_get_ok : string -> bool;
  storage_set_ok : string -> string -> bool
}.

Definition QUEUE_KEY : string := "logger_queue".
Definition FLUSH_INTERVAL : Z := 60 * 60 * 1000.

Definition set_logQueue (q : list LogEntry) (s : State) : State :=
  mkState q (timerHandle s) (errorHashes s) (storage s) (crashlytics s) (console s)
          (intervals s) (next_interval s).

Definition set_timerHandle (h : option positive) (s : State) : State :=
  mkState (logQueue s) h (errorHashes s) (storage s) (crashlytics s) (console s)
          (intervals s) (next_interval s).

Definition set_errorHashes (hs : gset string) (s : State) : State :=
  mkState (logQueue s) (timerHandle s) hs (storage s) (crashlytics s) (console s)
          (intervals s) (next_interval s).

Definition set_storage (st : gmap string string) (s : State) : State :=
  mkState (logQueue s) (timerHandle s) (errorHashes s) st (crashlytics s) (console s)
          (intervals s) (next_interval s).

Definition set_crashlytics (calls : list RemoteCall) (s : State) : State :=
  mkState (logQueue s) (timerHandle s) (errorHashes s) (storage s) calls (console s)
          (intervals s) (next_interval s).

Definition set_console (out : list ConsoleLine) (s : State) : State :=
  mkState (logQueue s) (timerHandle s) (errorHashes s) (storage s) (crashlytics s) out
          (intervals s) (next_interval s).

Definition set_intervals (ts : gmap positive Z) (next : positive) (s : State) : State :=
  mkState (logQueue s) (timerHandle s) (errorHashes s) (storage s) (crashlytics s) (console s)
          ts next.

(** ** The monad of logger methods

    A method maps a state to a completion and a new state; effects done
    before a [throw] stay done.  [None] means that the run has left the typed
    model: the store held a JSON text that is not a [LogEntry[]], which the
    unchecked cast in [restoreQueue] would let through. *)

Definition M (A : Type) : Type := State -> option (Completion A * State).

Definition ret {A} (a : A) : M A := fun s => Some (Normal a, s).

Definition throw {A} (e : JsError) : M A := fun s => Some (Throw e, s).

Definition untyped {A} : M A := fun _ => None.

Definition bind {A B} (m : M A) (k : A -> M B) : M B :=
  fun s =>
    match m s with
    | Some (Normal a, s') => k a s'
    | Some (Throw e, s') => Some (Throw e, s')
    | None => None
    end.

(** [try { m } catch (e) { handler e }] *)
Definition try_catch {A} (m : M A) (handler : JsError -> M A) : M A :=
  fun s =>
    match m s with
    | Some (Throw e, s') => handler e s'
    | r => r
    end.

Definition gets {A} (f : State -> A) : M A := fun s => Some (Normal (f s), s).

Definition modify (f : State -> State) : M unit := fun s => Some (Normal tt, f s).

Definition lift {A} (c : Completion A) : M A :=
  match c with
  | Normal a => ret a
  | Throw e => throw e
  end.

Declare Scope logger_scope.
Delimit Scope logger_scope with logger.
Notation "'let*' x ':=' m 'in' k" := (bind m (fun x => k))
  (at level 10, x name, m at level 100, k at level 200) : logger_scope.
Notation "m '>>' k" := (bind m (fun _ => k))
  (at level 100, k at level 200, right associativity) : logger_scope.
Local Open Scope logger_scope.

(** [for (const x of l) { body x }] *)
Fixpoint for_of {A} (l : list A) (body : A -> M unit) : M unit :=
  match l with
  | [] => ret tt
  | x :: rest => body x >> for_of rest body
  end.

(** ** The collaborators *)

Definition console_write (lv : ConsoleLevel) (msg : string) (a : list ConsoleArg) : M unit :=
  modify (fun s => set_console (console s ++ [mkConsoleLine lv msg a]) s).

Definition console_log (msg : string) : M unit := console_write ConsoleLog msg [].

Definition console_error (msg : string) (e : JsError) : M unit :=
  console_write ConsoleError msg [ArgError e].

(** One awaited call on [crashlytics()]: accepted and recorded, or rejected. *)
Definition crashlytics_call (env : Env) (c : RemoteCall) : M unit :=
  fun s =>
    if remote_ok env (crashlytics s) c
    then Some (Normal tt, set_crashlytics (crashlytics s ++ [c]) s)
    else Some (Throw (NativeError "crashlytics call rejected"), s).

(** [storage.getString(key)] *)
Definition storage_getString (env : Env) (key : string) : M (option string) :=
  fun s =>
    if storage_get_ok env key
    then Some (Normal (storage s !! key), s)
    else Some (Throw (NativeError "MMKV getString failed"), s).

(** [storage.set(key, value)] *)
Definition storage_set (env : Env) (key value : string) : M unit :=
  fun s =>
    if storage_set_ok env key value
    then Some (Normal tt, set_storage (<[key := value]> (storage s)) s)
    else Some (Throw (NativeError "MMKV set failed"), s).

(** localStorage [getItem]: [undefined] and [null] are both [None]. *)
Definition getItem (env : Env) (key : string) : M (option string) :=
  let* value := storage_getString env key in
  ret (match value with Some v => Some v | None => None end).

Definition clearInterval (h : positive) : M unit :=
  modify (fun s => set_intervals (delete h (intervals s)) (next_interval s) s).

Definition setInterval (period : Z) : M positive :=
  fun s =>
    let h := next_interval s in
    Some (Normal h, set_intervals (<[h := period]> (intervals s)) (Pos.succ h) s).

(** JavaScript truthiness of a [string | undefined]. *)
Definition truthy (o : option string) : bool :=
  match o with
  | Some (String _ _) => true
  | _ => false
  end.

(** ** Entries as JavaScript values, and back from a parse tree *)

(** The object [queueLog] builds: [hash] is set only on errors, after the
    other four properties. *)
Definition LogEntry_value (entry : LogEntry) : JSValue :=
  VObject ([("type", VString (type_tag (type entry)));
            ("message", VString (message entry));
            ("params", VString (params entry));
            ("timestamp", VNumber (timestamp entry))]
           ++ match hash entry with
              | Some h => [("hash", VString h)]
              | None => []
              end).

Definition queue_value (q : list LogEntry) : JSValue := VArray (map LogEntry_value q).

Definition units_of_string (s : string) : list N := map N_of_ascii (list_ascii_of_string s).

(** The string whose code units are [us], when all of them are below 256. *)
Fixpoint string_of_units (us : list N) : option string :=
  match us with
  | [] => Some EmptyString
  | u :: rest =>
      if (u <? 256)%N
      then match string_of_units rest with
           | Some s => Some (String (ascii_of_N u) s)
           | None => None
           end
      else None
  end.

Definition LogType_of_tag (tag : string) : option LogType :=
  if String.eqb tag "log" then Some Log
  else if String.eqb tag "error" then Some Error
  else if String.eqb tag "warn" then Some Warn
  else None.

Definition MAX_SAFE_INTEGER : Z := 2 ^ 53 - 1.

Definition safe_integer (z : Z) : bool :=
  (- MAX_SAFE_INTEGER <=? z) && (z <=? MAX_SAFE_INTEGER).

(** The integer a literal denotes, when it is written without fraction and
    exponent and is exactly representable as a number. *)
Definition integer_of_lit (n : NumberLit) : option Z :=
  match num_frac n, num_exp n with
  | None, None =>
      let z := Z.of_N (N.of_uint (num_int n)) in
      let z := if num_neg n then - z else z in
      if safe_integer z then Some z else None
  | _, _ => None
  end.

Definition key_is (name : string) (k : list N) : bool :=
  bool_decide (k = units_of_string name).

(** [as LogEntry]: the parse trees that are values of the declared type,
    with the properties in the order [queueLog] creates them. *)
Definition as_LogEntry (j : json) : option LogEntry :=
  match j with
  | JObject ((k1, JString ty) :: (k2, JString m) :: (k3, JString p) :: (k4, JNumber n) :: rest) =>
      if key_is "type" k1 && key_is "message" k2 && key_is "params" k3 && key_is "timestamp" k4
      then
        tag ← string_of_units ty;
        t ← LogType_of_tag tag;
        msg ← string_of_units m;
        prm ← string_of_units p;
        ts ← integer_of_lit n;
        match rest with
        | [] => Some (mkLogEntry t msg prm ts None)
        | [(k5, JString h)] =>
            if key_is "hash" k5
            then h' ← string_of_units h; Some (mkLogEntry t msg prm ts (Some h'))
            else None
        | _ => None
        end
      else None
  | _ => None
  end.

(** [as LogEntry[]] *)
Definition as_LogEntries (j : json) : option (list LogEntry) :=
  match j with
  | JArray elems => mapM as_LogEntry elems
  | _ => None
  end.

(** [JSON.parse(savedQueue) as LogEntry[]]: a SyntaxError is thrown on a
    text that is not JSON; a JSON text of another shape leaves the typed
    model. *)
Definition JSON_parse_LogEntries (savedQueue : string) : M (list LogEntry) :=
  match JSON_parse savedQueue with
  | None => throw (SyntaxError "JSON Parse error")
  | Some j =>
      match as_LogEntries j with
      | Some q => ret q
      | None => untyped
      end
  end.

(** ** The methods of [Logger] *)

Definition startFlushTimer : M unit :=
  let* h := gets timerHandle in
  match h with
  | Some t => clearInterval t
  | None => ret tt
  end >>
  let* t := setInterval FLUSH_INTERVAL in
  modify (set_timerHandle (Some t)).

Definition restoreQueue (env : Env) : M unit :=
  try_catch
    (let* savedQueue := storage_getString env QUEUE_KEY in
     if truthy savedQueue then
       let* parsedQueue := JSON_parse_LogEntries (default "" savedQueue) in
       modify (set_logQueue parsedQueue) >>
       for_of parsedQueue (fun entry =>
         if is_error entry && truthy (hash entry)
         then modify (fun s => set_errorHashes ({[default "" (hash entry)]} ∪ errorHashes s) s)
         else ret tt) >>
       let* q := gets logQueue in
       console_log ("[Logger] Restored " +:+ Number_toString (Z.of_nat (length q)) +:+ " queued logs")
     else ret tt)
    (fun error => console_error "[Logger] Failed to restore queue:" error).

Definition saveQueue (env : Env) : M unit :=
  try_catch
    (let* q := gets logQueue in
     let* text := lift (JSON_stringify (queue_value q)) in
     match text with
     | Some t => storage_set env QUEUE_KEY t
     | None => throw (TypeError "cannot store undefined")
     end)
    (fun error => console_error "[Logger] Failed to save queue:" error).

(** The line [flushLogs] sends for an entry that is not an error. *)
Definition normal_line (entry : LogEntry) : string :=
  "[" +:+ toUpperCase (type_tag (type entry)) +:+ "] " +:+ message entry +:+ " " +:+ params entry.

(** The line [flushLogs] sends for an error entry. *)
Definition error_line (entry : LogEntry) : string :=
  "[ERROR] " +:+ message entry +:+ " " +:+ params entry.

(** The message of the [Error] object [flushLogs] records. *)
Definition error_description (entry : LogEntry) : string :=
  message entry +:+ " " +:+ params entry.

Definition flushLogs (env : Env) : M unit :=
  let* q := gets logQueue in
  if (length q =? 0)%nat then ret tt
  else
    console_log ("[Logger] Flushing " +:+ Number_toString (Z.of_nat (length q))
                 +:+ " logs to Crashlytics") >>
    try_catch
      (let* q := gets logQueue in
       let errorLogs := filter (fun entry => type entry = Error) q in
       let normalLogs := filter (fun entry => type entry <> Error) q in
       for_of normalLogs (fun entry =>
         crashlytics_call env (CrashlyticsLog (normal_line entry))) >>
       for_of errorLogs (fun entry =>
         crashlytics_call env (CrashlyticsLog (error_line entry)) >>
         crashlytics_call env (RecordError (error_description entry))) >>
       modify (set_logQueue []) >>
       modify (set_errorHashes ∅) >>
       saveQueue env >>
       console_log "[Logger] Successfully flushed logs to Crashlytics")
      (fun error => console_error "[Logger] Failed to flush logs:" error).

Definition generateErrorHash (message params : string) : string :=
  message +:+ ":" +:+ params.

(** [this.logQueue.push(entry); this.saveQueue();] *)
Definition push_and_save (env : Env) (entry : LogEntry) : M unit :=
  modify (fun s => set_logQueue (logQueue s ++ [entry]) s) >>
  saveQueue env.

Definition queueLog (env : Env) (type : LogType) (message params : string) : M unit :=
  let entry := mkLogEntry type message params (now env) None in
  match type with
  | Error =>
      let hash := generateErrorHash message params in
      let* hashes := gets errorHashes in
      if bool_decide (hash ∈ hashes) then
        console_write ConsoleLog "[Logger] Skipping duplicate error:" [ArgValue (VString message)]
      else
        modify (fun s => set_errorHashes ({[hash]} ∪ errorHashes s) s) >>
        push_and_save env (mkLogEntry type message params (now env) (Some hash))
  | _ => push_and_save env entry
  end.

(** The callback of [params.map]. *)
Definition format_param (param : JSValue) : Completion (option string) :=
  if is_nonnull_object param then JSON_stringify param
  else Normal (Some (String_ param)).

(** [params.map(callback)]: the first callback that throws ends the map. *)
Fixpoint map_params (l : list JSValue) : Completion (list (option string)) :=
  match l with
  | [] => Normal []
  | x :: rest =>
      bind_completion (format_param x) (fun o =>
      bind_completion (map_params rest) (fun os => Normal (o :: os)))
  end.

Definition formatParams (params : list JSValue) : M string :=
  if (length params =? 0)%nat then ret ""
  else
    try_catch
      (let* formatted := lift (map_params params) in
       let formattedParams := join " " (map (default "") formatted) in
       ret formattedParams)
      (fun error =>
         console_write ConsoleError "[Logger] Error formatting log parameters:" [ArgError error] >>
         ret "[Error formatting parameters]").

Definition log (env : Env) (message : string) (optionalParams : list JSValue) : M unit :=
  let logMessage := "[LOG] " +:+ message in
  console_write ConsoleLog logMessage (map ArgValue optionalParams) >>
  try_catch
    (let* formattedParams := formatParams optionalParams in
     queueLog env Log logMessage formattedParams)
    (fun error => console_error "[Logger] Failed to queue log:" error).

Definition debug (env : Env) (message : string) (optionalParams : list JSValue) : M unit :=
  if DEV env then
    let debugMessage := "[DEBUG] " +:+ message in
    console_write ConsoleDebug debugMessage (map ArgValue optionalParams)
  else ret tt.

Definition error (env : Env) (message : string) (optionalParams : list JSValue) : M unit :=
  let errorMessage := "[ERROR] " +:+ message in
  console_write ConsoleError errorMessage (map ArgValue optionalParams) >>
  try_catch
    (let* formattedParams := formatParams optionalParams in
     queueLog env Error errorMessage formattedParams)
    (fun error => console_error "[Logger] Failed to queue error:" error).

Definition warn (env : Env) (message : string) (optionalParams : list JSValue) : M unit :=
  let warnMessage := "[WARN] " +:+ message in
  console_write ConsoleWarn warnMessage (map ArgValue optionalParams) >>
  try_catch
    (let* formattedParams := formatParams optionalParams in
     queueLog env Warn warnMessage formattedParams)
    (fun error => console_error "[Logger] Failed to queue warning:" error).

Definition forceFlush (env : Env) : M unit := flushLogs env.

Definition init (env : Env) : M unit :=
  try_catch
    (try_catch
       (crashlytics_call env (SetCrashlyticsCollectionEnabled true) >>
        console_log "[Logger] Crashlytics initialized successfully as remote logging service" >>
        let* userId := getItem env "userID" in
        let platform := Platform_OS env in
        crashlytics_call env (SetUserId (if truthy userId then default "" userId
                                         else "anonymous_user")) >>
        crashlytics_call env (SetAttribute "environment" (APP_ENV env)) >>
        crashlytics_call env (SetAttribute "platform" platform) >>
        crashlytics_call env (SetAttribute "app_version" "1.0.0") >>
        restoreQueue env >>
        startFlushTimer)
       (fun crashlyticsError =>
          console_error "[Logger] Failed to initialize Crashlytics:" crashlyticsError))
    (fun err =>
       console_error "Failed to initialize logger service:" err >>
       throw err).

(** The fields of a [Logger] before its constructor body runs, in a fresh
    process over the surviving store (and the remote and console records). *)
Definition fresh (s : State) : State :=
  mkState [] None ∅ (storage s) (crashlytics s) (console s) ∅ 1%positive.

(** [new Logger()] *)
Definition constructor (env : Env) : M unit :=
  modify fresh >> init env.

(** ** Operations of a running application *)

(** What can happen to the logger: the process starts ([Construct]), the
    application calls one of the public methods, the interval timer fires,
    or ([QueueLog]) an event of a given kind, message and formatted
    parameters is recorded directly. *)
Inductive Op : Type :=
| Construct
| QueueLog (type : LogType) (message params : string)
| CallLog (message : string) (optionalParams : list JSValue)
| CallWarn (message : string) (optionalParams : list JSValue)
| CallError (message : string) (optionalParams : list JSValue)
| CallDebug (message : string) (optionalParams : list JSValue)
| ForceFlush
| TimerFires.

Definition run_op (env : Env) (op : Op) : M unit :=
  match op with
  | Construct => constructor env
  | QueueLog t m p => queueLog env t m p
  | CallLog m ps => log env m ps
  | CallWarn m ps => warn env m ps
  | CallError m ps => error env m ps
  | CallDebug m ps => debug env m ps
  | ForceFlush => forceFlush env
  | TimerFires =>
      let* h := gets timerHandle in
      let* running := gets intervals in
      match h with
      | Some t => if bool_decide (is_Some (running !! t)) then flushLogs env else ret tt
      | None => ret tt
      end
  end.

(** The state an operation leaves behind ([None]: outside the typed model). *)
Definition step (env : Env) (op : Op) (s : State) : option State :=
  match run_op env op s with
  | Some (_, s') => Some s'
  | None => None
  end.

(** ECMAScript time values: what [Date.now()] can return. *)
Definition time_value (t : Z) : Prop :=
  -8640000000000000 <= t <= 8640000000000000.

Definition valid_env (env : Env) : Prop := time_value (now env).

(** The application before its first start: nothing stored under the
    queue key. *)
Definition installed (st : gmap string string) : State :=
  mkState [] None ∅ st [] [] ∅ 1%positive.

(** The public surface of the logger. *)
Definition public (op : Op) : Prop :=
  match op with
  | QueueLog _ _ _ => False
  | _ => True
  end.

Inductive reachable_by (allowed : Op -> Prop) : State -> Prop :=
| reachable_installed st :
    st !! QUEUE_KEY = None ->
    reachable_by allowed (installed st)
| reachable_step s env op s' :
    reachable_by allowed s ->
    allowed op ->
    valid_env env ->
    step env op s = Some s' ->
    reachable_by allowed s'.

Definition reachable : State -> Prop := reachable_by (fun _ => True).

(** ** The key-value store module *)

(** localStorage [setItem] *)
Definition setItem (env : Env) (key value : string) : M unit :=
  storage_set env key value.

(** [storage.delete(key)]; [delete_ok] says for which keys the native call
    succeeds. *)
Definition storage_delete (delete_ok : string -> bool) (key : string) : M unit :=
  fun s =>
    if delete_ok key
    then Some (Normal tt, set_storage (delete key (storage s)) s)
    else Some (Throw (NativeError "MMKV delete failed"), s).

(** localStorage [removeItem] *)
Definition removeItem (delete_ok : string -> bool) (key : string) : M unit :=
  storage_delete delete_ok key.

(** ** Asynchronous execution *)

(** [init] and [flushLogs] are [async] functions that no caller awaits: the
    constructor, the timer callback and [forceFlush] call them and go on.
    Such a call runs up to its first [await] and is then suspended; what the
    application does next runs before the function resumes.  An [Async] is a
    call in progress: [Done], or suspended at an [await] with the code that
    runs when the awaited promise settles, in the environment of that
    moment. *)
Inductive Async : Type :=
| Done
| Await (resume : Env -> M Async).

(** [await crashlytics().f(...)], followed by [rest], inside the [try]
    blocks [guard]: the function is suspended; when it resumes the call has
    been accepted, or it was rejected and the rejection is thrown at the
    [await]. *)
Definition await_call (guard : M Async -> M Async) (call : RemoteCall)
    (rest : Env -> M Async) : M Async :=
  ret (Await (fun env => guard (crashlytics_call env call >> rest env))).

(** [await value], followed by [rest], for a value that is settled already:
    the function is suspended all the same. *)
Definition await_value (guard : M Async -> M Async) (rest : Env -> M Async) : M Async :=
  ret (Await (fun env => guard (rest env))).

(** The [try] block of [flushLogs] with its [catch]. *)
Definition flush_try (body : M Async) : M Async :=
  try_catch body
    (fun error => console_error "[Logger] Failed to flush logs:" error >> ret Done).

(** The statements of [flushLogs] after the two loops. *)
Definition flush_finish (env : Env) : M Async :=
  modify (set_logQueue []) >>
  modify (set_errorHashes ∅) >>
  saveQueue env >>
  console_log "[Logger] Successfully flushed logs to Crashlytics" >>
  ret Done.

(** [for (const entry of errorLogs) { await ...log(...); await ...recordError(...) }]
    and what follows it. *)
Fixpoint flush_errors_async (errorLogs : list LogEntry) (env : Env) : M Async :=
  match errorLogs with
  | [] => flush_finish env
  | entry :: rest =>
      await_call flush_try (CrashlyticsLog (error_line entry)) (fun _ =>
      await_call flush_try (RecordError (error_description entry)) (fun env' =>
      flush_errors_async rest env'))
  end.

(** [for (const entry of normalLogs) { await ...log(...) }] and what follows
    it. *)
Fixpoint flush_normals_async (normalLogs errorLogs : list LogEntry) (env : Env) : M Async :=
  match normalLogs with
  | [] => flush_errors_async errorLogs env
  | entry :: rest =>
      await_call flush_try (CrashlyticsLog (normal_line entry)) (fun env' =>
      flush_normals_async rest errorLogs env')
  end.

(** A call of [flushLogs], up to its first [await]. *)
Definition flushLogs_async (env : Env) : M Async :=
  let* q := gets logQueue in
  if (length q =? 0)%nat then ret Done
  else
    console_log ("[Logger] Flushing " +:+ Number_toString (Z.of_nat (length q))
                 +:+ " logs to Crashlytics") >>
    flush_try
      (let* q := gets logQueue in
       let errorLogs := filter (fun entry => type entry = Error) q in
       let normalLogs := filter (fun entry => type entry <> Error) q in
       flush_normals_async normalLogs errorLogs env).

(** The two [try] blocks of [init] with their [catch] blocks. *)
Definition init_try (body : M Async) : M Async :=
  try_catch
    (try_catch body
       (fun crashlyticsError =>
          console_error "[Logger] Failed to initialize Crashlytics:" crashlyticsError >>
          ret Done))
    (fun err =>
       console_error "Failed to initialize logger service:" err >>
       throw err).

(** A call of [init], up to its first [await]. *)
Definition init_async : M Async :=
  init_try
    (await_call init_try (SetCrashlyticsCollectionEnabled true) (fun env =>
       console_log "[Logger] Crashlytics initialized successfully as remote logging service" >>
       let* userId := getItem env "userID" in
       await_value init_try (fun env =>
         let platform := Platform_OS env in
         await_call init_try (SetUserId (if truthy userId then default "" userId
                                         else "anonymous_user")) (fun env =>
         await_call init_try (SetAttribute "environment" (APP_ENV env)) (fun _ =>
         await_call init_try (SetAttribute "platform" platform) (fun _ =>
         await_call init_try (SetAttribute "app_version" "1.0.0") (fun env =>
           restoreQueue env >>
           await_value init_try (fun _ =>
             startFlushTimer >>
             ret Done)))))))).

(** [new Logger()]: the constructor returns when [init] is suspended. *)
Definition constructor_async : M Async :=
  modify fresh >> init_async.

(** Resume a call in progress once for every environment of the list, or
    until it is done. *)
Fixpoint resume_async (envs : list Env) (a : Async) : M Async :=
  match envs, a with
  | env :: rest, Await resume => let* a' := resume env in resume_async rest a'
  | _, _ => ret a
  end.

(** Run a call in progress to its end with nothing else in between: every
    resumption sees [env]. *)
Fixpoint run_async (env : Env) (a : Async) {struct a} : M unit :=
  match a with
  | Done => ret tt
  | Await resume =>
      fun s =>
        match resume env s with
        | Some (Normal a', s') => run_async env a' s'
        | Some (Throw e, s') => Some (Throw e, s')
        | None => None
        end
  end.

(** What can happen while a flush is in progress: the promise it awaits
    settles, or the application calls a method of the logger. *)
Inductive Event : Type :=
| Settles (env : Env)
| Calls (env : Env) (op : Op).

(** A call in progress among other events: it is resumed each time its
    promise settles, and in between the application's calls run. *)
Fixpoint resume_among (events : list Event) (a : Async) : M Async :=
  match events with
  | [] => ret a
  | Settles env :: rest =>
      match a with
      | Await resume => let* a' := resume env in resume_among rest a'
      | Done => resume_among rest a
      end
  | Calls env op :: rest => run_op env op >> resume_among rest a
  end.

(** Two calls in progress, resumed in the order of the schedule: [true]
    resumes the first, [false] the second. *)
Fixpoint resume_two (schedule : list (bool * Env)) (a b : Async) : M (Async * Async) :=
  match schedule with
  | [] => ret (a, b)
  | (true, env) :: rest =>
      match a with
      | Await resume => let* a' := resume env in resume_two rest a' b
      | Done => resume_two rest a b
      end
  | (false, env) :: rest =>
      match b with
      | Await resume => let* b' := resume env in resume_two rest a b'
      | Done => resume_two rest a b
      end
  end.

(** ** Notions the properties are stated with *)

(** An entry as [queueLog] creates it: a fingerprint exactly on errors. *)
Definition wf_entry (entry : LogEntry) : Prop :=
  time_value (timestamp entry) /\
  hash entry = match type entry with
               | Error => Some (generateErrorHash (message entry) (params entry))
               | _ => None
               end.

(** { e.errorHash | e in LogQueue, e.kind = Error } *)
Definition error_hashes (q : list LogEntry) : gset string :=
  list_to_set (omap (fun entry => if is_error entry then hash entry else None) q).

Definition dedupe_invariant (s : State) : Prop :=
  errorHashes s = error_hashes (logQueue s).

(** The bracketed upper-case tag of a kind. *)
Definition kind_tag (t : LogType) : string :=
  "[" +:+ toUpperCase (type_tag t) +:+ "]".

(** The message of [entry] starts with the tag of its kind and a space. *)
Definition tagged (entry : LogEntry) : Prop :=
  exists text, message entry = kind_tag (type entry) +:+ " " +:+ text.

(** The store holds nothing under the queue key, or the serialization of a
    queue of well-formed entries that satisfy [P]. *)
Definition persisted_queue (P : LogEntry -> Prop) (s : State) : Prop :=
  forall text, storage s !! QUEUE_KEY = Some text ->
    exists q, Forall wf_entry q /\ Forall P q /\
              JSON_stringify (queue_value q) = Normal (Some text).

Definition logger_invariant (P : LogEntry -> Prop) (s : State) : Prop :=
  dedupe_invariant s /\
  Forall wf_entry (logQueue s) /\
  Forall P (logQueue s) /\
  persisted_queue P s.

(** Does the remote service accept all of [calls], one after the other? *)
Fixpoint remote_accepts (env : Env) (history calls : list RemoteCall) : bool :=
  match calls with
  | [] => true
  | c :: rest => remote_ok env history c && remote_accepts env (history ++ [c]) rest
  end.

(** Specification of a flush (spec 4.3): the non-error entries, in queue
    order, each as one log line; then the error entries, in queue order,
    each as one log line followed by one recorded error whose description
    is the message, a space, and the params. *)
Definition delivery_plan (q : list LogEntry) : list RemoteCall :=
  flat_map (fun entry => [CrashlyticsLog (normal_line entry)])
           (filter (fun entry => type entry <> Error) q)
  ++ flat_map (fun entry => [CrashlyticsLog (error_line entry);
                             RecordError (message entry +:+ " " +:+ params entry)])
              (filter (fun entry => type entry = Error) q).

(** The identity and attribute calls of [init], in order. *)
Definition setup_calls (env : Env) (s : State) : list RemoteCall :=
  [SetCrashlyticsCollectionEnabled true;
   SetUserId (if truthy (storage s !! "userID") then default "" (storage s !! "userID")
              else "anonymous_user");
   SetAttribute "environment" (APP_ENV env);
   SetAttribute "platform" (Platform_OS env);
   SetAttribute "app_version" "1.0.0"].

(** ** Definitions used by the proofs *)

(** The text after a number literal does not continue it. *)
Definition ends_number (rest : string) : Prop :=
  match rest with
  | EmptyString => True
  | String c _ => digit_of_ascii c = None /\ c <> "."%char /\ c <> "e"%char /\ c <> "E"%char
  end.

(** The literal [Number_toString] writes for an integer. *)
Definition lit_of_Z (z : Z) : NumberLit :=
  match z with
  | Z0 => mkNumberLit false (Decimal.D0 Decimal.Nil) None None
  | Zpos p => mkNumberLit false (Pos.to_uint p) None None
  | Zneg p => mkNumberLit true (Pos.to_uint p) None None
  end.

(** One member of a serialized object. *)
Definition member_text (key value : string) : string :=
  QuoteJSONString key +:+ ":" +:+ value.

(** The members [JSON.stringify] writes for an entry. *)
Definition entry_members (e : LogEntry) : list string :=
  [member_text "type" (QuoteJSONString (type_tag (type e)));
   member_text "message" (QuoteJSONString (message e));
   member_text "params" (QuoteJSONString (params e));
   member_text "timestamp" (Number_toString (timestamp e))]
  ++ match hash e with
     | Some h => [member_text "hash" (QuoteJSONString h)]
     | None => []
     end.

(** The text [JSON.stringify] produces for an entry. *)
Definition entry_text (e : LogEntry) : string :=
  "{" +:+ join "," (entry_members e) +:+ "}".

(** The text [JSON.stringify] produces for a queue (lemma [stringify_queue]). *)
Definition queue_text (q : list LogEntry) : string :=
  "[" +:+ join "," (map entry_text q) +:+ "]".

(** The tokens of [entry_text]. *)
Definition entry_tokens (e : LogEntry) : list token :=
  [TLBrace;
   TString (units_of_string "type"); TColon; TString (units_of_string (type_tag (type e))); TComma;
   TString (units_of_string "message"); TColon; TString (units_of_string (message e)); TComma;
   TString (units_of_string "params"); TColon; TString (units_of_string (params e)); TComma;
   TString (units_of_string "timestamp"); TColon; TNumber (lit_of_Z (timestamp e))]
  ++ match hash e with
     | Some h => [TComma; TString (units_of_string "hash"); TColon; TString (units_of_string h)]
     | None => []
     end
  ++ [TRBrace].

(** The tokens of the entries of a queue, commas between them. *)
Fixpoint elements_tokens (q : list LogEntry) : list token :=
  match q with
  | [] => []
  | [e] => entry_tokens e
  | e :: rest => entry_tokens e ++ TComma :: elements_tokens rest
  end.

(** The tokens of [queue_text]. *)
Definition queue_tokens (q : list LogEntry) : list token :=
  TLBracket :: elements_tokens q ++ [TRBracket].

(** The parse tree of [entry_text]. *)
Definition entry_json (e : LogEntry) : json :=
  JObject ([(units_of_string "type", JString (units_of_string (type_tag (type e))));
            (units_of_string "message", JString (units_of_string (message e)));
            (units_of_string "params", JString (units_of_string (params e)));
            (units_of_string "timestamp", JNumber (lit_of_Z (timestamp e)))]
           ++ match hash e with
              | Some h => [(units_of_string "hash", JString (units_of_string h))]
              | None => []
              end).

(** A successful parse with [m] units of fuel consumes at least one token,
    and succeeds alike with any fuel of at least twice the number of tokens
    it consumes, minus one. *)
Definition fuel_bound {A} (parse : nat -> list token -> option (A * list token)) (m : nat) : Prop :=
  forall ts a r, parse m ts = Some (a, r) ->
    (length r < length ts)%nat /\
    forall n, (2 * (length ts - length r) <= n + 1)%nat -> parse n ts = Some (a, r).

(** The calls accepted before the first rejection. *)
Fixpoint accepted_prefix (env : Env) (history calls : list RemoteCall) : list RemoteCall :=
  match calls with
  | [] => []
  | c :: rest =>
      if remote_ok env history c then c :: accepted_prefix env (history ++ [c]) rest else []
  end.

(** What a rejected remote call throws. *)
Definition rejected : JsError := NativeError "crashlytics call rejected".

(** One more line on the console. *)
Definition with_console (lv : ConsoleLevel) (msg : string) (a : list ConsoleArg) (s : State) : State :=
  set_console (console s ++ [mkConsoleLine lv msg a]) s.

(** What a rejected store write throws. *)
Definition storage_rejected : JsError := NativeError "MMKV set failed".

(** After [saveQueue]. *)
Definition saved (env : Env) (s : State) : State :=
  let text := queue_text (logQueue s) in
  if storage_set_ok env QUEUE_KEY text
  then set_storage (<[QUEUE_KEY := text]> (storage s)) s
  else with_console ConsoleError "[Logger] Failed to save queue:" [ArgError storage_rejected] s.

(** After [flushLogs]. *)
Definition flushed (env : Env) (s : State) : State :=
  match logQueue s with
  | [] => s
  | _ :: _ =>
      let plan := delivery_plan (logQueue s) in
      let s1 := with_console ConsoleLog
                  ("[Logger] Flushing " +:+ Number_toString (Z.of_nat (length (logQueue s)))
                   +:+ " logs to Crashlytics") [] s in
      let s2 := set_crashlytics (crashlytics s ++ accepted_prefix env (crashlytics s) plan) s1 in
      if remote_accepts env (crashlytics s) plan
      then with_console ConsoleLog "[Logger] Successfully flushed logs to Crashlytics" []
             (saved env (set_errorHashes ∅ (set_logQueue [] s2)))
      else with_console ConsoleError "[Logger] Failed to flush logs:" [ArgError rejected] s2
  end.

(** After [queueLog]. *)
Definition queued (env : Env) (t : LogType) (m p : string) (s : State) : State :=
  match t with
  | Error =>
      let h := generateErrorHash m p in
      if bool_decide (h ∈ errorHashes s)
      then with_console ConsoleLog "[Logger] Skipping duplicate error:" [ArgValue (VString m)] s
      else saved env (set_logQueue (logQueue s ++ [mkLogEntry Error m p (now env) (Some h)])
                        (set_errorHashes ({[h]} ∪ errorHashes s) s))
  | _ => saved env (set_logQueue (logQueue s ++ [mkLogEntry t m p (now env) None]) s)
  end.

(** What [formatParams] returns when a conversion throws. *)
Definition SENTINEL : string := "[Error formatting parameters]".

(** The string [formatParams] returns. *)
Definition formatted (ps : list JSValue) : string :=
  match ps with
  | [] => ""
  | _ :: _ =>
      match map_params ps with
      | Normal os => join " " (map (default "") os)
      | Throw _ => SENTINEL
      end
  end.

(** After [formatParams]. *)
Definition format_logged (ps : list JSValue) (s : State) : State :=
  match ps with
  | [] => s
  | _ :: _ =>
      match map_params ps with
      | Normal _ => s
      | Throw e => with_console ConsoleError "[Logger] Error formatting log parameters:" [ArgError e] s
      end
  end.

(** The fingerprints [restoreQueue] adds for a parsed queue. *)
Definition restored_hashes (q : list LogEntry) : gset string :=
  list_to_set (omap (fun entry => if is_error entry && truthy (hash entry)
                                  then hash entry else None) q).

(** What a failed store read throws. *)
Definition storage_unreadable : JsError := NativeError "MMKV getString failed".

(** What [JSON.parse] throws. *)
Definition parse_error : JsError := SyntaxError "JSON Parse error".

(** After [restoreQueue] ([None]: the stored text is JSON of another type). *)
Definition restored (env : Env) (s : State) : option State :=
  if storage_get_ok env QUEUE_KEY then
    if truthy (storage s !! QUEUE_KEY) then
      match JSON_parse (default "" (storage s !! QUEUE_KEY)) with
      | None =>
          Some (with_console ConsoleError "[Logger] Failed to restore queue:" [ArgError parse_error] s)
      | Some j =>
          match as_LogEntries j with
          | Some q =>
              Some (with_console ConsoleLog
                      ("[Logger] Restored " +:+ Number_toString (Z.of_nat (length q))
                       +:+ " queued logs") []
                      (set_errorHashes (restored_hashes q ∪ errorHashes s) (set_logQueue q s)))
          | None => None
          end
      end
    else Some s
  else Some (with_console ConsoleError "[Logger] Failed to restore queue:"
               [ArgError storage_unreadable] s).

(** The result of a method that returned normally, if it is typed. *)
Definition completed (o : option State) : option (Completion unit * State) :=
  match o with
  | Some s => Some (Normal tt, s)
  | None => None
  end.

(** After [startFlushTimer]. *)
Definition timer_started (s : State) : State :=
  let running := match timerHandle s with
                 | Some t => delete t (intervals s)
                 | None => intervals s
                 end in
  set_timerHandle (Some (next_interval s))
    (set_intervals (<[next_interval s := FLUSH_INTERVAL]> running) (Pos.succ (next_interval s)) s).

(** After the catch block of [init]. *)
Definition init_failed (e : JsError) (s : State) : State :=
  with_console ConsoleError "[Logger] Failed to initialize Crashlytics:" [ArgError e] s.

(** After [init]. *)
Definition initialized (env : Env) (s : State) : option State :=
  match setup_calls env s with
  | c1 :: calls =>
      if remote_ok env (crashlytics s) c1 then
        let s1 := with_console ConsoleLog
                    "[Logger] Crashlytics initialized successfully as remote logging service" []
                    (set_crashlytics (crashlytics s ++ [c1]) s) in
        if storage_get_ok env "userID" then
          let s2 := set_crashlytics
                      (crashlytics s1 ++ accepted_prefix env (crashlytics s1) calls) s1 in
          if remote_accepts env (crashlytics s1) calls
          then timer_started <$> restored env s2
          else Some (init_failed rejected s2)
        else Some (init_failed storage_unreadable s1)
      else Some (init_failed rejected s)
  | [] => None
  end.

(** The fields the invariant reads are left alone. *)
Definition same_core (s s' : State) : Prop :=
  logQueue s' = logQueue s /\ errorHashes s' = errorHashes s /\ storage s' = storage s.

(** After one operation. *)
Definition stepped (env : Env) (op : Op) (s : State) : option State :=
  match op with
  | Construct => initialized env (fresh s)
  | QueueLog t m p => Some (queued env t m p s)
  | CallLog m ps =>
      Some (queued env Log ("[LOG] " +:+ m) (formatted ps)
              (format_logged ps (with_console ConsoleLog ("[LOG] " +:+ m) (map ArgValue ps) s)))
  | CallWarn m ps =>
      Some (queued env Warn ("[WARN] " +:+ m) (formatted ps)
              (format_logged ps (with_console ConsoleWarn ("[WARN] " +:+ m) (map ArgValue ps) s)))
  | CallError m ps =>
      Some (queued env Error ("[ERROR] " +:+ m) (formatted ps)
              (format_logged ps (with_console ConsoleError ("[ERROR] " +:+ m) (map ArgValue ps) s)))
  | CallDebug m ps =>
      Some (if DEV env then with_console ConsoleDebug ("[DEBUG] " +:+ m) (map ArgValue ps) s
            else s)
  | ForceFlush => Some (flushed env s)
  | TimerFires =>
      Some match timerHandle s with
           | Some t => if bool_decide (is_Some (intervals s !! t)) then flushed env s else s
           | None => s
           end
  end.

(** What a direct [queueLog] operation appends satisfies [P]. *)
Definition appends (P : LogEntry -> Prop) (op : Op) : Prop :=
  match op with
  | QueueLog t m p => forall ts h, P (mkLogEntry t m p ts h)
  | _ => True
  end.

(** Every remote call and every store access succeeds. *)
Definition demo_env : Env :=
  mkEnv 1700000000000 "ios" "production" false
        (fun _ _ => true) (fun _ => true) (fun _ _ => true).

(** The remote service rejects [setUserId]. *)
Definition demo_env_no_user : Env :=
  mkEnv 1700000000500 "ios" "production" false
        (fun _ c => match c with SetUserId _ => false | _ => true end)
        (fun _ => true) (fun _ _ => true).

(** An entry as [log] queues it. *)
Definition demo_entry : LogEntry := mkLogEntry Log "[LOG] hello" "" 1700000000000 None.

(** A store left behind by an earlier run that logged one line. *)
Definition demo_stored : State :=
  mkState [] None ∅ {[QUEUE_KEY := queue_text [demo_entry]]} [] [] ∅ 1%positive.


(** The bracketed upper-case tag of the kind, a space, the stored message,
    a space, and the stored params. *)
Definition log_line (entry : LogEntry) : string :=
  kind_tag (type entry) +:+ " " +:+ message entry +:+ " " +:+ params entry.

(** The remote service rejects [recordError]. *)
Definition demo_env_no_record : Env :=
  mkEnv 1700000001000 "ios" "production" false
        (fun _ c => match c with RecordError _ => false | _ => true end)
        (fun _ => true) (fun _ _ => true).


(** A first start of the application ... *)
Definition demo_started : State :=
  default (installed ∅) (step demo_env Construct (installed ∅)).

(** ... then [error] is called ... *)
Definition demo_failed : State :=
  default demo_started (step demo_env (CallError "boom" [VNumber 3]) demo_started).

(** ... and then [log]. *)
Definition demo_queued : State :=
  default demo_failed (step demo_env (CallLog "hello" []) demo_failed).

(** A store whose text under the queue key is not JSON. *)
Definition demo_corrupt : State :=
  mkState [] None ∅ {[QUEUE_KEY := "[{"]} [] [] ∅ 1%positive.

(** The scenario of the specification (section 8): the same error twice,
    another error, a successful flush, and the first error again. *)
Definition scenario_env : Env :=
  mkEnv 1700000003000 "android" "staging" true
        (fun _ _ => true) (fun _ => true) (fun _ _ => true).

(** The state after a sequence of operations. *)
Definition run_ops (env : Env) (ops : list Op) (s : State) : State :=
  foldl (fun st op => default st (step env op st)) s ops.

(** The state in which [init] calls [restoreQueue]: the setup calls are
    recorded and the success line is on the console. *)
Definition identified (env : Env) (s : State) : State :=
  with_console ConsoleLog
    "[Logger] Crashlytics initialized successfully as remote logging service" []
    (set_crashlytics (crashlytics s ++ setup_calls env s) s).

(** The operations that record an event: the four logging methods and a
    direct [queueLog]. *)
Definition recording (op : Op) : Prop :=
  match op with
  | QueueLog _ _ _ | CallLog _ _ | CallWarn _ _ | CallError _ _ | CallDebug _ _ => True
  | _ => False
  end.

(** Calls of [log] and [warn]. *)
Definition plain (op : Op) : Prop :=
  match op with
  | CallLog _ _ | CallWarn _ _ => True
  | _ => False
  end.

(** The fields outside the logger's queue, set and store. *)
Definition same_remote_and_timers (s s' : State) : Prop :=
  crashlytics s' = crashlytics s /\ timerHandle s' = timerHandle s /\
  intervals s' = intervals s /\ next_interval s' = next_interval s.

(** The store refuses every write. *)
Definition demo_env_full : Env :=
  mkEnv 1700000004000 "ios" "production" false
        (fun _ _ => true) (fun _ => true) (fun _ _ => false).

(** Timer handles are handed out in increasing order: the running timers
    and the handle the logger holds were allocated before [next_interval]. *)
Definition timers_allocated (s : State) : Prop :=
  (forall t, is_Some (intervals s !! t) -> (t < next_interval s)%positive) /\
  (forall t, timerHandle s = Some t -> (t < next_interval s)%positive).

(** The only running timer is the one the logger holds, and its period is
    [FLUSH_INTERVAL]; without a handle no timer runs. *)
Definition one_timer (s : State) : Prop :=
  intervals s = match timerHandle s with
                | Some t => {[t := FLUSH_INTERVAL]}
                | None => ∅
                end.

(** A state in which two timers of another owner run and the logger holds
    a third one. *)
Definition demo_timers : State :=
  mkState [] (Some 3%positive) ∅ ∅ [] []
          {[1%positive := 500; 2%positive := 1000; 3%positive := FLUSH_INTERVAL]} 4%positive.

(** Does the text contain a colon? *)
Fixpoint has_colon (s : string) : bool :=
  match s with
  | EmptyString => false
  | String c r => Ascii.eqb c ":" || has_colon r
  end.

(** The remote service accepts the first call of a flush and rejects the
    rest. *)
Definition demo_env_one_call : Env :=
  mkEnv 1700000005000 "ios" "production" false
        (fun history c =>
           match c with
           | CrashlyticsLog _ =>
               forallb (fun c' => match c' with CrashlyticsLog _ => false | _ => true end) history
           | RecordError _ => false
           | _ => true
           end)
        (fun _ => true) (fun _ _ => true).

(** The remote service accepts every call. *)
Definition accepting (env : Env) : Prop :=
  forall history c, remote_ok env history c = true.

(** After the last statements of a successful flush. *)
Definition flush_cleared (env : Env) (s : State) : State :=
  with_console ConsoleLog "[Logger] Successfully flushed logs to Crashlytics" []
    (saved env (set_errorHashes ∅ (set_logQueue [] s))).

(** After a flush in progress has run to its end, with [calls] left to
    make. *)
Definition flush_ended (env : Env) (calls : list RemoteCall) (s : State) : State :=
  let s2 := set_crashlytics (crashlytics s ++ accepted_prefix env (crashlytics s) calls) s in
  if remote_accepts env (crashlytics s) calls
  then flush_cleared env s2
  else with_console ConsoleError "[Logger] Failed to flush logs:" [ArgError rejected] s2.

(** [a] is a flush suspended at the call [c] with the calls [rest] to make
    after it: resumed, it fails if [c] was rejected, and otherwise goes on to
    the next call or, after the last one, clears the queue. *)
Fixpoint flushing (calls : list RemoteCall) (a : Async) : Prop :=
  match calls, a with
  | c :: rest, Await resume =>
      forall env s,
        if remote_ok env (crashlytics s) c
        then match rest with
             | [] =>
                 resume env s
                 = Some (Normal Done,
                         flush_cleared env (set_crashlytics (crashlytics s ++ [c]) s))
             | _ :: _ =>
                 exists a',
                   resume env s = Some (Normal a', set_crashlytics (crashlytics s ++ [c]) s) /\
                   flushing rest a'
             end
        else resume env s
             = Some (Normal Done,
                     with_console ConsoleError "[Logger] Failed to flush logs:"
                       [ArgError rejected] s)
  | _, _ => False
  end.

(** The calls of the second loop of [flushLogs]. *)
Definition error_calls (errorLogs : list LogEntry) : list RemoteCall :=
  flat_map (fun entry => [CrashlyticsLog (error_line entry);
                          RecordError (message entry +:+ " " +:+ params entry)]) errorLogs.

(** The calls of the first loop of [flushLogs]. *)
Definition normal_calls (normalLogs : list LogEntry) : list RemoteCall :=
  flat_map (fun entry => [CrashlyticsLog (normal_line entry)]) normalLogs.

(** [init], suspended at its first [await]. *)
Definition init_suspended : Async :=
  Await (fun env => init_try (crashlytics_call env (SetCrashlyticsCollectionEnabled true) >>
    (console_log "[Logger] Crashlytics initialized successfully as remote logging service" >>
     let* userId := getItem env "userID" in
     await_value init_try (fun env =>
       let platform := Platform_OS env in
       await_call init_try (SetUserId (if truthy userId then default "" userId
                                       else "anonymous_user")) (fun env =>
       await_call init_try (SetAttribute "environment" (APP_ENV env)) (fun _ =>
       await_call init_try (SetAttribute "platform" platform) (fun _ =>
       await_call init_try (SetAttribute "app_version" "1.0.0") (fun env =>
         restoreQueue env >>
         await_value init_try (fun _ =>
           startFlushTimer >>
           ret Done))))))))).

(** How often the promise settles. *)
Fixpoint settles (events : list Event) : nat :=
  match events with
  | [] => 0
  | Settles _ :: rest => S (settles rest)
  | Calls _ _ :: rest => settles rest
  end.

(** The number of [log] and [warn] calls among the events. *)
Fixpoint plain_calls (events : list Event) : nat :=
  match events with
  | [] => 0
  | Calls _ (CallLog _ _) :: rest | Calls _ (CallWarn _ _) :: rest => S (plain_calls rest)
  | _ :: rest => plain_calls rest
  end.

(** The remote service accepts the call that settles; the application only
    records events. *)
Definition quiet (ev : Event) : Prop :=
  match ev with
  | Settles env => accepting env
  | Calls _ op => recording op
  end.

(** How often the schedule resumes the first ([true]) or the second
    ([false]) call. *)
Fixpoint turns (first : bool) (schedule : list (bool * Env)) : nat :=
  match schedule with
  | [] => 0
  | (f, _) :: rest => (if Bool.eqb f first then 1 else 0) + turns first rest
  end.

(** A flush with [calls] left to make: in progress, or done when none is
    left. *)
Definition pending (calls : list RemoteCall) (a : Async) : Prop :=
  match calls with
  | [] => a = Done
  | _ :: _ => flushing calls a
  end.

(** The remote service rejects every call. *)
Definition demo_env_offline : Env :=
  mkEnv 1700000006000 "ios" "production" false
        (fun _ _ => false) (fun _ => true) (fun _ _ => true).


(** The state after a run: each operation in its own environment. *)
Definition run_trace (trace : list (Env * Op)) (s : State) : State :=
  foldl (fun st step_ => default st (step (fst step_) (snd step_) st)) s trace.

(** Is the operation a call of [debug]? *)
Definition is_debug (op : Op) : bool :=
  match op with
  | CallDebug _ _ => true
  | _ => false
  end.

(** The state with the console output forgotten. *)
Definition without_console (s : State) : State := set_console [] s.

(** The remote service has received the entry: its log line and, for an
    error, the recorded error. *)
Definition sent (entry : LogEntry) (calls : list RemoteCall) : Prop :=
  CrashlyticsLog (log_line entry) ∈ calls /\
  (type entry = Error -> RecordError (message entry +:+ " " +:+ params entry) ∈ calls).

(** * Properties *)

(** ** The platform model on examples *)

Example stringify_example :
  JSON_stringify (VObject [("a", VNumber 1); ("u", VUndefined); ("b", VArray [VNull; VString "x"; VUndefined])])
  = Normal (Some ("{" +:+ String dquote ("a" +:+ String dquote (":1," +:+ String dquote ("b" +:+ String dquote
       (":[null," +:+ String dquote ("x" +:+ String dquote ",null]}"))))))).
Proof. reflexivity. Qed.

Example parse_example :
  JSON_parse ("[ {" +:+ String dquote ("a" +:+ String dquote ": -12.5e+3, " +:+ String dquote
              (String backslash "u0041" +:+ String backslash ("n" +:+ String dquote ":[true,null]} ]"))))
  = Some (JArray [JObject [([97%N], JNumber (mkNumberLit true (Decimal.D1 (Decimal.D2 Decimal.Nil))
                                              (Some (Decimal.D5 Decimal.Nil))
                                              (Some (false, Decimal.D3 Decimal.Nil))));
                           ([65%N; 10%N], JArray [JBool true; JNull])]]).
Proof. vm_compute. reflexivity. Qed.

Example parse_rejects_leading_zero : JSON_parse "[01]" = None.
Proof. reflexivity. Qed.

Example parse_rejects_trailing_comma : JSON_parse "[1,]" = None.
Proof. reflexivity. Qed.

(** ** Strings *)

Lemma append_cons (c : ascii) (a b : string) : String c a +:+ b = String c (a +:+ b).
Proof. reflexivity. Qed.

Lemma append_nil_l (b : string) : "" +:+ b = b.
Proof. reflexivity. Qed.

Lemma append_assoc (a b c : string) : (a +:+ b) +:+ c = a +:+ (b +:+ c).
Proof.
  induction a as [|x a IH]; [reflexivity|].
  rewrite !append_cons. by f_equal.
Qed.

Lemma append_nil_r (a : string) : a +:+ "" = a.
Proof.
  induction a as [|x a IH]; [reflexivity|].
  rewrite append_cons. by f_equal.
Qed.

Ltac norm_string := rewrite ?append_assoc, ?append_cons, ?append_nil_l.

(** *** Numbers *)

Lemma lex_digits_stop rest :
  ends_number rest -> lex_digits rest = (Decimal.Nil, rest).
Proof. destruct rest as [|c r]; simpl; [done | intros [-> _]; done]. Qed.

Lemma lex_digits_print u rest :
  ends_number rest ->
  lex_digits (NilEmpty.string_of_uint u +:+ rest) = (u, rest).
Proof.
  intros Hrest.
  induction u; simpl NilEmpty.string_of_uint; norm_string;
    [by apply lex_digits_stop | simpl; rewrite IHu; reflexivity ..].
Qed.

Lemma lex_fraction_stop rest : ends_number rest -> lex_fraction rest = Some (None, rest).
Proof.
  destruct rest as [|c r]; simpl; [done | intros (_ & Hdot & _)].
  destruct c as [[] [] [] [] [] [] [] []]; try reflexivity. by destruct Hdot.
Qed.

Lemma lex_exponent_stop rest : ends_number rest -> lex_exponent rest = Some (None, rest).
Proof.
  destruct rest as [|c r]; simpl; [done | intros (_ & _ & He & HE)].
  destruct c as [[] [] [] [] [] [] [] []]; try reflexivity; by (destruct He || destruct HE).
Qed.

(** The digits of a positive number start with a non-zero digit. *)
Lemma to_uint_head p :
  match Pos.to_uint p with
  | Decimal.Nil | Decimal.D0 _ => False
  | _ => True
  end.
Proof.
  pose proof (DecimalN.Unsigned.to_of (Pos.to_uint p)) as Hn.
  change (Pos.to_uint p) with (N.to_uint (Npos p)) in Hn at 1.
  rewrite DecimalN.Unsigned.of_to in Hn. simpl in Hn.
  pose proof (DecimalPos.Unsigned.of_to p) as Hof.
  destruct (Pos.to_uint p) as [|u| | | | | | | | |] eqn:E; try exact I.
  - simpl in Hof. discriminate.
  - rewrite unorm_D0 in Hn.
    destruct (Decimal.uint_eq_dec u Decimal.Nil) as [->|Hu].
    + simpl in Hof. discriminate.
    + pose proof (nb_digits_unorm u Hu) as Hlen. rewrite <- Hn in Hlen. simpl in Hlen. lia.
Qed.

Lemma lex_number_print z rest :
  ends_number rest ->
  lex_number (Number_toString z +:+ rest) = Some (lit_of_Z z, rest).
Proof.
  intros Hrest. unfold lex_number.
  assert (Hpos : forall p neg,
    (let '(int, s2) := lex_digits (NilEmpty.string_of_uint (Pos.to_uint p) +:+ rest) in
     match int with
     | Decimal.Nil => None
     | Decimal.D0 (Decimal.D0 _ | Decimal.D1 _ | Decimal.D2 _ | Decimal.D3 _ | Decimal.D4 _
                  | Decimal.D5 _ | Decimal.D6 _ | Decimal.D7 _ | Decimal.D8 _ | Decimal.D9 _) => None
     | _ =>
         match lex_fraction s2 with
         | None => None
         | Some (frac, s3) =>
             match lex_exponent s3 with
             | None => None
             | Some (exp, s4) => Some (mkNumberLit neg int frac exp, s4)
             end
         end
     end) = Some (mkNumberLit neg (Pos.to_uint p) None None, rest)).
  { intros p neg. rewrite lex_digits_print by done.
    pose proof (to_uint_head p) as Hhead.
    rewrite lex_fraction_stop by done. cbv beta iota.
    rewrite lex_exponent_stop by done.
    destruct (Pos.to_uint p); simpl in *; done. }
  destruct z as [|p|p]; unfold lit_of_Z; simpl Number_toString.
  - norm_string. cbn. rewrite lex_digits_stop by done. cbn.
    rewrite lex_fraction_stop by done. cbv beta iota.
    by rewrite lex_exponent_stop.
  - pose proof (to_uint_head p) as Hhead.
    specialize (Hpos p false).
    destruct (Pos.to_uint p) eqn:E; try done; simpl NilEmpty.string_of_uint in *;
      revert Hpos; norm_string; intros Hpos; exact Hpos.
  - norm_string. exact (Hpos p true).
Qed.

(** *** Strings *)

Lemma lex_string_quote_char c r :
  lex_string (quote_char c +:+ r) = cons_units (N_of_ascii c) (lex_string r).
Proof. destruct c as [[] [] [] [] [] [] [] []]; reflexivity. Qed.

Lemma lex_string_quote_body s rest :
  lex_string (quote_body s +:+ String dquote rest) = Some (units_of_string s, rest).
Proof.
  induction s as [|c s IH]; [reflexivity|].
  simpl quote_body. rewrite append_assoc, lex_string_quote_char, IH. reflexivity.
Qed.

Lemma string_of_units_of_string s : string_of_units (units_of_string s) = Some s.
Proof.
  induction s as [|c s IH]; [reflexivity|].
  change (units_of_string (String c s)) with (N_of_ascii c :: units_of_string s).
  simpl string_of_units. rewrite IH, ascii_N_embedding.
  assert ((N_of_ascii c <? 256)%N = true) as ->; [|reflexivity].
  apply N.ltb_lt, N_ascii_bounded.
Qed.

(** *** Tokens *)

Lemma next_token_quoted s rest :
  next_token (QuoteJSONString s +:+ rest) = Some (Some (TString (units_of_string s)), rest).
Proof.
  unfold QuoteJSONString. rewrite append_cons, append_assoc, append_cons, append_nil_l.
  cbn. by rewrite lex_string_quote_body.
Qed.

Lemma next_token_number z rest :
  ends_number rest ->
  next_token (Number_toString z +:+ rest) = Some (Some (TNumber (lit_of_Z z)), rest).
Proof.
  intros Hrest. pose proof (lex_number_print z rest Hrest) as Hnum.
  destruct z as [|p|p]; simpl Number_toString in *.
  - revert Hnum. norm_string. intros Hnum. unfold next_token.
    rewrite Hnum. reflexivity.
  - pose proof (to_uint_head p) as Hhead.
    destruct (Pos.to_uint p) eqn:E; try done; simpl NilEmpty.string_of_uint in *;
      revert Hnum; norm_string; intros Hnum; unfold next_token; rewrite Hnum; reflexivity.
  - revert Hnum. norm_string. intros Hnum. unfold next_token.
    rewrite Hnum. reflexivity.
Qed.

(** *** Fuel of the lexer *)

Lemma lex_digits_shorter s u rest :
  lex_digits s = (u, rest) ->
  (String.length rest <= String.length s)%nat /\
  (u <> Decimal.Nil -> (String.length rest < String.length s)%nat).
Proof.
  revert u rest. induction s as [|c s IH]; intros u rest; simpl.
  - intros [= <- <-]. split; [simpl; lia | done].
  - destruct (digit_of_ascii c) as [d|].
    + destruct (lex_digits s) as [u' rest'] eqn:E. intros [= <- <-].
      destruct (IH _ _ eq_refl) as [Hle _]. simpl. split; lia.
    + intros [= <- <-]. split; [simpl; lia | done].
Qed.

Lemma lex_fraction_shorter s o rest :
  lex_fraction s = Some (o, rest) -> (String.length rest <= String.length s)%nat.
Proof.
  unfold lex_fraction. destruct s as [|c s]; [by intros [= <- <-]|].
  destruct (ascii_dec c ".") as [->|Hc].
  - destruct (lex_digits s) as [u r] eqn:E.
    apply lex_digits_shorter in E as [Hle _].
    destruct u; intros [= <- <-]; simpl; lia.
  - assert (forall X : option (option Decimal.uint * string),
      match c with "."%char => X | _ => Some (None, String c s) end = Some (None, String c s)) as ->.
    { intros X. destruct c as [[] [] [] [] [] [] [] []]; try reflexivity. by destruct Hc. }
    by intros [= <- <-].
Qed.

Lemma lex_exponent_digits_shorter neg s o rest :
  lex_exponent_digits neg s = Some (o, rest) -> (String.length rest <= String.length s)%nat.
Proof.
  unfold lex_exponent_digits. destruct (lex_digits s) as [u r] eqn:E.
  apply lex_digits_shorter in E as [Hle _].
  destruct u; intros [= <- <-]; lia.
Qed.

Lemma lex_exponent_shorter s o rest :
  lex_exponent s = Some (o, rest) -> (String.length rest <= String.length s)%nat.
Proof.
  unfold lex_exponent. destruct s as [|c s]; [by intros [= <- <-]|].
  destruct ((c =? "e")%char || (c =? "E")%char); [|by intros [= <- <-]].
  destruct s as [|c' s'].
  - intros H%lex_exponent_digits_shorter. simpl in *. lia.
  - destruct (ascii_dec c' "+") as [->|Hp]; [|destruct (ascii_dec c' "-") as [->|Hm]].
    + intros H%lex_exponent_digits_shorter. simpl in *. lia.
    + intros H%lex_exponent_digits_shorter. simpl in *. lia.
    + assert (forall X Y Z : option (option (bool * Decimal.uint) * string),
        match c' with "+"%char => X | "-"%char => Y | _ => Z end = Z) as ->.
      { intros X Y Z. destruct c' as [[] [] [] [] [] [] [] []]; try reflexivity;
          by (destruct Hp || destruct Hm). }
      intros H%lex_exponent_digits_shorter. simpl in *. lia.
Qed.

Lemma lex_number_shorter s n rest :
  lex_number s = Some (n, rest) -> (String.length rest < String.length s)%nat.
Proof.
  unfold lex_number.
  set (sign := match s with String "-"%char r => (true, r) | _ => (false, s) end).
  assert (String.length sign.2 <= String.length s)%nat as Hsign.
  { subst sign. destruct s as [|c r]; [done|].
    destruct c as [[] [] [] [] [] [] [] []]; simpl; lia. }
  destruct sign as [neg s1]. simpl in Hsign.
  destruct (lex_digits s1) as [int s2] eqn:E.
  apply lex_digits_shorter in E as [_ Hlt].
  intros H.
  assert (int <> Decimal.Nil) as Hint by (intros ->; discriminate).
  specialize (Hlt Hint).
  assert (match lex_fraction s2 with
          | None => None
          | Some (frac, s3) =>
              match lex_exponent s3 with
              | None => None
              | Some (exp, s4) => Some (mkNumberLit neg int frac exp, s4)
              end
          end = Some (n, rest)) as Hin.
  { destruct int as [|[]| | | | | | | | |]; done. }
  destruct (lex_fraction s2) as [[frac s3]|] eqn:Hf; [|done].
  destruct (lex_exponent s3) as [[exp s4]|] eqn:He; [|done].
  injection Hin as <- <-.
  apply lex_fraction_shorter in Hf. apply lex_exponent_shorter in He. lia.
Qed.

Lemma cons_units_Some u r us rest :
  cons_units u r = Some (us, rest) -> exists us', r = Some (us', rest).
Proof. destruct r as [[us' rest']|]; simpl; [|done]. intros [= <- <-]. eauto. Qed.

Lemma lex_string_shorter s us rest :
  lex_string s = Some (us, rest) -> (String.length rest < String.length s)%nat.
Proof.
  remember (String.length s) as n eqn:Hn.
  revert s us rest Hn. induction (lt_wf n) as [n _ IH]. intros s us rest -> H.
  destruct s as [|c r]; [done|]. simpl in H.
  destruct (c =? dquote)%char; [injection H as <- <-; simpl; lia|].
  destruct (c =? backslash)%char.
  - destruct r as [|e r']; [done|].
    destruct (e =? "u")%char.
    + destruct r' as [|h1 [|h2 [|h3 [|h4 r'']]]]; try done.
      destruct (hex4 h1 h2 h3 h4); [|done].
      apply cons_units_Some in H as [us' H].
      eapply IH in H; [| |reflexivity]; simpl in *; lia.
    + destruct (unescape e); [|done].
      apply cons_units_Some in H as [us' H].
      eapply IH in H; [| |reflexivity]; simpl in *; lia.
  - destruct (N_of_ascii c <? 32)%N; [done|].
    apply cons_units_Some in H as [us' H].
    eapply IH in H; [| |reflexivity]; simpl in *; lia.
Qed.

Lemma strip_literal_shorter p s rest :
  strip_literal p s = Some rest -> (String.length rest <= String.length s)%nat.
Proof.
  revert s. induction p as [|a p IH]; intros s; simpl.
  - by intros [= ->].
  - destruct s as [|b s]; [done|]. destruct (a =? b)%char; [|done].
    intros H%IH. simpl. lia.
Qed.

Lemma next_token_shorter s o rest :
  next_token s = Some (o, rest) -> (String.length rest < String.length s)%nat.
Proof.
  destruct s as [|c r]; [done|]. unfold next_token.
  repeat match goal with
         | |- (if ?b then _ else _) = _ -> _ => destruct b; [by intros [= <- <-]; simpl; lia|]
         end.
  destruct (c =? dquote)%char.
  { destruct (lex_string r) as [[us rest']|] eqn:E; [|done].
    intros [= <- <-]. apply lex_string_shorter in E. simpl. lia. }
  repeat match goal with
         | |- (if ?b then match strip_literal ?p r with _ => _ end else _) = _ -> _ =>
             destruct b;
             [destruct (strip_literal p r) as [rest'|] eqn:E; [|done];
              intros [= <- <-]; apply strip_literal_shorter in E; simpl; lia|]
         end.
  destruct (lex_number (String c r)) as [[n rest']|] eqn:E; [|done].
  intros [= <- <-]. by apply lex_number_shorter in E.
Qed.

Lemma lex_mono f f' s toks :
  lex f s = Some toks -> (f <= f')%nat -> lex f' s = Some toks.
Proof.
  revert f' s toks. induction f as [|f IH]; intros f' s toks H Hle.
  - destruct s; [|done]. by destruct f'.
  - destruct s as [|c r]; [by destruct f'|].
    destruct f' as [|f']; [lia|].
    cbn [lex] in *. destruct (next_token (String c r)) as [[[t|] rest]|]; [| |done].
    + destruct (lex f rest) as [ts|] eqn:E; [|done].
      rewrite (IH f' rest ts) by (done || lia). done.
    + apply IH; [done | lia].
Qed.

(** Fuel equal to the length of the text is never exhausted. *)
Lemma lex_fuel f s toks :
  lex f s = Some toks -> tokenize s = Some toks.
Proof.
  unfold tokenize. revert s toks. induction f as [|f IH]; intros s toks H.
  - by destruct s.
  - destruct s as [|c r]; [done|].
    cbn [lex] in H. change (lex (String.length (String c r)) (String c r))
      with (match next_token (String c r) with
            | Some (Some t, rest) => cons_token t (lex (String.length r) rest)
            | Some (None, rest) => lex (String.length r) rest
            | None => None
            end).
    destruct (next_token (String c r)) as [[[t|] rest]|] eqn:E; [| |done].
    + apply next_token_shorter in E. simpl in E.
      destruct (lex f rest) as [ts|] eqn:E'; [|done].
      apply IH in E'. rewrite (lex_mono _ (String.length r) _ _ E') by lia. done.
    + apply next_token_shorter in E. simpl in E.
      apply IH in H. apply (lex_mono _ _ _ _ H). lia.
Qed.

Lemma lex_cons f s t rest :
  next_token s = Some (Some t, rest) -> lex (S f) s = cons_token t (lex f rest).
Proof. destruct s; [done|]. cbn [lex]. by intros ->. Qed.

(** *** The text of a serialized queue *)

Lemma stringify_entry e :
  SerializeJSONProperty (LogEntry_value e) = Normal (Some (entry_text e)).
Proof. destruct e as [t m p ts [h|]]; reflexivity. Qed.

Lemma stringify_queue q :
  JSON_stringify (queue_value q) = Normal (Some (queue_text q)).
Proof.
  unfold JSON_stringify, queue_value, queue_text. cbn [SerializeJSONProperty].
  match goal with
  | |- bind_completion ?items _ = _ =>
      assert (items = Normal (map entry_text q)) as ->; [|reflexivity]
  end.
  induction q as [|e q IH]; [reflexivity|].
  cbn [map]. rewrite stringify_entry. cbn [bind_completion]. rewrite IH. reflexivity.
Qed.

Lemma lex_quoted f s rest :
  lex (S f) (QuoteJSONString s +:+ rest) = cons_token (TString (units_of_string s)) (lex f rest).
Proof. apply lex_cons, next_token_quoted. Qed.

Lemma lex_number_text f z rest :
  ends_number rest ->
  lex (S f) (Number_toString z +:+ rest) = cons_token (TNumber (lit_of_Z z)) (lex f rest).
Proof. intros. by apply lex_cons, next_token_number. Qed.

Lemma lex_punct f rest :
  lex (S f) (String "{" rest) = cons_token TLBrace (lex f rest) /\
  lex (S f) (String "}" rest) = cons_token TRBrace (lex f rest) /\
  lex (S f) (String "[" rest) = cons_token TLBracket (lex f rest) /\
  lex (S f) (String "]" rest) = cons_token TRBracket (lex f rest) /\
  lex (S f) (String ":" rest) = cons_token TColon (lex f rest) /\
  lex (S f) (String "," rest) = cons_token TComma (lex f rest).
Proof. repeat split. Qed.

Ltac lex_step :=
  first
    [ rewrite lex_quoted
    | rewrite lex_number_text by (simpl; repeat split; done)
    | rewrite (proj1 (lex_punct _ _))
    | rewrite (proj1 (proj2 (lex_punct _ _)))
    | rewrite (proj1 (proj2 (proj2 (lex_punct _ _))))
    | rewrite (proj1 (proj2 (proj2 (proj2 (lex_punct _ _)))))
    | rewrite (proj1 (proj2 (proj2 (proj2 (proj2 (lex_punct _ _))))))
    | rewrite (proj2 (proj2 (proj2 (proj2 (proj2 (lex_punct _ _)))))) ].

Lemma lex_entry f e rest toks :
  lex f rest = Some toks ->
  lex (length (entry_tokens e) + f) (entry_text e +:+ rest) = Some (entry_tokens e ++ toks).
Proof.
  intros Hrest. destruct e as [t m p ts [h|]];
    unfold entry_text, entry_members, entry_tokens, member_text; cbn [hash type message params timestamp app join length Nat.add];
    norm_string; repeat lex_step; rewrite Hrest; reflexivity.
Qed.

Lemma tokenize_entry_text e rest toks :
  (exists f, lex f rest = Some toks) ->
  exists f, lex f (entry_text e +:+ rest) = Some (entry_tokens e ++ toks).
Proof. intros [f Hf]. eexists. by apply lex_entry. Qed.

Lemma tokenize_elements q rest toks :
  q <> [] ->
  (exists f, lex f rest = Some toks) ->
  exists f, lex f (join "," (map entry_text q) +:+ rest) = Some (elements_tokens q ++ toks).
Proof.
  induction q as [|e q IH]; [done|]. intros _ Hrest.
  destruct q as [|e' q].
  - by apply tokenize_entry_text.
  - change (join "," (map entry_text (e :: e' :: q)))
      with (entry_text e +:+ "," +:+ join "," (map entry_text (e' :: q))).
    change (elements_tokens (e :: e' :: q))
      with (entry_tokens e ++ TComma :: elements_tokens (e' :: q)).
    rewrite !append_assoc, <- app_assoc. apply tokenize_entry_text.
    destruct (IH ltac:(done) Hrest) as [f Hf].
    exists (S f). norm_string. rewrite (proj2 (proj2 (proj2 (proj2 (proj2 (lex_punct _ _)))))).
    rewrite Hf. reflexivity.
Qed.

Lemma tokenize_queue_text q : tokenize (queue_text q) = Some (queue_tokens q).
Proof.
  destruct (decide (q = [])) as [->|Hq]; [reflexivity|].
  destruct (tokenize_elements q "]" [TRBracket] Hq) as [f Hf]; [by exists 1%nat|].
  apply (lex_fuel (S f)). unfold queue_text, queue_tokens. norm_string.
  rewrite (proj1 (proj2 (proj2 (lex_punct _ _)))), Hf. reflexivity.
Qed.

(** *** The parse tree of a serialized queue *)

Lemma parse_entry f e rest :
  (7 <= f)%nat ->
  parse_value f (entry_tokens e ++ rest) = Some (entry_json e, rest).
Proof.
  intros Hf. do 7 (destruct f as [|f]; [lia|]).
  destruct e as [t m p ts [h|]]; reflexivity.
Qed.

Lemma parse_elements_queue f q rest :
  q <> [] ->
  (8 + length q <= f)%nat ->
  parse_elements f (elements_tokens q ++ TRBracket :: rest) = Some (map entry_json q, rest).
Proof.
  revert f. induction q as [|e q IH]; [done|]. intros f _ Hf.
  destruct f as [|f]; [simpl in Hf; lia|].
  destruct q as [|e' q].
  - cbn [parse_elements elements_tokens]. rewrite parse_entry by (simpl in Hf; lia). reflexivity.
  - change (elements_tokens (e :: e' :: q))
      with (entry_tokens e ++ TComma :: elements_tokens (e' :: q)).
    rewrite <- app_assoc. cbn [parse_elements].
    rewrite parse_entry by (simpl in Hf; lia).
    cbn [app]. rewrite IH by (done || simpl in *; lia). reflexivity.
Qed.

Lemma entry_tokens_length e : (17 <= length (entry_tokens e))%nat.
Proof. destruct e as [t m p ts [h|]]; simpl; lia. Qed.

Lemma elements_tokens_length q : (17 * length q <= length (elements_tokens q))%nat.
Proof.
  induction q as [|e q IH]; [simpl; lia|].
  pose proof (entry_tokens_length e).
  destruct q as [|e' q]; [simpl in *; lia|].
  change (elements_tokens (e :: e' :: q))
    with (entry_tokens e ++ TComma :: elements_tokens (e' :: q)).
  rewrite length_app. simpl in *. lia.
Qed.

Lemma parse_value_array f r :
  match r with TRBracket :: _ => False | _ => True end ->
  parse_value (S f) (TLBracket :: r)
  = match parse_elements f r with
    | Some (vs, r') => Some (JArray vs, r')
    | None => None
    end.
Proof. destruct r as [|[] r]; done. Qed.

Lemma parse_queue_tokens q :
  parse_value (2 * length (queue_tokens q) + 2) (queue_tokens q)
  = Some (JArray (map entry_json q), []).
Proof.
  destruct (decide (q = [])) as [->|Hq]; [reflexivity|].
  pose proof (elements_tokens_length q) as Hlen.
  unfold queue_tokens.
  assert (exists f, (2 * length (TLBracket :: elements_tokens q ++ [TRBracket]) + 2 = S f
                     /\ 8 + length q <= f)%nat) as (f & -> & Hf).
  { eexists; split; [simpl; reflexivity|].
    rewrite length_app. simpl. destruct q; [done|]. simpl in *. lia. }
  assert (exists t ts, elements_tokens q = TLBrace :: t :: ts) as (t & ts & Hhead).
  { destruct q as [|e [|e' q]]; [done|..].
    - destruct e as [? ? ? ? [h|]]; simpl; eauto.
    - destruct e as [? ? ? ? [h|]]; simpl; eauto. }
  rewrite parse_value_array by (by rewrite Hhead).
  rewrite parse_elements_queue by done. reflexivity.
Qed.

Lemma JSON_parse_queue_text q :
  JSON_parse (queue_text q) = Some (JArray (map entry_json q)).
Proof.
  unfold JSON_parse. rewrite tokenize_queue_text, parse_queue_tokens. reflexivity.
Qed.

(** *** Back to typed entries *)

Lemma LogType_of_tag_type_tag t : LogType_of_tag (type_tag t) = Some t.
Proof. by destruct t. Qed.

Lemma time_value_safe z : time_value z -> safe_integer z = true.
Proof.
  unfold time_value, safe_integer, MAX_SAFE_INTEGER. intros [? ?].
  apply andb_true_iff. split; apply Z.leb_le; lia.
Qed.

Lemma integer_of_lit_of_Z z : safe_integer z = true -> integer_of_lit (lit_of_Z z) = Some z.
Proof.
  intros Hz. destruct z as [|p|p]; unfold integer_of_lit, lit_of_Z;
    cbn [num_frac num_exp num_neg num_int].
  - reflexivity.
  - change (N.of_uint (Pos.to_uint p)) with (Pos.of_uint (Pos.to_uint p)).
    rewrite DecimalPos.Unsigned.of_to. cbv zeta. cbn [Z.of_N]. by rewrite Hz.
  - change (N.of_uint (Pos.to_uint p)) with (Pos.of_uint (Pos.to_uint p)).
    rewrite DecimalPos.Unsigned.of_to. cbv zeta. cbn [Z.of_N].
    change (- Z.pos p) with (Z.neg p). by rewrite Hz.
Qed.

Lemma as_LogEntry_entry_json e :
  safe_integer (timestamp e) = true -> as_LogEntry (entry_json e) = Some e.
Proof.
  intros Hts. destruct e as [t m p ts [h|]]; unfold entry_json, as_LogEntry;
    cbn [type message params timestamp hash app] in *.
  - change (key_is "type" (units_of_string "type")) with true.
    change (key_is "message" (units_of_string "message")) with true.
    change (key_is "params" (units_of_string "params")) with true.
    change (key_is "timestamp" (units_of_string "timestamp")) with true.
    change (key_is "hash" (units_of_string "hash")) with true.
    cbn [andb]. rewrite !string_of_units_of_string. cbn [mbind option_bind].
    rewrite LogType_of_tag_type_tag. cbn [mbind option_bind].
    rewrite integer_of_lit_of_Z by done. reflexivity.
  - change (key_is "type" (units_of_string "type")) with true.
    change (key_is "message" (units_of_string "message")) with true.
    change (key_is "params" (units_of_string "params")) with true.
    change (key_is "timestamp" (units_of_string "timestamp")) with true.
    cbn [andb]. rewrite !string_of_units_of_string. cbn [mbind option_bind].
    rewrite LogType_of_tag_type_tag. cbn [mbind option_bind].
    rewrite integer_of_lit_of_Z by done. reflexivity.
Qed.

Lemma as_LogEntries_queue q :
  Forall (fun e => safe_integer (timestamp e) = true) q ->
  as_LogEntries (JArray (map entry_json q)) = Some q.
Proof.
  intros Hq. unfold as_LogEntries. apply mapM_Some_2.
  induction Hq as [|e q He Hq IH]; constructor; [by apply as_LogEntry_entry_json | done].
Qed.

(** Serialization followed by parsing and the cast is the identity. *)
Lemma JSON_parse_LogEntries_stringify q text :
  Forall wf_entry q ->
  JSON_stringify (queue_value q) = Normal (Some text) ->
  JSON_parse_LogEntries text = ret q.
Proof.
  intros Hq. rewrite stringify_queue. intros [= <-].
  unfold JSON_parse_LogEntries. rewrite JSON_parse_queue_text, as_LogEntries_queue; [done|].
  eapply Forall_impl; [exact Hq|]. intros e [Ht _]. by apply time_value_safe.
Qed.

(** *** Fuel of the parser *)

Lemma parse_fuel_bound m :
  fuel_bound parse_value m /\ fuel_bound parse_elements m /\ fuel_bound parse_members m.
Proof.
  induction m as [|m (IHv & IHe & IHm)]; [by split_and!|].
  split_and!.
  - intros ts a r H. cbn [parse_value] in H.
    destruct ts as [|t ts]; [done|].
    destruct t; try done;
      try (injection H as <- <-; split; [simpl; lia|];
           intros [|k] Hk; [simpl in Hk; lia | reflexivity]).
    + (* [ *)
      destruct ts as [|t' ts'].
      { destruct (parse_elements m []) as [[vs r']|] eqn:E; [|done].
        apply IHe in E as [E _]. simpl in E. lia. }
      assert (t' = TRBracket /\ a = JArray [] /\ r = ts' \/
              t' <> TRBracket /\
              exists vs, parse_elements m (t' :: ts') = Some (vs, r) /\ a = JArray vs)
        as [(-> & -> & ->) | (Ht' & vs & E & ->)].
      { destruct t'; try (right; split; [done|];
          destruct (parse_elements m _) as [[vs r']|]; [|done];
          injection H as <- <-; by eexists).
        left. by injection H as <- <-. }
      * split; [simpl; lia|]. intros [|k] Hk; [simpl in Hk; lia | reflexivity].
      * apply IHe in E as [Hlen Hfuel]. split; [simpl in *; lia|].
        intros [|k] Hk; [simpl in *; lia|].
        cbn [parse_value]. rewrite Hfuel by (simpl in *; lia).
        by destruct t'.
    + (* { *)
      destruct ts as [|t' ts'].
      { destruct (parse_members m []) as [[vs r']|] eqn:E; [|done].
        apply IHm in E as [E _]. simpl in E. lia. }
      assert (t' = TRBrace /\ a = JObject [] /\ r = ts' \/
              t' <> TRBrace /\
              exists ms, parse_members m (t' :: ts') = Some (ms, r) /\ a = JObject ms)
        as [(-> & -> & ->) | (Ht' & ms & E & ->)].
      { destruct t'; try (right; split; [done|];
          destruct (parse_members m _) as [[ms r']|]; [|done];
          injection H as <- <-; by eexists).
        left. by injection H as <- <-. }
      * split; [simpl; lia|]. intros [|k] Hk; [simpl in Hk; lia | reflexivity].
      * apply IHm in E as [Hlen Hfuel]. split; [simpl in *; lia|].
        intros [|k] Hk; [simpl in *; lia|].
        cbn [parse_value]. rewrite Hfuel by (simpl in *; lia).
        by destruct t'.
  - intros ts a r H. cbn [parse_elements] in H.
    destruct (parse_value m ts) as [[v [|t rest]]|] eqn:Ev; try done.
    apply IHv in Ev as [Hlen Hfuel].
    destruct t; try done.
    + injection H as <- <-. split; [simpl in *; lia|].
      intros [|k] Hk; [simpl in *; lia|].
      cbn [parse_elements]. by rewrite Hfuel by (simpl in *; lia).
    + destruct (parse_elements m rest) as [[vs r']|] eqn:Ee; [|done].
      injection H as <- <-. apply IHe in Ee as [Hlen' Hfuel'].
      split; [simpl in *; lia|].
      intros [|k] Hk; [simpl in *; lia|].
      cbn [parse_elements]. rewrite Hfuel by (simpl in *; lia).
      by rewrite Hfuel' by (simpl in *; lia).
  - intros ts a r H. cbn [parse_members] in H.
    destruct ts as [|[] [|[] ts]]; try done.
    destruct (parse_value m ts) as [[v [|t rest]]|] eqn:Ev; try done.
    apply IHv in Ev as [Hlen Hfuel].
    destruct t; try done.
    + injection H as <- <-. split; [simpl in *; lia|].
      intros [|k] Hk; [simpl in *; lia|].
      cbn [parse_members]. by rewrite Hfuel by (simpl in *; lia).
    + destruct (parse_members m rest) as [[ms r']|] eqn:Em; [|done].
      injection H as <- <-. apply IHm in Em as [Hlen' Hfuel'].
      split; [simpl in *; lia|].
      intros [|k] Hk; [simpl in *; lia|].
      cbn [parse_members]. rewrite Hfuel by (simpl in *; lia).
      by rewrite Hfuel' by (simpl in *; lia).
Qed.

(** The fuel [JSON_parse] gives the parser is never exhausted: whatever any
    amount of fuel parses, [JSON_parse] parses. *)
Lemma JSON_parse_fuel text ts m v :
  tokenize text = Some ts -> parse_value m ts = Some (v, []) -> JSON_parse text = Some v.
Proof.
  intros Hts Hv. unfold JSON_parse. rewrite Hts.
  destruct (parse_fuel_bound m) as (Hb & _ & _).
  destruct (Hb ts v [] Hv) as [_ Hfuel]. rewrite Hfuel; [done|]. simpl. lia.
Qed.

(** ** Delivery to the remote service *)

Lemma set_crashlytics_id s : set_crashlytics (crashlytics s) s = s.
Proof. by destruct s. Qed.

Lemma for_of_calls env calls s :
  for_of calls (crashlytics_call env) s
  = Some (if remote_accepts env (crashlytics s) calls then Normal tt else Throw rejected,
          set_crashlytics (crashlytics s ++ accepted_prefix env (crashlytics s) calls) s).
Proof.
  revert s. induction calls as [|c calls IH]; intros s.
  - cbn. by rewrite app_nil_r, set_crashlytics_id.
  - cbn [for_of remote_accepts accepted_prefix]. unfold bind at 1, crashlytics_call at 1.
    destruct (remote_ok env (crashlytics s) c) eqn:Hc; cbn [andb].
    + rewrite IH. cbn. by rewrite <- app_assoc.
    + by rewrite app_nil_r, set_crashlytics_id.
Qed.

Lemma for_of_app {A} (l1 l2 : list A) (body : A -> M unit) s :
  (for_of l1 body >> for_of l2 body) s = for_of (l1 ++ l2) body s.
Proof.
  revert s. induction l1 as [|x l1 IH]; intros s; [reflexivity|].
  cbn [for_of app]. unfold bind.
  destruct (body x s) as [[[[]|e] s']|]; [|done..].
  rewrite <- IH. reflexivity.
Qed.

Lemma for_of_flat_map {A} (l : list A) (g : A -> list RemoteCall) env s :
  for_of l (fun x => for_of (g x) (crashlytics_call env)) s
  = for_of (flat_map g l) (crashlytics_call env) s.
Proof.
  revert s. induction l as [|x l IH]; intros s; [reflexivity|].
  cbn [for_of flat_map]. rewrite <- for_of_app. unfold bind.
  destruct (for_of (g x) (crashlytics_call env) s) as [[[[]|e] s']|]; [|done..].
  apply IH.
Qed.

Lemma bind_ext {A B} (m : M A) (k1 k2 : A -> M B) s :
  (forall a s', k1 a s' = k2 a s') -> bind m k1 s = bind m k2 s.
Proof. intros H. unfold bind. destruct (m s) as [[[a|e] s']|]; auto. Qed.

Lemma for_of_ext {A} (l : list A) (f g : A -> M unit) s :
  (forall x s', f x s' = g x s') -> for_of l f s = for_of l g s.
Proof.
  intros H. revert s. induction l as [|x l IH]; intros s; [reflexivity|].
  cbn [for_of]. unfold bind. rewrite H. destruct (g x s) as [[[[]|e] s']|]; auto.
Qed.

(** The two delivery loops of [flushLogs] make the calls of [delivery_plan]. *)
Lemma flush_loops env q s :
  (for_of (filter (fun entry => type entry <> Error) q) (fun entry =>
     crashlytics_call env (CrashlyticsLog (normal_line entry))) >>
   for_of (filter (fun entry => type entry = Error) q) (fun entry =>
     crashlytics_call env (CrashlyticsLog (error_line entry)) >>
     crashlytics_call env (RecordError (error_description entry)))) s
  = for_of (delivery_plan q) (crashlytics_call env) s.
Proof.
  unfold delivery_plan. rewrite <- for_of_app.
  assert (forall s', for_of (filter (fun entry => type entry <> Error) q) (fun entry =>
            crashlytics_call env (CrashlyticsLog (normal_line entry))) s'
          = for_of (flat_map (fun entry => [CrashlyticsLog (normal_line entry)])
                      (filter (fun entry => type entry <> Error) q)) (crashlytics_call env) s') as H1.
  { intros s'. rewrite <- for_of_flat_map. apply for_of_ext. intros e s''.
    cbn [for_of]. unfold bind.
    destruct (crashlytics_call env (CrashlyticsLog (normal_line e)) s'') as [[[[]|?] s3]|]; done. }
  assert (forall s', for_of (filter (fun entry => type entry = Error) q) (fun entry =>
            crashlytics_call env (CrashlyticsLog (error_line entry)) >>
            crashlytics_call env (RecordError (error_description entry))) s'
          = for_of (flat_map (fun entry => [CrashlyticsLog (error_line entry);
                                            RecordError (message entry +:+ " " +:+ params entry)])
                      (filter (fun entry => type entry = Error) q)) (crashlytics_call env) s') as H2.
  { intros s'. rewrite <- for_of_flat_map. apply for_of_ext. intros e s''.
    cbn [for_of]. unfold bind, error_description.
    destruct (crashlytics_call env (CrashlyticsLog (error_line e)) s'') as [[[[]|?] s3]|]; [|done..].
    destruct (crashlytics_call env _ s3) as [[[[]|?] s4]|]; done. }
  unfold bind. rewrite H1.
  destruct (for_of _ (crashlytics_call env) s) as [[[[]|?] s3]|]; [|done..].
  apply H2.
Qed.

(** ** What each method does to the state *)

Lemma saveQueue_spec env s : saveQueue env s = Some (Normal tt, saved env s).
Proof.
  unfold saveQueue, saved, try_catch, bind, gets. rewrite stringify_queue.
  cbn [lift ret]. unfold storage_set.
  destruct (storage_set_ok env QUEUE_KEY (queue_text (logQueue s))); reflexivity.
Qed.

Lemma bind_assoc {A B C} (m : M A) (k1 : A -> M B) (k2 : B -> M C) s :
  bind (bind m k1) k2 s = bind m (fun a => bind (k1 a) k2) s.
Proof. unfold bind. by destruct (m s) as [[[a|e] s']|]. Qed.

Lemma bind_congr_l {A B} (m1 m2 : M A) (k : A -> M B) s :
  (forall s', m1 s' = m2 s') -> bind m1 k s = bind m2 k s.
Proof. intros H. unfold bind. by rewrite H. Qed.

Lemma flushLogs_spec env s : flushLogs env s = Some (Normal tt, flushed env s).
Proof.
  unfold flushLogs, flushed. unfold bind at 1, gets at 1.
  destruct (logQueue s) as [|e q] eqn:Hq; [reflexivity|].
  cbn [length Nat.eqb]. unfold bind at 1, console_log at 1, console_write at 1, modify at 1.
  unfold try_catch. unfold bind at 1, gets at 1.
  cbn [logQueue set_console]. rewrite Hq.
  match goal with
  | |- context [bind (for_of ?l1 ?b1) (fun _ => bind (for_of ?l2 ?b2) ?k)] =>
      assert (forall s0, bind (for_of l1 b1) (fun _ => bind (for_of l2 b2) k) s0
                       = bind (fun s' => for_of (delivery_plan (e :: q)) (crashlytics_call env) s') k s0) as ->
  end.
  { intros s0. rewrite <- bind_assoc. apply bind_congr_l. intros s'. apply flush_loops. }
  unfold bind at 1. rewrite for_of_calls. cbn [crashlytics set_console].
  destruct (remote_accepts env (crashlytics s) (delivery_plan (e :: q))); [|reflexivity].
  unfold bind, modify. rewrite saveQueue_spec. reflexivity.
Qed.

Lemma queueLog_spec env t m p s :
  queueLog env t m p s = Some (Normal tt, queued env t m p s).
Proof.
  unfold queueLog, queued, push_and_save. destruct t.
  - unfold bind, modify. by rewrite saveQueue_spec.
  - unfold bind at 1, gets at 1.
    destruct (bool_decide (generateErrorHash m p ∈ errorHashes s)); [reflexivity|].
    unfold bind, modify. by rewrite saveQueue_spec.
  - unfold bind, modify. by rewrite saveQueue_spec.
Qed.

Lemma formatParams_spec ps s :
  formatParams ps s = Some (Normal (formatted ps), format_logged ps s).
Proof.
  unfold formatParams, formatted, format_logged.
  destruct ps as [|x ps]; [reflexivity|]. cbn [length Nat.eqb].
  unfold try_catch, bind. destruct (map_params (x :: ps)); reflexivity.
Qed.

Lemma log_spec env m ps s :
  log env m ps s
  = Some (Normal tt,
          queued env Log ("[LOG] " +:+ m) (formatted ps)
            (format_logged ps (with_console ConsoleLog ("[LOG] " +:+ m) (map ArgValue ps) s))).
Proof.
  unfold log, try_catch. unfold bind at 1, console_write, modify.
  unfold bind. rewrite formatParams_spec, queueLog_spec. reflexivity.
Qed.

Lemma warn_spec env m ps s :
  warn env m ps s
  = Some (Normal tt,
          queued env Warn ("[WARN] " +:+ m) (formatted ps)
            (format_logged ps (with_console ConsoleWarn ("[WARN] " +:+ m) (map ArgValue ps) s))).
Proof.
  unfold warn, try_catch. unfold bind at 1, console_write, modify.
  unfold bind. rewrite formatParams_spec, queueLog_spec. reflexivity.
Qed.

Lemma error_spec env m ps s :
  error env m ps s
  = Some (Normal tt,
          queued env Error ("[ERROR] " +:+ m) (formatted ps)
            (format_logged ps (with_console ConsoleError ("[ERROR] " +:+ m) (map ArgValue ps) s))).
Proof.
  unfold error, try_catch. unfold bind at 1, console_write, modify.
  unfold bind. rewrite formatParams_spec, queueLog_spec. reflexivity.
Qed.

Lemma set_errorHashes_id s : set_errorHashes (errorHashes s) s = s.
Proof. by destruct s. Qed.

Lemma set_errorHashes_twice h1 h2 s :
  set_errorHashes h1 (set_errorHashes h2 s) = set_errorHashes h1 s.
Proof. reflexivity. Qed.

Lemma restored_hashes_cons e q :
  restored_hashes (e :: q)
  = if is_error e && truthy (hash e)
    then {[default "" (hash e)]} ∪ restored_hashes q
    else restored_hashes q.
Proof.
  unfold restored_hashes. simpl.
  destruct (is_error e && truthy (hash e)) eqn:He; [|reflexivity].
  apply andb_true_iff in He as [_ Hh]. by destruct (hash e).
Qed.

Lemma restore_loop q s :
  for_of q (fun entry =>
    if is_error entry && truthy (hash entry)
    then modify (fun s => set_errorHashes ({[default "" (hash entry)]} ∪ errorHashes s) s)
    else ret tt) s
  = Some (Normal tt, set_errorHashes (restored_hashes q ∪ errorHashes s) s).
Proof.
  revert s. induction q as [|e q IH]; intros s.
  - cbn [for_of]. unfold ret, restored_hashes. cbn [omap list_omap list_to_set].
    by rewrite (left_id_L ∅ (∪)), set_errorHashes_id.
  - cbn [for_of]. unfold bind. rewrite restored_hashes_cons.
    destruct (is_error e && truthy (hash e)) eqn:He.
    + unfold modify. rewrite IH. cbn [errorHashes set_errorHashes].
      do 2 f_equal. unfold set_errorHashes. cbn. f_equal.
      by rewrite (assoc_L (∪)), (comm_L (∪) (restored_hashes q)).
    + unfold ret. rewrite IH. reflexivity.
Qed.

Lemma restoreQueue_spec env s : restoreQueue env s = completed (restored env s).
Proof.
  unfold restoreQueue, restored, try_catch. unfold bind at 1, storage_getString.
  destruct (storage_get_ok env QUEUE_KEY); [|reflexivity].
  destruct (truthy (storage s !! QUEUE_KEY)); [|reflexivity].
  unfold bind at 1, JSON_parse_LogEntries.
  destruct (JSON_parse (default "" (storage s !! QUEUE_KEY))) as [j|]; [|reflexivity].
  destruct (as_LogEntries j) as [q|]; [|reflexivity].
  unfold ret at 1. unfold bind at 1, modify at 1. unfold bind at 1.
  rewrite restore_loop. reflexivity.
Qed.

Lemma startFlushTimer_spec s : startFlushTimer s = Some (Normal tt, timer_started s).
Proof.
  unfold startFlushTimer, timer_started. unfold bind at 1, gets.
  destruct s as [q [t|] hs st cs out ts next]; reflexivity.
Qed.

Lemma init_spec env s : init env s = completed (initialized env s).
Proof.
  unfold init, initialized, setup_calls, try_catch.
  unfold bind at 1, crashlytics_call at 1.
  destruct (remote_ok env (crashlytics s) _) eqn:H1; [|reflexivity].
  unfold bind at 1, console_log at 1, console_write at 1, modify at 1.
  unfold bind at 1, getItem at 1. unfold bind at 1, storage_getString at 1.
  destruct (storage_get_ok env "userID") eqn:Hget; [|reflexivity].
  unfold ret at 1. cbn [storage set_console set_crashlytics crashlytics with_console].
  cbn [remote_accepts accepted_prefix].
  replace (match storage s !! "userID" with Some v => Some v | None => None end)
    with (storage s !! "userID") by (by destruct (storage s !! "userID")).
  unfold bind at 1, crashlytics_call at 1. cbn [crashlytics set_console set_crashlytics].
  destruct (remote_ok env _ (SetUserId _)) eqn:H2; cbn [andb];
    [|rewrite ?app_nil_r; reflexivity].
  unfold bind at 1, crashlytics_call at 1. cbn [crashlytics set_console set_crashlytics].
  destruct (remote_ok env _ (SetAttribute "environment" _)) eqn:H3; cbn [andb];
    [|rewrite <- ?app_assoc, ?app_nil_r; reflexivity].
  unfold bind at 1, crashlytics_call at 1. cbn [crashlytics set_console set_crashlytics].
  destruct (remote_ok env _ (SetAttribute "platform" _)) eqn:H4; cbn [andb];
    [|rewrite <- ?app_assoc, ?app_nil_r; reflexivity].
  unfold bind at 1, crashlytics_call at 1. cbn [crashlytics set_console set_crashlytics].
  destruct (remote_ok env _ (SetAttribute "app_version" _)) eqn:H5; cbn [andb];
    [|rewrite <- ?app_assoc, ?app_nil_r; reflexivity].
  unfold bind. rewrite restoreQueue_spec.
  rewrite <- !app_assoc. cbn [app].
  unfold with_console, set_crashlytics, set_console.
  cbn [logQueue timerHandle errorHashes storage crashlytics console intervals next_interval].
  match goal with |- context [restored env ?st] => destruct (restored env st) as [s'|] end;
    [|reflexivity].
  cbn [completed fmap option_fmap option_map]. by rewrite startFlushTimer_spec.
Qed.

Lemma constructor_spec env s : constructor env s = completed (initialized env (fresh s)).
Proof. unfold constructor, bind, modify. apply init_spec. Qed.

(** ** The invariant *)

Lemma error_hashes_nil : error_hashes [] = ∅.
Proof. reflexivity. Qed.

Lemma error_hashes_app q1 q2 : error_hashes (q1 ++ q2) = error_hashes q1 ∪ error_hashes q2.
Proof. unfold error_hashes. rewrite omap_app, list_to_set_app_L. reflexivity. Qed.

Lemma error_hashes_error t m p ts h :
  error_hashes [mkLogEntry t m p ts h] = if is_error (mkLogEntry t m p ts h)
                                         then match h with Some x => {[x]} | None => ∅ end
                                         else ∅.
Proof.
  unfold error_hashes. cbn [omap list_omap].
  destruct (is_error _); [|reflexivity]. destruct h; cbn; [|reflexivity].
  apply (right_id_L ∅ (∪)).
Qed.

Lemma generateErrorHash_truthy m p : truthy (Some (generateErrorHash m p)) = true.
Proof. unfold generateErrorHash. destruct m; reflexivity. Qed.

(** On well-formed entries [restoreQueue] rebuilds exactly the fingerprints of
    the error entries. *)
Lemma restored_hashes_wf q : Forall wf_entry q -> restored_hashes q = error_hashes q.
Proof.
  intros Hq. unfold restored_hashes, error_hashes. f_equal.
  induction Hq as [|e q [_ He] Hq IH]; [reflexivity|].
  cbn [omap list_omap]. rewrite <- IH. clear IH.
  destruct e as [t m p ts h]. unfold is_error. cbn [type hash message params] in *.
  destruct t; subst h; rewrite ?generateErrorHash_truthy; reflexivity.
Qed.

Section Invariant.
Variable P : LogEntry -> Prop.

Lemma same_core_invariant s s' :
  same_core s s' -> logger_invariant P s -> logger_invariant P s'.
Proof.
  intros (Hq & Hh & Hst) (Hd & Hwf & HP & Hp).
  unfold logger_invariant, dedupe_invariant, persisted_queue. rewrite Hq, Hh, Hst. done.
Qed.

Lemma saved_invariant env s :
  logger_invariant P s -> logger_invariant P (saved env s).
Proof.
  intros (Hd & Hwf & HP & Hp). unfold saved.
  destruct (storage_set_ok env QUEUE_KEY _); [|by apply (same_core_invariant s)].
  split_and!; try done. intros text. cbn [storage set_storage].
  rewrite lookup_insert_eq. intros [= <-].
  exists (logQueue s). split_and!; try done. apply stringify_queue.
Qed.

Lemma queued_invariant env t m p s :
  valid_env env ->
  (forall h, P (mkLogEntry t m p (now env) h)) ->
  logger_invariant P s -> logger_invariant P (queued env t m p s).
Proof.
  intros Henv HPe (Hd & Hwf & HP & Hp). unfold queued.
  assert (forall e hs,
    wf_entry e -> P e -> hs = errorHashes s ∪ error_hashes [e] ->
    logger_invariant P (saved env (set_logQueue (logQueue s ++ [e]) (set_errorHashes hs s))))
    as Hpush.
  { intros e hs He HPe' ->. apply saved_invariant. split_and!.
    - unfold dedupe_invariant. cbn [errorHashes logQueue set_logQueue set_errorHashes].
      by rewrite error_hashes_app, Hd.
    - apply Forall_app. split; [done | by constructor].
    - apply Forall_app. split; [done | by constructor].
    - done. }
  destruct t.
  - replace (set_logQueue _ s) with
      (set_logQueue (logQueue s ++ [mkLogEntry Log m p (now env) None])
         (set_errorHashes (errorHashes s) s)) by (by destruct s).
    apply Hpush; [by split | done |]. rewrite error_hashes_error. unfold is_error. cbn [type].
    rewrite bool_decide_eq_false_2 by done. by rewrite (right_id_L ∅ (∪)).
  - case_bool_decide as Hin; [by apply (same_core_invariant s)|].
    apply Hpush; [by split | done |]. rewrite error_hashes_error. unfold is_error. cbn [type].
    rewrite bool_decide_eq_true_2 by done. apply (comm_L (∪)).
  - replace (set_logQueue _ s) with
      (set_logQueue (logQueue s ++ [mkLogEntry Warn m p (now env) None])
         (set_errorHashes (errorHashes s) s)) by (by destruct s).
    apply Hpush; [by split | done |]. rewrite error_hashes_error. unfold is_error. cbn [type].
    rewrite bool_decide_eq_false_2 by done. by rewrite (right_id_L ∅ (∪)).
Qed.

Lemma flushed_invariant env s :
  logger_invariant P s -> logger_invariant P (flushed env s).
Proof.
  intros Hinv. unfold flushed. destruct (logQueue s) as [|e q] eqn:Hq; [done|]. cbv zeta.
  destruct (remote_accepts env (crashlytics s) _); [|by apply (same_core_invariant s)].
  eapply same_core_invariant; [|apply saved_invariant]; [done|].
  destruct Hinv as (Hd & Hwf & HP & Hp). split_and!; try done.
Qed.

Lemma restored_invariant env s s' :
  errorHashes s = ∅ ->
  logQueue s = [] ->
  persisted_queue P s ->
  restored env s = Some s' ->
  logger_invariant P s'.
Proof.
  intros Hh Hq Hp. unfold restored.
  assert (logger_invariant P s) as Hinv.
  { split_and!; try done; [|rewrite Hq; constructor..].
    unfold dedupe_invariant. by rewrite Hh, Hq. }
  destruct (storage_get_ok env QUEUE_KEY);
    [|intros [= <-]; by apply (same_core_invariant s)].
  destruct (truthy (storage s !! QUEUE_KEY)) eqn:Ht; [|by intros [= <-]].
  destruct (storage s !! QUEUE_KEY) as [text|] eqn:Hst; [|done].
  destruct (Hp text Hst) as (q & Hwf & HP & Hser).
  pose proof (f_equal (fun m => m s) (JSON_parse_LogEntries_stringify q text Hwf Hser)) as Hparse.
  cbv beta in Hparse. unfold JSON_parse_LogEntries in Hparse.
  change (default "" (Some text)) with text.
  destruct (JSON_parse text) as [j|]; [|done].
  destruct (as_LogEntries j) as [q'|]; [|done].
  assert (q' = q) as -> by (by injection Hparse).
  intros [= Hs']. subst s'. split_and!; try done.
  unfold dedupe_invariant. cbn [errorHashes logQueue set_errorHashes set_logQueue with_console set_console].
  rewrite Hh, (right_id_L ∅ (∪)). by apply restored_hashes_wf.
Qed.

(** On a store the logger wrote, [restoreQueue] stays inside the typed model. *)
Lemma restored_typed env s :
  persisted_queue P s -> is_Some (restored env s).
Proof.
  intros Hp. unfold restored.
  destruct (storage_get_ok env QUEUE_KEY); [|done].
  destruct (truthy (storage s !! QUEUE_KEY)) eqn:Ht; [|done].
  destruct (storage s !! QUEUE_KEY) as [text|] eqn:Hst; [|done].
  destruct (Hp text Hst) as (q & Hwf & HP & Hser).
  pose proof (f_equal (fun m => m s) (JSON_parse_LogEntries_stringify q text Hwf Hser)) as Hparse.
  cbv beta in Hparse. unfold JSON_parse_LogEntries in Hparse.
  change (default "" (Some text)) with text.
  destruct (JSON_parse text) as [j|]; [|done].
  by destruct (as_LogEntries j) as [q'|].
Qed.
End Invariant.

Lemma step_spec env op s : step env op s = stepped env op s.
Proof.
  unfold step, stepped, run_op. destruct op.
  - rewrite constructor_spec. by destruct (initialized env (fresh s)).
  - by rewrite queueLog_spec.
  - by rewrite log_spec.
  - by rewrite warn_spec.
  - by rewrite error_spec.
  - unfold debug. by destruct (DEV env).
  - unfold forceFlush. by rewrite flushLogs_spec.
  - unfold bind, gets. destruct (timerHandle s) as [t|]; [|done].
    case_bool_decide; [by rewrite flushLogs_spec | done].
Qed.

Lemma tagged_log m p ts h : tagged (mkLogEntry Log ("[LOG] " +:+ m) p ts h).
Proof. by exists m. Qed.

Lemma tagged_warn m p ts h : tagged (mkLogEntry Warn ("[WARN] " +:+ m) p ts h).
Proof. by exists m. Qed.

Lemma tagged_error m p ts h : tagged (mkLogEntry Error ("[ERROR] " +:+ m) p ts h).
Proof. by exists m. Qed.

Section Steps.
Variable P : LogEntry -> Prop.
Hypothesis P_tagged : forall entry, tagged entry -> P entry.

Lemma format_logged_core ps s : same_core s (format_logged ps s).
Proof.
  unfold format_logged. destruct ps; [done|]. by destruct (map_params _).
Qed.

Lemma fresh_invariant s : logger_invariant P s -> logger_invariant P (fresh s).
Proof. intros (_ & _ & _ & Hp). split_and!; try done; constructor. Qed.

Lemma initialized_invariant env s s' :
  logger_invariant P s -> initialized env (fresh s) = Some s' -> logger_invariant P s'.
Proof.
  intros Hinv%fresh_invariant. unfold initialized. cbn [setup_calls]. cbv zeta.
  destruct (remote_ok env _ _); [|intros [= <-]; by apply (same_core_invariant _ (fresh s))].
  destruct (storage_get_ok env "userID");
    [|intros [= <-]; by apply (same_core_invariant _ (fresh s))].
  destruct (remote_accepts env _ _);
    [|intros [= <-]; by apply (same_core_invariant _ (fresh s))].
  match goal with |- context [restored env ?st] => destruct (restored env st) as [s1|] eqn:Hr end;
    [|done].
  intros [= <-]. apply restored_invariant with (P := P) in Hr; [| done..|by destruct Hinv as (_ & _ & _ & ?)].
  by apply (same_core_invariant _ s1).
Qed.

Lemma step_invariant env op s s' :
  valid_env env -> appends P op ->
  logger_invariant P s -> step env op s = Some s' -> logger_invariant P s'.
Proof.
  intros Henv Hop Hinv. rewrite step_spec. destruct op; unfold stepped, appends in *.
  - by apply initialized_invariant.
  - intros Hs; apply (inj Some) in Hs; subst s'. by apply queued_invariant.
  - intros Hs; apply (inj Some) in Hs; subst s'. apply queued_invariant; [done | intros h; apply P_tagged, tagged_log |].
    eapply same_core_invariant; [apply format_logged_core|].
    by apply (same_core_invariant _ s).
  - intros Hs; apply (inj Some) in Hs; subst s'. apply queued_invariant; [done | intros h; apply P_tagged, tagged_warn |].
    eapply same_core_invariant; [apply format_logged_core|].
    by apply (same_core_invariant _ s).
  - intros Hs; apply (inj Some) in Hs; subst s'. apply queued_invariant; [done | intros h; apply P_tagged, tagged_error |].
    eapply same_core_invariant; [apply format_logged_core|].
    by apply (same_core_invariant _ s).
  - intros Hs; apply (inj Some) in Hs; subst s'. destruct (DEV env); [by apply (same_core_invariant _ s) | done].
  - intros Hs; apply (inj Some) in Hs; subst s'. by apply flushed_invariant.
  - intros Hs; apply (inj Some) in Hs; subst s'. destruct (timerHandle s); [|done].
    case_bool_decide; [by apply flushed_invariant | done].
Qed.

Lemma installed_invariant st :
  st !! QUEUE_KEY = None -> logger_invariant P (installed st).
Proof.
  intros Hst. split_and!; try done; try constructor.
  intros text. cbn [storage installed]. by rewrite Hst.
Qed.

Lemma reachable_invariant (allowed : Op -> Prop) s :
  (forall op, allowed op -> appends P op) ->
  reachable_by allowed s -> logger_invariant P s.
Proof.
  intros Hallowed. induction 1 as [st Hst|s env op s' _ IH Hop Henv Hstep].
  - by apply installed_invariant.
  - eapply step_invariant; eauto.
Qed.

(** Under the invariant every operation stays inside the typed model. *)
Lemma step_typed env op s : logger_invariant P s -> is_Some (step env op s).
Proof.
  intros Hinv. rewrite step_spec. destruct op; unfold stepped; try done.
  apply fresh_invariant in Hinv. unfold initialized. cbn [setup_calls]. cbv zeta.
  destruct (remote_ok env _ _); [|done].
  destruct (storage_get_ok env "userID"); [|done].
  destruct (remote_accepts env _ _); [|done].
  match goal with |- context [restored env ?st] =>
    destruct (restored_typed P env st) as [s1 ->]; [|done] end.
  by destruct Hinv as (_ & _ & _ & ?).
Qed.
End Steps.

(** ** Fields after the methods *)

Lemma saved_logQueue env s : logQueue (saved env s) = logQueue s.
Proof. unfold saved. by destruct (storage_set_ok env QUEUE_KEY _). Qed.

Lemma saved_errorHashes env s : errorHashes (saved env s) = errorHashes s.
Proof. unfold saved. by destruct (storage_set_ok env QUEUE_KEY _). Qed.

Lemma saved_crashlytics env s : crashlytics (saved env s) = crashlytics s.
Proof. unfold saved. by destruct (storage_set_ok env QUEUE_KEY _). Qed.

Lemma saved_storage env s :
  storage (saved env s)
  = if storage_set_ok env QUEUE_KEY (queue_text (logQueue s))
    then <[QUEUE_KEY := queue_text (logQueue s)]> (storage s)
    else storage s.
Proof. unfold saved. by destruct (storage_set_ok env QUEUE_KEY _). Qed.

Lemma accepted_prefix_all env history calls :
  remote_accepts env history calls = true -> accepted_prefix env history calls = calls.
Proof.
  revert history. induction calls as [|c calls IH]; intros history; [done|].
  cbn [remote_accepts accepted_prefix]. intros [Hc Hrest]%andb_true_iff.
  rewrite Hc. f_equal. by apply IH.
Qed.

Lemma accepted_prefix_sub env history calls c :
  c ∈ accepted_prefix env history calls -> c ∈ calls.
Proof.
  revert history. induction calls as [|c' calls IH]; intros history; [done|].
  cbn [accepted_prefix]. destruct (remote_ok env history c'); [|by intros ?%elem_of_nil].
  intros [->|Hin]%elem_of_cons; [left | right; by eapply IH].
Qed.

Lemma flushed_crashlytics env s :
  crashlytics (flushed env s)
  = crashlytics s ++ accepted_prefix env (crashlytics s) (delivery_plan (logQueue s)).
Proof.
  unfold flushed. destruct (logQueue s) as [|e q]; [by rewrite app_nil_r|]. cbv zeta.
  destruct (remote_accepts env (crashlytics s) _); [|done].
  cbn [with_console crashlytics set_console]. by rewrite saved_crashlytics.
Qed.

Lemma reachable_logger_invariant s :
  reachable s -> logger_invariant (fun _ => True) s.
Proof. apply reachable_invariant; [done|]. by intros []. Qed.

(** ** Concrete runs *)

Lemma demo_entry_wf : wf_entry demo_entry.
Proof. split; [|reflexivity]. unfold time_value. simpl. lia. Qed.

Lemma demo_env_valid : valid_env demo_env.
Proof. unfold valid_env, time_value. simpl. lia. Qed.

Lemma demo_queued_reachable allowed :
  (forall op, public op -> allowed op) -> reachable_by allowed demo_queued.
Proof.
  intros Hpub.
  apply (reachable_step _ demo_failed demo_env (CallLog "hello" []));
    [|by apply Hpub | apply demo_env_valid | by vm_compute].
  apply (reachable_step _ demo_started demo_env (CallError "boom" [VNumber 3]));
    [|by apply Hpub | apply demo_env_valid | by vm_compute].
  apply (reachable_step _ (installed ∅) demo_env Construct);
    [|by apply Hpub | apply demo_env_valid | by vm_compute].
  by apply reachable_installed.
Qed.

Example demo_queued_queue :
  logQueue demo_queued
  = [mkLogEntry Error "[ERROR] boom" "3" 1700000000000 (Some "[ERROR] boom:3");
     mkLogEntry Log "[LOG] hello" "" 1700000000000 None].
Proof. by vm_compute. Qed.

Example demo_delivery_plan :
  delivery_plan (logQueue demo_queued)
  = [CrashlyticsLog "[LOG] [LOG] hello ";
     CrashlyticsLog "[ERROR] [ERROR] boom 3";
     RecordError "[ERROR] boom 3"].
Proof. by vm_compute. Qed.

Example spec_scenario :
  let s1 := run_ops scenario_env [QueueLog Error "A" "1"; QueueLog Error "A" "1"] (installed ∅) in
  let s2 := run_ops scenario_env [QueueLog Error "B" "2"] s1 in
  let s3 := run_ops scenario_env [ForceFlush] s2 in
  let s4 := run_ops scenario_env [QueueLog Error "A" "1"] s3 in
  length (logQueue s1) = 1%nat /\
  length (logQueue s2) = 2%nat /\
  length (logQueue s3) = 0%nat /\
  errorHashes s3 = ∅ /\
  crashlytics s3 = [CrashlyticsLog "[ERROR] A 1"; RecordError "A 1";
                    CrashlyticsLog "[ERROR] B 2"; RecordError "B 2"] /\
  length (logQueue s4) = 1%nat.
Proof. by vm_compute. Qed.

(** ** Initialization when an identity call fails *)

(** C1, as amended: if the remote service rejects one of the identity and
    attribute calls of [init], the failure is caught and logged on the
    console and [init] returns normally, but the rest of the initialization
    is skipped: the in-memory queue and dedupe set are left as they were (the
    queue is not restored from the store) and no flush timer is started. *)
Theorem init_failure_skips_restore_and_timer env s :
  remote_accepts env (crashlytics s) (setup_calls env s) = false ->
  exists s' e,
    init env s = Some (Normal tt, s') /\
    last (console s') = Some (mkConsoleLine ConsoleError
                                "[Logger] Failed to initialize Crashlytics:" [ArgError e]) /\
    logQueue s' = logQueue s /\ errorHashes s' = errorHashes s /\
    storage s' = storage s /\
    timerHandle s' = timerHandle s /\ intervals s' = intervals s.
Proof.
  intros Hrej. rewrite init_spec. unfold initialized, setup_calls in *.
  change (remote_accepts env (crashlytics s) (?c :: ?cs))
    with (remote_ok env (crashlytics s) c && remote_accepts env (crashlytics s ++ [c]) cs) in Hrej.
  cbv zeta. destruct (remote_ok env (crashlytics s) _); cbn [andb] in Hrej.
  - destruct (storage_get_ok env "userID").
    + cbn [with_console set_console set_crashlytics crashlytics]. rewrite Hrej.
      eexists _, rejected. split; [reflexivity|].
      cbn [init_failed with_console console set_console set_crashlytics logQueue errorHashes
             storage timerHandle intervals].
      by rewrite last_snoc.
    + eexists _, storage_unreadable. split; [reflexivity|].
      cbn [init_failed with_console console set_console set_crashlytics logQueue errorHashes
             storage timerHandle intervals].
      by rewrite last_snoc.
  - eexists _, rejected. split; [reflexivity|].
    cbn [init_failed with_console console set_console set_crashlytics logQueue errorHashes
           storage timerHandle intervals].
    by rewrite last_snoc.
Qed.

Lemma init_failure_skips_restore_and_timer_witness :
  remote_accepts demo_env_no_user (crashlytics (fresh demo_stored))
    (setup_calls demo_env_no_user (fresh demo_stored)) = false /\
  exists s' e,
    init demo_env_no_user (fresh demo_stored) = Some (Normal tt, s') /\
    last (console s') = Some (mkConsoleLine ConsoleError
                                "[Logger] Failed to initialize Crashlytics:" [ArgError e]) /\
    logQueue s' = logQueue (fresh demo_stored) /\
    errorHashes s' = errorHashes (fresh demo_stored) /\
    storage s' = storage (fresh demo_stored) /\
    timerHandle s' = timerHandle (fresh demo_stored) /\
    intervals s' = intervals (fresh demo_stored).
Proof.
  split; [reflexivity|].
  apply (init_failure_skips_restore_and_timer demo_env_no_user (fresh demo_stored)).
  reflexivity.
Defined.

(** C1 as stated does not hold: take a store that holds one persisted entry
    and a remote service that rejects [setUserId].  The claim says that the
    constructor still restores that entry and starts the timer; the code
    leaves the queue empty and [timerHandle] unset. *)
Lemma init_failure_does_not_restore :
  ~ (forall env s q,
       remote_accepts env (crashlytics (fresh s)) (setup_calls env (fresh s)) = false ->
       storage_get_ok env QUEUE_KEY = true ->
       Forall wf_entry q ->
       JSON_stringify (queue_value q) = Normal (storage s !! QUEUE_KEY) ->
       exists s', constructor env s = Some (Normal tt, s') /\
                  logQueue s' = q /\ is_Some (timerHandle s')).
Proof.
  intros Hclaim.
  destruct (Hclaim demo_env_no_user demo_stored [demo_entry]) as (s' & Hrun & Hq & Ht).
  - reflexivity.
  - reflexivity.
  - constructor; [apply demo_entry_wf | constructor].
  - vm_compute. reflexivity.
  - vm_compute in Hrun. injection Hrun as <-. discriminate Hq.
Qed.

(** The same store, started once with a remote service that accepts every
    call and once with one that rejects [setUserId]. *)
Example init_with_and_without_rejection :
  (exists s', constructor demo_env demo_stored = Some (Normal tt, s') /\
              logQueue s' = [demo_entry] /\ timerHandle s' = Some 1%positive /\
              intervals s' = {[1%positive := FLUSH_INTERVAL]}) /\
  (exists s', constructor demo_env_no_user demo_stored = Some (Normal tt, s') /\
              logQueue s' = [] /\ timerHandle s' = None /\ intervals s' = ∅ /\
              crashlytics s' = [SetCrashlyticsCollectionEnabled true]).
Proof. split; eexists; (split; [by vm_compute|]); by vm_compute. Qed.

(** ** Repeated errors are queued once *)





(** ** The dedupe set mirrors the queue *)



(** ** Persistence round trip *)

(** The fields [restoreQueue] sets when the store holds the serialization of
    a queue of well-formed entries. *)
Lemma restored_stringified env s q text :
  storage_get_ok env QUEUE_KEY = true ->
  storage s !! QUEUE_KEY = Some text ->
  Forall wf_entry q ->
  JSON_stringify (queue_value q) = Normal (Some text) ->
  exists s', restoreQueue env s = Some (Normal tt, s') /\
             logQueue s' = q /\ errorHashes s' = restored_hashes q ∪ errorHashes s.
Proof.
  intros Hget Hst Hwf Hser. rewrite restoreQueue_spec. unfold restored. rewrite Hget, Hst.
  pose proof (f_equal (fun m => m s) (JSON_parse_LogEntries_stringify q text Hwf Hser)) as Hparse.
  cbv beta in Hparse. unfold JSON_parse_LogEntries in Hparse.
  assert (truthy (Some text) = true) as ->.
  { revert Hser. rewrite stringify_queue. by intros [= <-]. }
  change (default "" (Some text)) with text.
  destruct (JSON_parse text) as [j|]; [|done].
  destruct (as_LogEntries j) as [q'|]; [|done].
  assert (q' = q) as -> by (by injection Hparse).
  eexists. split; [reflexivity|]. done.
Qed.

(** C4: for every reachable state (so for every queue the record operation
    can produce), when the store accepts the write and can be read back,
    [saveQueue] followed by [restoreQueue] yields the same queue and the same
    dedupe set, in a fresh process as well as in the running one; the
    restored set is built from the restored entries that are errors and
    carry a fingerprint. *)
Theorem save_restore_roundtrip env s :
  reachable s ->
  (forall text, storage_set_ok env QUEUE_KEY text = true) ->
  storage_get_ok env QUEUE_KEY = true ->
  exists s1 s2 s3,
    saveQueue env s = Some (Normal tt, s1) /\
    restoreQueue env (fresh s1) = Some (Normal tt, s2) /\
    logQueue s2 = logQueue s /\
    errorHashes s2 = errorHashes s /\
    errorHashes s2 = restored_hashes (logQueue s2) /\
    restoreQueue env s1 = Some (Normal tt, s3) /\
    logQueue s3 = logQueue s /\
    errorHashes s3 = errorHashes s.
Proof.
  intros (Hd & Hwf & _ & _)%reachable_logger_invariant Hset Hget.
  rewrite saveQueue_spec. exists (saved env s).
  assert (storage (saved env s) !! QUEUE_KEY = Some (queue_text (logQueue s))) as Hst.
  { rewrite saved_storage, Hset. apply lookup_insert_eq. }
  destruct (restored_stringified env (fresh (saved env s)) (logQueue s)
              (queue_text (logQueue s))) as (s2 & Hrun & Hq & Hh);
    [done | done | done | apply stringify_queue |].
  destruct (restored_stringified env (saved env s) (logQueue s)
              (queue_text (logQueue s))) as (s3 & Hrun' & Hq' & Hh');
    [done | done | done | apply stringify_queue |].
  exists s2, s3. split_and!; try done.
  - rewrite Hh. cbn [fresh errorHashes]. rewrite (right_id_L ∅ (∪)), Hd.
    by apply restored_hashes_wf.
  - rewrite Hh, Hq. cbn [fresh errorHashes]. by rewrite (right_id_L ∅ (∪)).
  - rewrite Hh', saved_errorHashes, Hd, restored_hashes_wf by done.
    apply (idemp_L (∪)).
Qed.

Lemma save_restore_roundtrip_witness :
  reachable demo_queued /\
  (forall text, storage_set_ok demo_env QUEUE_KEY text = true) /\
  storage_get_ok demo_env QUEUE_KEY = true /\
  exists s1 s2 s3,
    saveQueue demo_env demo_queued = Some (Normal tt, s1) /\
    restoreQueue demo_env (fresh s1) = Some (Normal tt, s2) /\
    logQueue s2 = logQueue demo_queued /\
    errorHashes s2 = errorHashes demo_queued /\
    errorHashes s2 = restored_hashes (logQueue s2) /\
    restoreQueue demo_env s1 = Some (Normal tt, s3) /\
    logQueue s3 = logQueue demo_queued /\
    errorHashes s3 = errorHashes demo_queued.
Proof.
  split; [by apply demo_queued_reachable|]. split; [reflexivity|]. split; [reflexivity|].
  apply (save_restore_roundtrip demo_env demo_queued);
    [by apply demo_queued_reachable | reflexivity | reflexivity].
Defined.

(** ** Order of delivery *)

(** C5: when the remote service accepts them, the calls a flush makes are
    exactly those of [delivery_plan]: one log line per non-error entry, in
    queue order, and then, per error entry in queue order, one log line
    immediately followed by one recorded error whose description is the
    message, a space, and the params. *)
Theorem flush_delivers_normal_then_errors env s :
  remote_accepts env (crashlytics s) (delivery_plan (logQueue s)) = true ->
  exists s',
    flushLogs env s = Some (Normal tt, s') /\
    crashlytics s' = crashlytics s ++ delivery_plan (logQueue s).
Proof.
  intros Hok. rewrite flushLogs_spec. eexists. split; [reflexivity|].
  by rewrite flushed_crashlytics, accepted_prefix_all.
Qed.

Lemma flush_delivers_normal_then_errors_witness :
  remote_accepts demo_env (crashlytics demo_queued) (delivery_plan (logQueue demo_queued)) = true /\
  exists s',
    flushLogs demo_env demo_queued = Some (Normal tt, s') /\
    crashlytics s' = crashlytics demo_queued ++ delivery_plan (logQueue demo_queued).
Proof.
  split; [by vm_compute|].
  apply (flush_delivers_normal_then_errors demo_env demo_queued). by vm_compute.
Defined.

(** ** A failed flush *)

(** C6: if a delivery call of a flush is rejected, the flush catches the
    failure and logs it, and the queue, the dedupe set and the store are
    what they were before the flush. *)
Theorem flush_failure_keeps_state env s :
  remote_accepts env (crashlytics s) (delivery_plan (logQueue s)) = false ->
  exists s' e,
    flushLogs env s = Some (Normal tt, s') /\
    logQueue s' = logQueue s /\
    errorHashes s' = errorHashes s /\
    storage s' = storage s /\
    last (console s') = Some (mkConsoleLine ConsoleError "[Logger] Failed to flush logs:"
                                [ArgError e]).
Proof.
  intros Hrej. rewrite flushLogs_spec. exists (flushed env s), rejected.
  split; [reflexivity|]. unfold flushed.
  destruct (logQueue s) as [|entry q] eqn:Hq; [done|]. cbv zeta. rewrite Hrej.
  cbn [with_console set_console set_crashlytics logQueue errorHashes storage console].
  split_and!; try done. apply last_snoc.
Qed.

Lemma flush_failure_keeps_state_witness :
  remote_accepts demo_env_no_record (crashlytics demo_queued)
    (delivery_plan (logQueue demo_queued)) = false /\
  exists s' e,
    flushLogs demo_env_no_record demo_queued = Some (Normal tt, s') /\
    logQueue s' = logQueue demo_queued /\
    errorHashes s' = errorHashes demo_queued /\
    storage s' = storage demo_queued /\
    last (console s') = Some (mkConsoleLine ConsoleError "[Logger] Failed to flush logs:"
                                [ArgError e]).
Proof.
  split; [by vm_compute|].
  apply (flush_failure_keeps_state demo_env_no_record demo_queued). by vm_compute.
Defined.

(** ** A successful flush *)



(** ** A failed restoration *)



Example restore_corrupt_store :
  exists s', restoreQueue demo_env demo_corrupt = Some (Normal tt, s') /\
             logQueue s' = [] /\ errorHashes s' = ∅ /\
             console s' = [mkConsoleLine ConsoleError "[Logger] Failed to restore queue:"
                             [ArgError (SyntaxError "JSON Parse error")]].
Proof. eexists. split; [by vm_compute|]. by vm_compute. Qed.

(** ** Formatting of parameters *)






(** ** Delivered lines repeat the tag *)

Lemma append_tagged (tag text rest : string) :
  (tag +:+ " " +:+ text) +:+ rest = tag +:+ " " +:+ text +:+ rest.
Proof. by rewrite !append_assoc. Qed.

Lemma normal_line_log_line e : type e <> Error -> normal_line e = log_line e.
Proof. unfold normal_line, log_line. by destruct (type e). Qed.

Lemma error_line_log_line e : type e = Error -> error_line e = log_line e.
Proof. unfold error_line, log_line. by intros ->. Qed.

Lemma delivery_plan_lines q line :
  CrashlyticsLog line ∈ delivery_plan q <-> exists e, e ∈ q /\ line = log_line e.
Proof.
  unfold delivery_plan. rewrite elem_of_app, !list_elem_of_In, !in_flat_map. split.
  - intros [(e & He & Hline) | (e & He & Hline)].
    + apply list_elem_of_In, list_elem_of_filter in He as [Ht He].
      destruct Hline as [[= <-]|[]]. exists e. by rewrite normal_line_log_line.
    + apply list_elem_of_In, list_elem_of_filter in He as [Ht He].
      destruct Hline as [[= <-]|[[=]|[]]]. exists e. by rewrite error_line_log_line.
  - intros (e & He & ->). destruct (decide (type e = Error)) as [Ht|Ht].
    + right. exists e. split; [by apply list_elem_of_In, list_elem_of_filter|].
      left. by rewrite error_line_log_line.
    + left. exists e. split; [by apply list_elem_of_In, list_elem_of_filter|].
      left. by rewrite normal_line_log_line.
Qed.

Lemma reachable_public_tagged s :
  reachable_by public s -> Forall tagged (logQueue s).
Proof.
  intros Hs. eapply (reachable_invariant tagged) in Hs as (_ & _ & Ht & _); [done..|].
  by intros [].
Qed.

(** C10: in a state reached through the public methods, every log line a
    flush delivers is, for some queued entry, the bracketed upper-case tag of
    its kind, a space, its stored message, a space, and its stored params;
    the stored message already starts with the same tag, so the line holds
    the tag twice; and when all calls are accepted every queued entry has its
    line delivered. *)
Theorem flushed_line_repeats_tag env s :
  reachable_by public s ->
  exists s' delivered,
    flushLogs env s = Some (Normal tt, s') /\
    crashlytics s' = crashlytics s ++ delivered /\
    (forall line, CrashlyticsLog line ∈ delivered ->
       exists entry text,
         entry ∈ logQueue s /\
         line = kind_tag (type entry) +:+ " " +:+ message entry +:+ " " +:+ params entry /\
         message entry = kind_tag (type entry) +:+ " " +:+ text /\
         line = kind_tag (type entry) +:+ " " +:+ kind_tag (type entry) +:+ " " +:+ text
                +:+ " " +:+ params entry) /\
    (remote_accepts env (crashlytics s) (delivery_plan (logQueue s)) = true ->
     forall entry, entry ∈ logQueue s ->
       CrashlyticsLog (kind_tag (type entry) +:+ " " +:+ message entry +:+ " "
                       +:+ params entry) ∈ delivered).
Proof.
  intros Htag%reachable_public_tagged. rewrite flushLogs_spec.
  exists (flushed env s), (accepted_prefix env (crashlytics s) (delivery_plan (logQueue s))).
  split_and!; [done | apply flushed_crashlytics | |].
  - intros line Hline%accepted_prefix_sub. apply delivery_plan_lines in Hline as (e & He & ->).
    pose proof (proj1 (Forall_forall _ _) Htag e He) as [text Htext].
    exists e, text. split_and!; try done.
    unfold log_line. rewrite Htext. by rewrite append_tagged.
  - intros Hok e He. rewrite accepted_prefix_all by done.
    apply delivery_plan_lines. by exists e.
Qed.

Lemma flushed_line_repeats_tag_witness :
  reachable_by public demo_queued /\
  exists s' delivered,
    flushLogs demo_env demo_queued = Some (Normal tt, s') /\
    crashlytics s' = crashlytics demo_queued ++ delivered /\
    (forall line, CrashlyticsLog line ∈ delivered ->
       exists entry text,
         entry ∈ logQueue demo_queued /\
         line = kind_tag (type entry) +:+ " " +:+ message entry +:+ " " +:+ params entry /\
         message entry = kind_tag (type entry) +:+ " " +:+ text /\
         line = kind_tag (type entry) +:+ " " +:+ kind_tag (type entry) +:+ " " +:+ text
                +:+ " " +:+ params entry) /\
    (remote_accepts demo_env (crashlytics demo_queued) (delivery_plan (logQueue demo_queued)) = true ->
     forall entry, entry ∈ logQueue demo_queued ->
       CrashlyticsLog (kind_tag (type entry) +:+ " " +:+ message entry +:+ " "
                       +:+ params entry) ∈ delivered).
Proof.
  split; [by apply demo_queued_reachable|].
  apply (flushed_line_repeats_tag demo_env demo_queued). by apply demo_queued_reachable.
Defined.

(** ** A start in which every call is accepted *)

Lemma remote_accepts_cons env history c calls :
  remote_accepts env history (c :: calls)
  = remote_ok env history c && remote_accepts env (history ++ [c]) calls.
Proof. reflexivity. Qed.

Lemma initialized_accepted env s :
  storage_get_ok env "userID" = true ->
  remote_accepts env (crashlytics s) (setup_calls env s) = true ->
  initialized env s = timer_started <$> restored env (identified env s).
Proof.
  intros Hget Hacc. unfold initialized, identified.
  destruct (setup_calls env s) as [|c1 calls] eqn:Hcalls; [done|].
  rewrite remote_accepts_cons in Hacc. apply andb_true_iff in Hacc as [H1 Hacc].
  rewrite H1, Hget. cbv zeta.
  cbn [with_console crashlytics set_console set_crashlytics]. rewrite Hacc.
  rewrite (accepted_prefix_all _ _ _ Hacc). do 2 f_equal.
  unfold with_console, set_crashlytics, set_console.
  cbn [logQueue timerHandle errorHashes storage crashlytics console intervals next_interval].
  by rewrite <- app_assoc.
Qed.

Lemma getItem_lookup env key s :
  storage_get_ok env key = true -> getItem env key s = Some (Normal (storage s !! key), s).
Proof.
  intros Hget. unfold getItem, bind, storage_getString. rewrite Hget.
  by destruct (storage s !! key).
Qed.

(** ** The key-value store module *)

(** X1: a value written with [setItem] is what [getItem] returns for that
    key afterwards, and every other key reads as before the write. *)
Theorem setItem_then_getItem env env' key value s :
  storage_set_ok env key value = true ->
  exists s1,
    setItem env key value s = Some (Normal tt, s1) /\
    forall key', storage_get_ok env' key' = true ->
      getItem env' key' s1
      = Some (Normal (if decide (key' = key) then Some value else storage s !! key'), s1).
Proof.
  intros Hset. unfold setItem, storage_set. rewrite Hset. eexists. split; [reflexivity|].
  intros key' Hget. rewrite getItem_lookup by done. cbn [storage set_storage].
  destruct (decide (key' = key)) as [->|Hne].
  - by rewrite lookup_insert_eq.
  - by rewrite lookup_insert_ne.
Qed.

Lemma setItem_then_getItem_witness :
  storage_set_ok demo_env "userID" "u-17" = true /\
  exists s1,
    setItem demo_env "userID" "u-17" (installed ∅) = Some (Normal tt, s1) /\
    forall key', storage_get_ok demo_env key' = true ->
      getItem demo_env key' s1
      = Some (Normal (if decide (key' = "userID") then Some "u-17"
                      else storage (installed ∅) !! key'), s1).
Proof.
  split; [reflexivity|].
  apply (setItem_then_getItem demo_env demo_env "userID" "u-17" (installed ∅)). reflexivity.
Defined.

(** X2: after [removeItem] the key reads as absent ([getItem] returns
    null), whether or not it was present, and every other key reads as
    before. *)
Theorem removeItem_then_getItem delete_ok env key s :
  delete_ok key = true ->
  exists s1,
    removeItem delete_ok key s = Some (Normal tt, s1) /\
    forall key', storage_get_ok env key' = true ->
      getItem env key' s1
      = Some (Normal (if decide (key' = key) then None else storage s !! key'), s1).
Proof.
  intros Hdel. unfold removeItem, storage_delete. rewrite Hdel. eexists. split; [reflexivity|].
  intros key' Hget. rewrite getItem_lookup by done. cbn [storage set_storage].
  destruct (decide (key' = key)) as [->|Hne].
  - by rewrite lookup_delete_eq.
  - by rewrite lookup_delete_ne.
Qed.

Lemma removeItem_then_getItem_witness :
  (fun _ : string => true) "logger_queue" = true /\
  exists s1,
    removeItem (fun _ => true) "logger_queue" demo_stored = Some (Normal tt, s1) /\
    forall key', storage_get_ok demo_env key' = true ->
      getItem demo_env key' s1
      = Some (Normal (if decide (key' = "logger_queue") then None
                      else storage demo_stored !! key'), s1).
Proof.
  split; [reflexivity|].
  apply (removeItem_then_getItem (fun _ => true) demo_env "logger_queue" demo_stored).
  reflexivity.
Defined.

(** ** Fields after a restoration and after the timer is started *)

Lemma restored_frame env s s' :
  restored env s = Some s' ->
  storage s' = storage s /\ crashlytics s' = crashlytics s /\
  timerHandle s' = timerHandle s /\ intervals s' = intervals s /\
  next_interval s' = next_interval s.
Proof.
  unfold restored. destruct (storage_get_ok env QUEUE_KEY); [|by intros [= <-]].
  destruct (truthy (storage s !! QUEUE_KEY)); [|by intros [= <-]].
  destruct (JSON_parse _) as [j|]; [|by intros [= <-]].
  destruct (as_LogEntries j) as [q|]; [|done]. by intros [= <-].
Qed.

Lemma restored_nothing_saved env s :
  storage_get_ok env QUEUE_KEY = true ->
  truthy (storage s !! QUEUE_KEY) = false ->
  restored env s = Some s.
Proof. intros Hget Hnone. unfold restored. by rewrite Hget, Hnone. Qed.

Lemma timer_started_frame s :
  logQueue (timer_started s) = logQueue s /\ errorHashes (timer_started s) = errorHashes s /\
  storage (timer_started s) = storage s /\ crashlytics (timer_started s) = crashlytics s /\
  console (timer_started s) = console s.
Proof. done. Qed.

(** ** Starting the logger *)

(** X3: when the user-id lookup and all five setup calls succeed, the
    constructor sends exactly these calls, in this order: collection
    enabled, the user id, then the environment, platform and app_version
    attributes.  The user id is the text stored under userID, and
    anonymous_user when that key is absent or holds the empty string. *)
Theorem constructor_identifies_user env s :
  persisted_queue (fun _ => True) s ->
  storage_get_ok env "userID" = true ->
  remote_accepts env (crashlytics s) (setup_calls env s) = true ->
  exists s',
    constructor env s = Some (Normal tt, s') /\
    crashlytics s'
    = crashlytics s
      ++ [SetCrashlyticsCollectionEnabled true;
          SetUserId match storage s !! "userID" with
                    | Some (String c r) => String c r
                    | _ => "anonymous_user"
                    end;
          SetAttribute "environment" (APP_ENV env);
          SetAttribute "platform" (Platform_OS env);
          SetAttribute "app_version" "1.0.0"].
Proof.
  intros Hp Hget Hacc. rewrite constructor_spec.
  rewrite initialized_accepted by done.
  destruct (restored_typed (fun _ => True) env (identified env (fresh s))) as [s1 Hs1]; [done|].
  rewrite Hs1. cbn [fmap option_fmap option_map completed]. eexists. split; [reflexivity|].
  destruct (timer_started_frame s1) as (_ & _ & _ & -> & _).
  destruct (restored_frame _ _ _ Hs1) as (_ & -> & _).
  unfold identified, setup_calls. cbn [with_console crashlytics set_console set_crashlytics fresh storage].
  do 3 f_equal. by destruct (storage s !! "userID") as [[|c r]|].
Qed.

Lemma constructor_identifies_user_witness :
  persisted_queue (fun _ => True) (installed {["userID" := "u-17"]}) /\
  storage_get_ok demo_env "userID" = true /\
  remote_accepts demo_env (crashlytics (installed {["userID" := "u-17"]}))
    (setup_calls demo_env (installed {["userID" := "u-17"]})) = true /\
  exists s',
    constructor demo_env (installed {["userID" := "u-17"]}) = Some (Normal tt, s') /\
    crashlytics s'
    = crashlytics (installed {["userID" := "u-17"]})
      ++ [SetCrashlyticsCollectionEnabled true;
          SetUserId match storage (installed {["userID" := "u-17"]}) !! "userID" with
                    | Some (String c r) => String c r
                    | _ => "anonymous_user"
                    end;
          SetAttribute "environment" (APP_ENV demo_env);
          SetAttribute "platform" (Platform_OS demo_env);
          SetAttribute "app_version" "1.0.0"].
Proof.
  assert (persisted_queue (fun _ => True) (installed {["userID" := "u-17"]})) as Hp
    by (intros text Hst; exfalso; revert Hst; cbn [storage installed];
        by rewrite lookup_singleton_ne).
  split; [exact Hp|]. split; [reflexivity|]. split; [reflexivity|].
  apply (constructor_identifies_user demo_env (installed {["userID" := "u-17"]}));
    [exact Hp | reflexivity | reflexivity].
Defined.

(** X4: a start with nothing saved under the queue key (the key is absent,
    or holds the empty string) and every call accepted: the queue and the
    dedupe set are empty, the store is untouched, nothing is reported as
    restored, and exactly one interval timer runs, with a period of one
    hour. *)
Theorem constructor_without_saved_queue env s :
  storage s !! QUEUE_KEY = None \/ storage s !! QUEUE_KEY = Some "" ->
  storage_get_ok env "userID" = true ->
  storage_get_ok env QUEUE_KEY = true ->
  remote_accepts env (crashlytics s) (setup_calls env s) = true ->
  exists s',
    constructor env s = Some (Normal tt, s') /\
    logQueue s' = [] /\ errorHashes s' = ∅ /\ storage s' = storage s /\
    console s' = console s
                 ++ [mkConsoleLine ConsoleLog
                       "[Logger] Crashlytics initialized successfully as remote logging service" []] /\
    timerHandle s' = Some 1%positive /\
    intervals s' = {[1%positive := 3600000]}.
Proof.
  intros Hnone Hid Hget Hacc. rewrite constructor_spec.
  rewrite initialized_accepted by done.
  rewrite restored_nothing_saved; [|done|].
  - cbn [fmap option_fmap option_map completed]. eexists. split; [reflexivity|].
    split_and!; [reflexivity..|].
    unfold timer_started, identified, fresh.
    cbn [with_console set_console set_crashlytics set_timerHandle set_intervals
         timerHandle intervals next_interval].
    by rewrite insert_empty.
  - cbn [identified with_console storage set_console set_crashlytics fresh].
    by destruct Hnone as [-> | ->].
Qed.

Lemma constructor_without_saved_queue_witness :
  (storage (installed ∅) !! QUEUE_KEY = None \/ storage (installed ∅) !! QUEUE_KEY = Some "") /\
  storage_get_ok demo_env "userID" = true /\
  storage_get_ok demo_env QUEUE_KEY = true /\
  remote_accepts demo_env (crashlytics (installed ∅)) (setup_calls demo_env (installed ∅)) = true /\
  exists s',
    constructor demo_env (installed ∅) = Some (Normal tt, s') /\
    logQueue s' = [] /\ errorHashes s' = ∅ /\ storage s' = storage (installed ∅) /\
    console s' = console (installed ∅)
                 ++ [mkConsoleLine ConsoleLog
                       "[Logger] Crashlytics initialized successfully as remote logging service" []] /\
    timerHandle s' = Some 1%positive /\
    intervals s' = {[1%positive := 3600000]}.
Proof.
  split; [by left|]. split; [reflexivity|]. split; [reflexivity|]. split; [reflexivity|].
  apply (constructor_without_saved_queue demo_env (installed ∅));
    [by left | reflexivity | reflexivity | reflexivity].
Defined.

(** ** Fields after recording *)

Lemma saved_frame env s : same_remote_and_timers s (saved env s).
Proof. unfold saved. by destruct (storage_set_ok env QUEUE_KEY _). Qed.

Lemma saved_storage_other env s key :
  key <> QUEUE_KEY -> storage (saved env s) !! key = storage s !! key.
Proof.
  intros Hne. rewrite saved_storage. destruct (storage_set_ok env QUEUE_KEY _); [|done].
  by rewrite lookup_insert_ne.
Qed.

Lemma format_logged_frame ps s : same_remote_and_timers s (format_logged ps s).
Proof. unfold format_logged. destruct ps; [done|]. by destruct (map_params _). Qed.

Lemma format_logged_fields ps s :
  logQueue (format_logged ps s) = logQueue s /\
  errorHashes (format_logged ps s) = errorHashes s /\
  storage (format_logged ps s) = storage s.
Proof. unfold format_logged. destruct ps; [done|]. by destruct (map_params _). Qed.

Lemma queued_frame env t m p s : same_remote_and_timers s (queued env t m p s).
Proof.
  unfold queued, same_remote_and_timers. destruct t; [| case_bool_decide; [done|] |];
    match goal with |- context [saved env ?x] =>
      destruct (saved_frame env x) as (-> & -> & -> & ->) end; done.
Qed.

Lemma queued_storage_other env t m p s key :
  key <> QUEUE_KEY -> storage (queued env t m p s) !! key = storage s !! key.
Proof.
  intros Hne. unfold queued.
  destruct t; [| case_bool_decide; [done|] |]; by rewrite saved_storage_other.
Qed.

Lemma flushed_storage_other env s key :
  key <> QUEUE_KEY -> storage (flushed env s) !! key = storage s !! key.
Proof.
  intros Hne. unfold flushed. destruct (logQueue s); [done|]. cbv zeta.
  destruct (remote_accepts env _ _); [|done].
  cbn [with_console storage set_console]. by rewrite saved_storage_other.
Qed.

Lemma initialized_storage env s s' : initialized env s = Some s' -> storage s' = storage s.
Proof.
  unfold initialized. destruct (setup_calls env s) as [|c1 calls]; [done|]. cbv zeta.
  destruct (remote_ok env _ _); [|by intros [= <-]].
  destruct (storage_get_ok env "userID"); [|by intros [= <-]].
  destruct (remote_accepts env _ _); [|by intros [= <-]].
  match goal with |- context [restored env ?st] => destruct (restored env st) as [s1|] eqn:Hr end;
    [|done].
  intros [= <-]. destruct (restored_frame _ _ _ Hr) as (Hst & _).
  change (storage (timer_started s1)) with (storage s1). by rewrite Hst.
Qed.

(** ** What the operations never do *)

Lemma run_op_completes env op s :
  (op <> Construct \/ persisted_queue (fun _ => True) s ->
   exists s', run_op env op s = Some (Normal tt, s')) /\
  (run_op env op s = None \/ exists s', run_op env op s = Some (Normal tt, s')).
Proof.
  assert (forall s', run_op env op s = Some (Normal tt, s') ->
            (op <> Construct \/ persisted_queue (fun _ => True) s ->
             exists s'', run_op env op s = Some (Normal tt, s'')) /\
            (run_op env op s = None \/ exists s'', run_op env op s = Some (Normal tt, s'')))
    as Hdone.
  { intros s' ->. split; [intros _; by eexists | right; by eexists]. }
  destruct op as [|kind msg prm|msg args|msg args|msg args|msg args| |]; cbn [run_op].
  - rewrite constructor_spec. split.
    + intros [?|Hp]; [done|].
      assert (logger_invariant (fun _ => True) (fresh s)) as Hinv
        by (split_and!; try done; constructor).
      destruct (step_typed (fun _ => True) env Construct (fresh s) Hinv) as [s' Hs'].
      rewrite step_spec in Hs'. unfold stepped in Hs'.
      change (fresh (fresh s)) with (fresh s) in Hs'. rewrite Hs'. by eexists.
    + destruct (initialized env (fresh s)); [right; by eexists | by left].
  - eapply Hdone. cbn [run_op]. apply queueLog_spec.
  - eapply Hdone. cbn [run_op]. apply log_spec.
  - eapply Hdone. cbn [run_op]. apply warn_spec.
  - eapply Hdone. cbn [run_op]. apply error_spec.
  - destruct (DEV env) eqn:Hdev; eapply Hdone; cbn [run_op]; unfold debug; by rewrite Hdev.
  - eapply Hdone. cbn [run_op]. unfold forceFlush. apply flushLogs_spec.
  - destruct (timerHandle s) as [t|] eqn:Ht.
    + destruct (bool_decide (is_Some (intervals s !! t))) eqn:Hrun.
      * eapply Hdone. cbn [run_op]. unfold bind, gets. rewrite Ht, Hrun. apply flushLogs_spec.
      * eapply Hdone. cbn [run_op]. unfold bind, gets. by rewrite Ht, Hrun.
    + eapply Hdone. cbn [run_op]. unfold bind, gets. by rewrite Ht.
Qed.

(** X5: no operation of the logger completes abruptly, whatever the remote
    service and the store do and whatever the arguments are.  Every
    operation but the start of the process always runs to completion, and so
    does the start when the store holds, under the queue key, nothing or
    what the logger wrote there. *)
Theorem operations_never_throw env op s :
  (forall e s', run_op env op s <> Some (Throw e, s')) /\
  (op <> Construct -> exists s', run_op env op s = Some (Normal tt, s')) /\
  (persisted_queue (fun _ => True) s -> exists s', run_op env op s = Some (Normal tt, s')).
Proof.
  destruct (run_op_completes env op s) as [Hdone Hcases]. split_and!.
  - intros e s'. by destruct Hcases as [->|[s'' ->]].
  - intros Hop. apply Hdone. by left.
  - intros Hp. apply Hdone. by right.
Qed.

Lemma recording_frame env op s s' :
  recording op -> step env op s = Some s' -> same_remote_and_timers s s'.
Proof.
  intros Hop. rewrite step_spec. destruct op as [|kind msg prm|msg args|msg args|msg args|msg args| |]; try done; unfold stepped;
    intros Hs; apply (inj Some) in Hs; subst s'; unfold same_remote_and_timers.
  - by destruct (queued_frame env kind msg prm s) as (-> & -> & -> & ->).
  - match goal with |- context [queued env ?t ?m ?p ?x] =>
      destruct (queued_frame env t m p x) as (-> & -> & -> & ->) end.
    by destruct (format_logged_frame args
                   (with_console ConsoleLog ("[LOG] " +:+ msg) (map ArgValue args) s))
      as (-> & -> & -> & ->).
  - match goal with |- context [queued env ?t ?m ?p ?x] =>
      destruct (queued_frame env t m p x) as (-> & -> & -> & ->) end.
    by destruct (format_logged_frame args
                   (with_console ConsoleWarn ("[WARN] " +:+ msg) (map ArgValue args) s))
      as (-> & -> & -> & ->).
  - match goal with |- context [queued env ?t ?m ?p ?x] =>
      destruct (queued_frame env t m p x) as (-> & -> & -> & ->) end.
    by destruct (format_logged_frame args
                   (with_console ConsoleError ("[ERROR] " +:+ msg) (map ArgValue args) s))
      as (-> & -> & -> & ->).
  - by destruct (DEV env).
Qed.

(** X6: recording an event ([log], [warn], [error], [debug], or a direct
    [queueLog]) makes no call on the remote service and leaves the timers
    alone: nothing is sent before a flush. *)
Theorem recording_never_calls_remote env op s s' :
  recording op ->
  step env op s = Some s' ->
  crashlytics s' = crashlytics s /\ timerHandle s' = timerHandle s /\
  intervals s' = intervals s.
Proof.
  intros Hop Hstep. by destruct (recording_frame env op s s' Hop Hstep) as (? & ? & ? & _).
Qed.

Lemma recording_never_calls_remote_witness :
  recording (CallError "boom" [VNumber 3]) /\
  step demo_env (CallError "boom" [VNumber 3]) demo_started = Some demo_failed /\
  crashlytics demo_failed = crashlytics demo_started /\
  timerHandle demo_failed = timerHandle demo_started /\
  intervals demo_failed = intervals demo_started.
Proof.
  split; [exact I|]. split; [by vm_compute|].
  apply (recording_never_calls_remote demo_env (CallError "boom" [VNumber 3])
           demo_started demo_failed); [exact I | by vm_compute].
Defined.

(** X7: the logger writes the store under its queue key only: whatever the
    operation, every other key holds afterwards what it held before. *)
Theorem store_written_only_under_queue_key env op s s' key :
  step env op s = Some s' ->
  key <> QUEUE_KEY ->
  storage s' !! key = storage s !! key.
Proof.
  rewrite step_spec. intros Hs Hne. destruct op as [|kind msg prm|msg args|msg args|msg args|msg args| |]; unfold stepped in Hs.
  - by rewrite (initialized_storage _ _ _ Hs).
  - apply (inj Some) in Hs; subst s'. by rewrite queued_storage_other.
  - apply (inj Some) in Hs; subst s'. rewrite queued_storage_other by done.
    by destruct (format_logged_fields args
                   (with_console ConsoleLog ("[LOG] " +:+ msg) (map ArgValue args) s))
      as (_ & _ & ->).
  - apply (inj Some) in Hs; subst s'. rewrite queued_storage_other by done.
    by destruct (format_logged_fields args
                   (with_console ConsoleWarn ("[WARN] " +:+ msg) (map ArgValue args) s))
      as (_ & _ & ->).
  - apply (inj Some) in Hs; subst s'. rewrite queued_storage_other by done.
    by destruct (format_logged_fields args
                   (with_console ConsoleError ("[ERROR] " +:+ msg) (map ArgValue args) s))
      as (_ & _ & ->).
  - apply (inj Some) in Hs; subst s'. by destruct (DEV env).
  - apply (inj Some) in Hs; subst s'. by rewrite flushed_storage_other.
  - apply (inj Some) in Hs; subst s'. destruct (timerHandle s); [|done].
    case_bool_decide; [by rewrite flushed_storage_other | done].
Qed.

Lemma store_written_only_under_queue_key_witness :
  step demo_env (CallLog "hello" []) (installed {["userID" := "u-17"]})
  = Some (default (installed ∅)
            (step demo_env (CallLog "hello" []) (installed {["userID" := "u-17"]}))) /\
  "userID" <> QUEUE_KEY /\
  storage (default (installed ∅)
             (step demo_env (CallLog "hello" []) (installed {["userID" := "u-17"]}))) !! "userID"
  = storage (installed {["userID" := "u-17"]}) !! "userID".
Proof.
  split; [by vm_compute|]. split; [done|].
  apply (store_written_only_under_queue_key demo_env (CallLog "hello" [])
           (installed {["userID" := "u-17"]})); [by vm_compute | done].
Defined.

(** ** Recording without deduplication, and with a failing store *)

Lemma queued_not_error env t m p s :
  t <> Error ->
  logQueue (queued env t m p s) = logQueue s ++ [mkLogEntry t m p (now env) None] /\
  errorHashes (queued env t m p s) = errorHashes s.
Proof.
  intros Ht. unfold queued. destruct t; [|done|]; by rewrite saved_logQueue, saved_errorHashes.
Qed.

(** X8: [log] and [warn] are never deduplicated: every call appends one
    entry, also when it repeats an earlier call word for word; the entries
    carry no fingerprint and the dedupe set is left alone. *)
Theorem log_and_warn_are_never_deduplicated env ops s :
  Forall plain ops ->
  exists entries,
    logQueue (run_ops env ops s) = logQueue s ++ entries /\
    length entries = length ops /\
    Forall (fun entry => type entry <> Error /\ hash entry = None /\ timestamp entry = now env)
           entries /\
    errorHashes (run_ops env ops s) = errorHashes s.
Proof.
  intros Hops. revert s. induction Hops as [|op ops Hop _ IH]; intros s.
  - exists []. by rewrite app_nil_r.
  - unfold run_ops. cbn [foldl]. fold (run_ops env ops (default s (step env op s))).
    rewrite step_spec.
    assert (exists entry,
              logQueue (default s (stepped env op s)) = logQueue s ++ [entry] /\
              (type entry <> Error /\ hash entry = None /\ timestamp entry = now env) /\
              errorHashes (default s (stepped env op s)) = errorHashes s)
      as (entry & Hq & Hentry & Hh).
    { destruct op as [|kind msg prm|msg args|msg args|msg args|msg args| |]; try done; unfold stepped;
        match goal with |- context [default s (Some ?x)] =>
          change (default s (Some x)) with x end;
        match goal with |- context [queued env ?t ?m ?p ?x] =>
          destruct (queued_not_error env t m p x) as [Hq Hh]; [done|];
          destruct (format_logged_fields args
                      (with_console (match t with Log => ConsoleLog | _ => ConsoleWarn end)
                         m (map ArgValue args) s)) as (Hq0 & Hh0 & _)
        end; eexists; rewrite Hq, Hh, Hq0, Hh0; by split_and!. }
    destruct (IH (default s (stepped env op s))) as (entries & Hq' & Hlen & Hall & Hh').
    exists (entry :: entries). rewrite Hq', Hq, Hh', Hh, <- app_assoc.
    split_and!; [done | by cbn [length]; rewrite Hlen | by constructor | done].
Qed.

Lemma log_and_warn_are_never_deduplicated_witness :
  Forall plain [CallLog "tick" []; CallLog "tick" []; CallWarn "tick" []] /\
  exists entries,
    logQueue (run_ops demo_env [CallLog "tick" []; CallLog "tick" []; CallWarn "tick" []]
                demo_started)
    = logQueue demo_started ++ entries /\
    length entries = length [CallLog "tick" []; CallLog "tick" []; CallWarn "tick" []] /\
    Forall (fun entry => type entry <> Error /\ hash entry = None
                         /\ timestamp entry = now demo_env) entries /\
    errorHashes (run_ops demo_env [CallLog "tick" []; CallLog "tick" []; CallWarn "tick" []]
                   demo_started)
    = errorHashes demo_started.
Proof.
  assert (Forall plain [CallLog "tick" []; CallLog "tick" []; CallWarn "tick" []]) as Hops
    by (repeat constructor).
  split; [exact Hops|].
  apply (log_and_warn_are_never_deduplicated demo_env
           [CallLog "tick" []; CallLog "tick" []; CallWarn "tick" []] demo_started Hops).
Defined.

(** X9: when the store refuses the write, [queueLog] still appends the
    entry to the in-memory queue (and adds the fingerprint of an error),
    reports the failure on the console and returns normally; the store
    keeps what it held, so the entry exists in memory only. *)
Theorem queueLog_survives_rejected_write env t m p s :
  (forall text, storage_set_ok env QUEUE_KEY text = false) ->
  (t = Error -> generateErrorHash m p ∉ errorHashes s) ->
  exists s',
    queueLog env t m p s = Some (Normal tt, s') /\
    logQueue s'
    = logQueue s ++ [mkLogEntry t m p (now env)
                       match t with Error => Some (m +:+ ":" +:+ p) | _ => None end] /\
    errorHashes s' = match t with
                     | Error => {[m +:+ ":" +:+ p]} ∪ errorHashes s
                     | _ => errorHashes s
                     end /\
    storage s' = storage s /\
    console s' = console s
                 ++ [mkConsoleLine ConsoleError "[Logger] Failed to save queue:"
                       [ArgError (NativeError "MMKV set failed")]].
Proof.
  intros Hset Hnew. rewrite queueLog_spec. eexists. split; [reflexivity|].
  unfold queued, saved. destruct t.
  - rewrite Hset. by split_and!.
  - rewrite bool_decide_eq_false_2 by auto. rewrite Hset. by split_and!.
  - rewrite Hset. by split_and!.
Qed.

Lemma queueLog_survives_rejected_write_witness :
  (forall text, storage_set_ok demo_env_full QUEUE_KEY text = false) /\
  (Warn = Error -> generateErrorHash "[WARN] low disk" "" ∉ errorHashes demo_started) /\
  exists s',
    queueLog demo_env_full Warn "[WARN] low disk" "" demo_started = Some (Normal tt, s') /\
    logQueue s'
    = logQueue demo_started ++ [mkLogEntry Warn "[WARN] low disk" "" (now demo_env_full) None] /\
    errorHashes s' = errorHashes demo_started /\
    storage s' = storage demo_started /\
    console s' = console demo_started
                 ++ [mkConsoleLine ConsoleError "[Logger] Failed to save queue:"
                       [ArgError (NativeError "MMKV set failed")]].
Proof.
  split; [reflexivity|]. split; [discriminate|].
  apply (queueLog_survives_rejected_write demo_env_full Warn "[WARN] low disk" "" demo_started);
    [reflexivity | discriminate].
Defined.

(** ** The flush timer *)

Lemma one_timer_frame s s' :
  same_remote_and_timers s s' -> one_timer s -> one_timer s'.
Proof. intros (_ & Ht & Hi & _). unfold one_timer. by rewrite Ht, Hi. Qed.

Lemma flushed_frame env s : same_remote_and_timers s (flushed env s) \/
                            (timerHandle (flushed env s) = timerHandle s /\
                             intervals (flushed env s) = intervals s).
Proof.
  right. unfold flushed. destruct (logQueue s); [done|]. cbv zeta.
  destruct (remote_accepts env _ _); [|done].
  cbn [with_console timerHandle intervals set_console].
  match goal with |- context [saved env ?x] =>
    destruct (saved_frame env x) as (_ & -> & -> & _) end. done.
Qed.

Lemma flushed_timers env s :
  timerHandle (flushed env s) = timerHandle s /\ intervals (flushed env s) = intervals s.
Proof. by destruct (flushed_frame env s) as [(_ & ? & ? & _)|?]. Qed.

Lemma initialized_one_timer env s s' :
  initialized env (fresh s) = Some s' -> one_timer s'.
Proof.
  unfold initialized. destruct (setup_calls env (fresh s)) as [|c1 calls]; [done|]. cbv zeta.
  destruct (remote_ok env _ _); [|by intros [= <-]].
  destruct (storage_get_ok env "userID"); [|by intros [= <-]].
  destruct (remote_accepts env _ _); [|by intros [= <-]].
  match goal with |- context [restored env ?st] => destruct (restored env st) as [s1|] eqn:Hr end;
    [|done].
  intros [= <-]. destruct (restored_frame _ _ _ Hr) as (_ & _ & Ht & Hi & Hn).
  unfold one_timer, timer_started.
  cbn [timerHandle intervals set_timerHandle set_intervals]. rewrite Ht, Hi, Hn.
  cbn [with_console set_console set_crashlytics fresh timerHandle intervals next_interval].
  by rewrite insert_empty.
Qed.

Lemma step_one_timer env op s s' :
  one_timer s -> step env op s = Some s' -> one_timer s'.
Proof.
  intros Hone Hstep.
  destruct op;
    try (apply (one_timer_frame s); [|exact Hone];
         match type of Hstep with step env ?op s = _ =>
           apply (recording_frame env op s s' I Hstep) end).
  - rewrite step_spec in Hstep. by eapply initialized_one_timer.
  - rewrite step_spec in Hstep. unfold stepped in Hstep. apply (inj Some) in Hstep. subst s'.
    destruct (flushed_timers env s) as [Ht Hi]. unfold one_timer. by rewrite Ht, Hi.
  - rewrite step_spec in Hstep. unfold stepped in Hstep. apply (inj Some) in Hstep. subst s'.
    destruct (timerHandle s) as [t|] eqn:Hh; [|done].
    case_bool_decide; [|done].
    destruct (flushed_timers env s) as [Ht Hi]. unfold one_timer in *. by rewrite Ht, Hi.
Qed.

Lemma reachable_by_one_timer allowed s : reachable_by allowed s -> one_timer s.
Proof.
  induction 1 as [st Hst|s env op s' _ IH Hop Henv Hstep]; [done|].
  by eapply step_one_timer.
Qed.

(** X10: [startFlushTimer] stops the timer the logger holds, if any,
    before it starts the new one: the new handle runs with a period of one
    hour, the old handle no longer runs, and timers of other owners are not
    touched.  Repeated calls therefore never leave two flush timers
    running. *)
Theorem startFlushTimer_replaces_timer s :
  timers_allocated s ->
  exists s' t',
    startFlushTimer s = Some (Normal tt, s') /\
    timerHandle s' = Some t' /\
    intervals s' !! t' = Some 3600000 /\
    (forall t, timerHandle s = Some t -> intervals s' !! t = None) /\
    (forall u, u <> t' -> timerHandle s <> Some u -> intervals s' !! u = intervals s !! u) /\
    timers_allocated s' /\
    (one_timer s -> one_timer s').
Proof.
  intros [Hrun Hheld]. rewrite startFlushTimer_spec.
  exists (timer_started s), (next_interval s). split; [reflexivity|].
  unfold timer_started.
  cbn [timerHandle intervals next_interval set_timerHandle set_intervals].
  split; [reflexivity|]. split; [by rewrite lookup_insert_eq|]. split_and!.
  - intros t Ht. rewrite Ht. specialize (Hheld t Ht).
    rewrite lookup_insert_ne by lia. by rewrite lookup_delete_eq.
  - intros u Hu Hnot. rewrite lookup_insert_ne by done.
    destruct (timerHandle s) as [t|]; [|done]. rewrite lookup_delete_ne; [done|].
    intros ->. by apply Hnot.
  - split; cbn [timerHandle intervals next_interval set_timerHandle set_intervals].
    + intros t. destruct (decide (t = next_interval s)) as [->|Hne]; [lia|].
      rewrite lookup_insert_ne by done. intros Hsome.
      assert (t < next_interval s)%positive; [|lia]. apply Hrun.
      destruct (timerHandle s) as [t0|]; [|done].
      destruct (decide (t = t0)) as [->|Hne']; [by rewrite lookup_delete_eq in Hsome|].
      by rewrite lookup_delete_ne in Hsome.
    + intros t [= <-]. lia.
  - unfold one_timer. intros ->. destruct (timerHandle s) as [t|].
    + by rewrite delete_singleton_eq, insert_empty.
    + by rewrite insert_empty.
Qed.

Lemma startFlushTimer_replaces_timer_witness :
  timers_allocated demo_timers /\
  exists s' t',
    startFlushTimer demo_timers = Some (Normal tt, s') /\
    timerHandle s' = Some t' /\
    intervals s' !! t' = Some 3600000 /\
    (forall t, timerHandle demo_timers = Some t -> intervals s' !! t = None) /\
    (forall u, u <> t' -> timerHandle demo_timers <> Some u ->
               intervals s' !! u = intervals demo_timers !! u) /\
    timers_allocated s' /\
    (one_timer demo_timers -> one_timer s').
Proof.
  assert (timers_allocated demo_timers) as Halloc.
  { split.
    - intros t. cbn [demo_timers intervals next_interval].
      destruct (decide (t = 1%positive)) as [->|H1]; [lia|].
      destruct (decide (t = 2%positive)) as [->|H2]; [lia|].
      destruct (decide (t = 3%positive)) as [->|H3]; [lia|].
      rewrite !lookup_insert_ne by done. rewrite lookup_singleton_ne by done.
      by intros [? ?].
    - intros t [= <-]. cbn. lia. }
  split; [exact Halloc|]. apply (startFlushTimer_replaces_timer demo_timers Halloc).
Defined.

(** X11: in every reachable state at most one interval timer runs: the
    one whose handle the logger holds, with a period of one hour; when the
    logger holds no handle (initialization failed) no timer runs at all. *)
Theorem reachable_one_flush_timer s :
  reachable s ->
  intervals s = match timerHandle s with
                | Some t => {[t := 3600000]}
                | None => ∅
                end.
Proof. intros Hs. by apply (reachable_by_one_timer (fun _ => True) s). Qed.

Lemma reachable_one_flush_timer_witness :
  reachable demo_queued /\
  intervals demo_queued = match timerHandle demo_queued with
                          | Some t => {[t := 3600000]}
                          | None => ∅
                          end.
Proof.
  split; [by apply demo_queued_reachable|].
  apply (reachable_one_flush_timer demo_queued). by apply demo_queued_reachable.
Defined.

(** ** Flushes, one after the other *)

Lemma flushed_logQueue env s :
  logQueue (flushed env s)
  = if remote_accepts env (crashlytics s) (delivery_plan (logQueue s)) then [] else logQueue s.
Proof.
  unfold flushed. destruct (logQueue s) as [|e q] eqn:Hq.
  - rewrite Hq. by destruct (remote_accepts env _ _).
  - cbv zeta. destruct (remote_accepts env _ _); [|done].
    cbn [with_console logQueue set_console]. by rewrite saved_logQueue.
Qed.

Lemma flushed_errorHashes env s :
  errorHashes (flushed env s)
  = match logQueue s with
    | [] => errorHashes s
    | _ :: _ => if remote_accepts env (crashlytics s) (delivery_plan (logQueue s))
                then ∅ else errorHashes s
    end.
Proof.
  unfold flushed. destruct (logQueue s) as [|e q] eqn:Hq; [done|]. cbv zeta.
  destruct (remote_accepts env _ _); [|done].
  cbn [with_console errorHashes set_console]. by rewrite saved_errorHashes.
Qed.

Lemma accepted_prefix_prefix env history calls :
  accepted_prefix env history calls `prefix_of` calls.
Proof.
  revert history. induction calls as [|c calls IH]; intros history; [done|].
  cbn [accepted_prefix]. destruct (remote_ok env history c); [|apply prefix_nil].
  by apply prefix_cons.
Qed.

(** X12: delivery is at-least-once.  When a flush fails part-way, the
    calls accepted before the failure stay delivered and the queue is kept,
    so the next flush that succeeds sends the whole batch again from its
    first entry: the calls accepted by the failed attempt reach the remote
    service twice. *)
Theorem failed_flush_is_redelivered env env' s :
  remote_accepts env (crashlytics s) (delivery_plan (logQueue s)) = false ->
  remote_accepts env'
    (crashlytics s ++ accepted_prefix env (crashlytics s) (delivery_plan (logQueue s)))
    (delivery_plan (logQueue s)) = true ->
  exists s1 s2,
    flushLogs env s = Some (Normal tt, s1) /\
    flushLogs env' s1 = Some (Normal tt, s2) /\
    accepted_prefix env (crashlytics s) (delivery_plan (logQueue s))
      `prefix_of` delivery_plan (logQueue s) /\
    crashlytics s2
    = crashlytics s ++ accepted_prefix env (crashlytics s) (delivery_plan (logQueue s))
      ++ delivery_plan (logQueue s) /\
    logQueue s2 = [].
Proof.
  intros Hfail Hok. rewrite flushLogs_spec. exists (flushed env s).
  rewrite flushLogs_spec. exists (flushed env' (flushed env s)).
  split; [done|]. split; [done|]. split; [apply accepted_prefix_prefix|].
  rewrite flushed_logQueue, flushed_crashlytics. rewrite flushed_logQueue, Hfail.
  rewrite flushed_crashlytics, Hok. split; [|done].
  rewrite (accepted_prefix_all _ _ _ Hok). by rewrite <- app_assoc.
Qed.

Lemma failed_flush_is_redelivered_witness :
  remote_accepts demo_env_one_call (crashlytics demo_queued)
    (delivery_plan (logQueue demo_queued)) = false /\
  remote_accepts demo_env
    (crashlytics demo_queued
     ++ accepted_prefix demo_env_one_call (crashlytics demo_queued)
          (delivery_plan (logQueue demo_queued)))
    (delivery_plan (logQueue demo_queued)) = true /\
  exists s1 s2,
    flushLogs demo_env_one_call demo_queued = Some (Normal tt, s1) /\
    flushLogs demo_env s1 = Some (Normal tt, s2) /\
    accepted_prefix demo_env_one_call (crashlytics demo_queued)
      (delivery_plan (logQueue demo_queued))
      `prefix_of` delivery_plan (logQueue demo_queued) /\
    crashlytics s2
    = crashlytics demo_queued
      ++ accepted_prefix demo_env_one_call (crashlytics demo_queued)
           (delivery_plan (logQueue demo_queued))
      ++ delivery_plan (logQueue demo_queued) /\
    logQueue s2 = [].
Proof.
  split; [by vm_compute|]. split; [by vm_compute|].
  apply (failed_flush_is_redelivered demo_env_one_call demo_env demo_queued); by vm_compute.
Defined.

Example failed_flush_duplicates :
  accepted_prefix demo_env_one_call (crashlytics demo_queued)
    (delivery_plan (logQueue demo_queued))
  = [CrashlyticsLog "[LOG] [LOG] hello "].
Proof. by vm_compute. Qed.

(** X13: a flush that succeeds leaves nothing to send: a second flush
    right after it makes no remote call and changes nothing. *)
Theorem second_flush_sends_nothing env env' s :
  remote_accepts env (crashlytics s) (delivery_plan (logQueue s)) = true ->
  exists s1,
    flushLogs env s = Some (Normal tt, s1) /\
    forceFlush env' s1 = Some (Normal tt, s1).
Proof.
  intros Hok. rewrite flushLogs_spec. exists (flushed env s). split; [done|].
  unfold forceFlush. rewrite flushLogs_spec. do 2 f_equal.
  pose proof (flushed_logQueue env s) as Hq. rewrite Hok in Hq.
  unfold flushed at 1. by rewrite Hq.
Qed.

Lemma second_flush_sends_nothing_witness :
  remote_accepts demo_env (crashlytics demo_queued) (delivery_plan (logQueue demo_queued)) = true /\
  exists s1,
    flushLogs demo_env demo_queued = Some (Normal tt, s1) /\
    forceFlush demo_env_no_record s1 = Some (Normal tt, s1).
Proof.
  split; [by vm_compute|].
  apply (second_flush_sends_nothing demo_env demo_env_no_record demo_queued). by vm_compute.
Defined.

(** X14: deduplication lasts until the next successful flush only: after
    it, every error is queued again, also one that was queued (and sent)
    before. *)
Theorem flush_reopens_dedupe_window env env' m ps s :
  reachable s ->
  remote_accepts env (crashlytics s) (delivery_plan (logQueue s)) = true ->
  exists s1 s2 p,
    flushLogs env s = Some (Normal tt, s1) /\
    error env' m ps s1 = Some (Normal tt, s2) /\
    logQueue s2 = [mkLogEntry Error ("[ERROR] " +:+ m) p (now env')
                     (Some (("[ERROR] " +:+ m) +:+ ":" +:+ p))].
Proof.
  intros (Hd & _)%reachable_logger_invariant Hok.
  rewrite flushLogs_spec. exists (flushed env s). rewrite error_spec.
  eexists _, (formatted ps). split; [done|]. split; [reflexivity|].
  unfold queued.
  match goal with |- context [format_logged ps ?x] =>
    destruct (format_logged_fields ps x) as (Hq & Hh & _) end.
  cbn [with_console logQueue errorHashes set_console] in Hq, Hh.
  rewrite Hh, Hq, flushed_errorHashes, flushed_logQueue, Hok.
  assert (match logQueue s with [] => errorHashes s | _ :: _ => ∅ end = ∅) as ->.
  { destruct (logQueue s) eqn:Hqs; [|done]. unfold dedupe_invariant in Hd. by rewrite Hd, Hqs. }
  rewrite bool_decide_eq_false_2 by set_solver.
  by rewrite saved_logQueue.
Qed.

Lemma flush_reopens_dedupe_window_witness :
  reachable demo_queued /\
  remote_accepts demo_env (crashlytics demo_queued) (delivery_plan (logQueue demo_queued)) = true /\
  exists s1 s2 p,
    flushLogs demo_env demo_queued = Some (Normal tt, s1) /\
    error demo_env "boom" [VNumber 3] s1 = Some (Normal tt, s2) /\
    logQueue s2 = [mkLogEntry Error ("[ERROR] " +:+ "boom") p (now demo_env)
                     (Some (("[ERROR] " +:+ "boom") +:+ ":" +:+ p))].
Proof.
  split; [by apply demo_queued_reachable|]. split; [by vm_compute|].
  apply (flush_reopens_dedupe_window demo_env demo_env "boom" [VNumber 3] demo_queued);
    [by apply demo_queued_reachable | by vm_compute].
Defined.

(** ** Fingerprints *)

Lemma formatted_one_string q : formatted [VString q] = q.
Proof. reflexivity. Qed.

Lemma formatted_two_strings a b : formatted [VString a; VString b] = a +:+ " " +:+ b.
Proof. reflexivity. Qed.

Lemma error_duplicate env m ps s :
  generateErrorHash ("[ERROR] " +:+ m) (formatted ps) ∈ errorHashes s ->
  exists s',
    error env m ps s = Some (Normal tt, s') /\
    logQueue s' = logQueue s /\ errorHashes s' = errorHashes s /\ storage s' = storage s.
Proof.
  intros Hin. rewrite error_spec. eexists. split; [reflexivity|]. unfold queued.
  match goal with |- context [format_logged ps ?x] =>
    destruct (format_logged_fields ps x) as (Hq & Hh & Hst) end.
  rewrite Hh. cbn [with_console errorHashes set_console].
  rewrite bool_decide_eq_true_2 by done.
  cbn [with_console logQueue errorHashes storage set_console]. by rewrite Hq, Hh, Hst.
Qed.

Lemma error_adds_fingerprint env m ps s :
  exists s',
    error env m ps s = Some (Normal tt, s') /\
    generateErrorHash ("[ERROR] " +:+ m) (formatted ps) ∈ errorHashes s'.
Proof.
  rewrite error_spec. eexists. split; [reflexivity|]. unfold queued.
  match goal with |- context [format_logged ps ?x] =>
    destruct (format_logged_fields ps x) as (Hq & Hh & Hst) end.
  case_bool_decide as Hin.
  - cbn [with_console errorHashes set_console]. done.
  - rewrite saved_errorHashes. cbn [errorHashes set_logQueue set_errorHashes].
    by apply elem_of_union_l, elem_of_singleton.
Qed.

(** X15: the fingerprint is the plain concatenation of message, colon
    and formatted arguments, so different errors can share it, and the later
    one is then dropped as a duplicate: (1) a colon can sit in the message
    or in the argument; (2) two string arguments and their space-joined text
    as one argument format alike. *)
Theorem distinct_errors_can_collide env env' m p q s :
  (exists s1 s2,
     error env (m +:+ ":" +:+ p) [VString q] s = Some (Normal tt, s1) /\
     error env' m [VString (p +:+ ":" +:+ q)] s1 = Some (Normal tt, s2) /\
     logQueue s2 = logQueue s1 /\ errorHashes s2 = errorHashes s1 /\ storage s2 = storage s1) /\
  (exists s1 s2,
     error env m [VString p; VString q] s = Some (Normal tt, s1) /\
     error env' m [VString (p +:+ " " +:+ q)] s1 = Some (Normal tt, s2) /\
     logQueue s2 = logQueue s1 /\ errorHashes s2 = errorHashes s1 /\ storage s2 = storage s1).
Proof.
  split.
  - destruct (error_adds_fingerprint env (m +:+ ":" +:+ p) [VString q] s) as (s1 & Hrun & Hin).
    destruct (error_duplicate env' m [VString (p +:+ ":" +:+ q)] s1) as (s2 & Hrun' & Hsame).
    { rewrite formatted_one_string in *. unfold generateErrorHash in *.
      by rewrite !append_assoc in *. }
    by exists s1, s2.
  - destruct (error_adds_fingerprint env m [VString p; VString q] s) as (s1 & Hrun & Hin).
    destruct (error_duplicate env' m [VString (p +:+ " " +:+ q)] s1) as (s2 & Hrun' & Hsame).
    { by rewrite formatted_one_string, <- formatted_two_strings. }
    by exists s1, s2.
Qed.

Lemma append_inj_colon_free m m' p p' :
  has_colon m = false -> has_colon m' = false ->
  m +:+ ":" +:+ p = m' +:+ ":" +:+ p' -> m = m' /\ p = p'.
Proof.
  revert m'. induction m as [|c m IH]; intros [|c' m'] Hm Hm'.
  - change (String ":" p = String ":" p' -> "" = "" /\ p = p'). by intros [= ->].
  - change (String ":" p = String c' (m' +:+ ":" +:+ p') -> "" = String c' m' /\ p = p').
    intros [= <- _]. cbn in Hm'. done.
  - change (String c (m +:+ ":" +:+ p) = String ":" p' -> String c m = "" /\ p = p').
    intros [= -> _]. cbn in Hm. done.
  - change (String c (m +:+ ":" +:+ p) = String c' (m' +:+ ":" +:+ p')
            -> String c m = String c' m' /\ p = p').
    intros [= -> Heq].
    cbn [has_colon] in Hm, Hm'. apply orb_false_iff in Hm as [_ Hm].
    apply orb_false_iff in Hm' as [_ Hm'].
    destruct (IH m' Hm Hm' Heq) as [-> ->]. done.
Qed.

(** X16: when the messages of two [error] calls contain no colon, their
    fingerprints are equal only if the messages are equal and the formatted
    arguments are equal: such errors are never mistaken for one another. *)
Theorem colon_free_fingerprints_are_exact m m' p p' :
  has_colon m = false ->
  has_colon m' = false ->
  generateErrorHash ("[ERROR] " +:+ m) p = generateErrorHash ("[ERROR] " +:+ m') p' ->
  m = m' /\ p = p'.
Proof.
  intros Hm Hm'. unfold generateErrorHash. intros Heq.
  destruct (append_inj_colon_free ("[ERROR] " +:+ m) ("[ERROR] " +:+ m') p p') as [Hmm ->];
    [by rewrite !append_cons, append_nil_l..| done |].
  split; [|done]. rewrite !append_cons, !append_nil_l in Hmm. by injection Hmm.
Qed.

Lemma colon_free_fingerprints_are_exact_witness :
  has_colon "disk full" = false /\
  has_colon "disk full" = false /\
  generateErrorHash ("[ERROR] " +:+ "disk full") "3" = generateErrorHash ("[ERROR] " +:+ "disk full") "3" /\
  "disk full" = "disk full" /\ "3" = "3".
Proof.
  split; [reflexivity|]. split; [reflexivity|]. split; [reflexivity|].
  apply (colon_free_fingerprints_are_exact "disk full" "disk full" "3" "3"); reflexivity.
Defined.

(** ** What the store holds *)

Lemma queued_synced env t m p s :
  (forall text, storage_set_ok env QUEUE_KEY text = true) ->
  logQueue (queued env t m p s) <> logQueue s ->
  storage (queued env t m p s) !! QUEUE_KEY = Some (queue_text (logQueue (queued env t m p s))).
Proof.
  intros Hset. unfold queued.
  destruct t; [| case_bool_decide; [done|] |]; intros _;
    rewrite saved_storage, saved_logQueue, Hset; apply lookup_insert_eq.
Qed.

Lemma recording_synced env op s s' :
  (forall text, storage_set_ok env QUEUE_KEY text = true) ->
  recording op ->
  step env op s = Some s' ->
  logQueue s' <> logQueue s ->
  storage s' !! QUEUE_KEY = Some (queue_text (logQueue s')).
Proof.
  intros Hset Hop. rewrite step_spec.
  destruct op; try done; unfold stepped; intros Hs; apply (inj Some) in Hs; subst s'.
  - by apply queued_synced.
  - match goal with |- context [format_logged ?ps ?x] =>
      destruct (format_logged_fields ps x) as (Hq & _) end.
    cbn [with_console logQueue set_console] in Hq. rewrite <- Hq. by apply queued_synced.
  - match goal with |- context [format_logged ?ps ?x] =>
      destruct (format_logged_fields ps x) as (Hq & _) end.
    cbn [with_console logQueue set_console] in Hq. rewrite <- Hq. by apply queued_synced.
  - match goal with |- context [format_logged ?ps ?x] =>
      destruct (format_logged_fields ps x) as (Hq & _) end.
    cbn [with_console logQueue set_console] in Hq. rewrite <- Hq. by apply queued_synced.
  - by destruct (DEV env).
Qed.

Lemma restored_synced env s :
  storage_get_ok env QUEUE_KEY = true ->
  forall q,
  Forall wf_entry q ->
  storage s !! QUEUE_KEY = Some (queue_text q) ->
  exists s', restored env s = Some s' /\
             logQueue s' = q /\ errorHashes s' = error_hashes q ∪ errorHashes s.
Proof.
  intros Hget q Hwf Hst.
  destruct (restored_stringified env s q (queue_text q) Hget Hst Hwf (stringify_queue q))
    as (s' & Hrun & Hq & Hh).
  rewrite restoreQueue_spec in Hrun. destruct (restored env s) as [s0|]; [|done].
  injection Hrun as ->. exists s'. by rewrite <- (restored_hashes_wf q Hwf).
Qed.

(** X17: an entry that was recorded and written to the store survives a
    restart: when the process starts again and initialization succeeds, the
    queue and the dedupe set are what they were after the recording, and the
    flush timer runs. *)
Theorem recorded_entry_survives_restart env env' op s s1 :
  reachable s ->
  valid_env env ->
  recording op ->
  step env op s = Some s1 ->
  logQueue s1 <> logQueue s ->
  (forall text, storage_set_ok env QUEUE_KEY text = true) ->
  storage_get_ok env' "userID" = true ->
  storage_get_ok env' QUEUE_KEY = true ->
  remote_accepts env' (crashlytics s1) (setup_calls env' s1) = true ->
  exists s2,
    constructor env' s1 = Some (Normal tt, s2) /\
    logQueue s2 = logQueue s1 /\
    errorHashes s2 = errorHashes s1 /\
    storage s2 = storage s1 /\
    exists t, timerHandle s2 = Some t /\ intervals s2 = {[t := 3600000]}.
Proof.
  intros Hs Henv Hop Hstep Hgrew Hset Hid Hget Hacc.
  assert (reachable s1) as Hs1 by (by eapply reachable_step).
  destruct (reachable_logger_invariant s1 Hs1) as (Hd & Hwf & _ & _).
  pose proof (recording_synced env op s s1 Hset Hop Hstep Hgrew) as Hsync.
  rewrite constructor_spec, initialized_accepted by done.
  destruct (restored_synced env' (identified env' (fresh s1)) Hget (logQueue s1) Hwf Hsync)
    as (s2 & Hr & Hq & Hh).
  rewrite Hr. cbn [fmap option_fmap option_map completed]. eexists. split; [reflexivity|].
  destruct (restored_frame _ _ _ Hr) as (Hst & _ & Ht & Hi & Hn).
  split_and!.
  - exact Hq.
  - change (errorHashes (timer_started s2)) with (errorHashes s2). rewrite Hh.
    cbn [identified fresh with_console errorHashes set_console set_crashlytics].
    by rewrite (right_id_L ∅ (∪)).
  - change (storage (timer_started s2)) with (storage s2). by rewrite Hst.
  - exists 1%positive. unfold timer_started.
    cbn [timerHandle intervals set_timerHandle set_intervals]. rewrite Ht, Hi, Hn.
    cbn [identified fresh with_console set_console set_crashlytics timerHandle intervals
         next_interval].
    split; [done|]. by rewrite insert_empty.
Qed.

Lemma recorded_entry_survives_restart_witness :
  reachable demo_started /\
  valid_env demo_env /\
  recording (CallError "boom" [VNumber 3]) /\
  step demo_env (CallError "boom" [VNumber 3]) demo_started = Some demo_failed /\
  logQueue demo_failed <> logQueue demo_started /\
  (forall text, storage_set_ok demo_env QUEUE_KEY text = true) /\
  storage_get_ok scenario_env "userID" = true /\
  storage_get_ok scenario_env QUEUE_KEY = true /\
  remote_accepts scenario_env (crashlytics demo_failed) (setup_calls scenario_env demo_failed)
  = true /\
  exists s2,
    constructor scenario_env demo_failed = Some (Normal tt, s2) /\
    logQueue s2 = logQueue demo_failed /\
    errorHashes s2 = errorHashes demo_failed /\
    storage s2 = storage demo_failed /\
    exists t, timerHandle s2 = Some t /\ intervals s2 = {[t := 3600000]}.
Proof.
  assert (reachable demo_started) as Hs.
  { apply (reachable_step _ (installed ∅) demo_env Construct);
      [by apply reachable_installed | done | apply demo_env_valid | by vm_compute]. }
  assert (logQueue demo_failed <> logQueue demo_started) as Hgrew by (by vm_compute).
  split; [exact Hs|]. split; [apply demo_env_valid|]. split; [exact I|].
  split; [by vm_compute|]. split; [exact Hgrew|]. split; [reflexivity|].
  split; [reflexivity|]. split; [reflexivity|]. split; [by vm_compute|].
  apply (recorded_entry_survives_restart demo_env scenario_env (CallError "boom" [VNumber 3])
           demo_started demo_failed);
    [exact Hs | apply demo_env_valid | exact I | by vm_compute | exact Hgrew | reflexivity
    | reflexivity | reflexivity | by vm_compute].
Defined.

(** X18: whatever a reachable state holds under the queue key can be
    restored: it is the serialization of a queue of well-formed entries,
    [JSON.parse] accepts it, and the parsed value is that queue. *)
Theorem stored_queue_is_always_restorable s text :
  reachable s ->
  storage s !! QUEUE_KEY = Some text ->
  exists q,
    Forall wf_entry q /\
    JSON_stringify (queue_value q) = Normal (Some text) /\
    forall s0, JSON_parse_LogEntries text s0 = Some (Normal q, s0).
Proof.
  intros (_ & _ & _ & Hp)%reachable_logger_invariant Hst.
  destruct (Hp text Hst) as (q & Hwf & _ & Hser). exists q. split_and!; [done..|].
  intros s0. by rewrite (JSON_parse_LogEntries_stringify q text Hwf Hser).
Qed.

Lemma stored_queue_is_always_restorable_witness :
  reachable demo_queued /\
  storage demo_queued !! QUEUE_KEY = Some (queue_text (logQueue demo_queued)) /\
  exists q,
    Forall wf_entry q /\
    JSON_stringify (queue_value q) = Normal (Some (queue_text (logQueue demo_queued))) /\
    forall s0, JSON_parse_LogEntries (queue_text (logQueue demo_queued)) s0 = Some (Normal q, s0).
Proof.
  split; [by apply demo_queued_reachable|]. split; [by vm_compute|].
  apply (stored_queue_is_always_restorable demo_queued);
    [by apply demo_queued_reachable | by vm_compute].
Defined.

(** X19: every entry in the queue of a reachable state is well formed:
    its timestamp is a time value, an error entry carries the fingerprint
    of its own message and arguments, and an entry of another kind carries
    none. *)
Theorem queued_entries_are_well_formed s entry :
  reachable s ->
  entry ∈ logQueue s ->
  -8640000000000000 <= timestamp entry <= 8640000000000000 /\
  hash entry = match type entry with
               | Error => Some (message entry +:+ ":" +:+ params entry)
               | _ => None
               end.
Proof.
  intros (_ & Hwf & _)%reachable_logger_invariant Hin.
  by apply (proj1 (Forall_forall _ _) Hwf entry Hin).
Qed.

Lemma queued_entries_are_well_formed_witness :
  reachable demo_queued /\
  demo_entry ∈ logQueue demo_queued /\
  -8640000000000000 <= timestamp demo_entry <= 8640000000000000 /\
  hash demo_entry = match type demo_entry with
                    | Error => Some (message demo_entry +:+ ":" +:+ params demo_entry)
                    | _ => None
                    end.
Proof.
  assert (demo_entry ∈ logQueue demo_queued) as Hin.
  { rewrite demo_queued_queue. apply elem_of_cons. right. apply elem_of_cons. by left. }
  split; [by apply demo_queued_reachable|]. split; [exact Hin|].
  apply (queued_entries_are_well_formed demo_queued demo_entry);
    [by apply demo_queued_reachable | exact Hin].
Defined.

Lemma initialized_rejected env s :
  remote_accepts env (crashlytics s) (setup_calls env s) = false ->
  exists s' sent,
    initialized env s = Some s' /\
    logQueue s' = logQueue s /\ errorHashes s' = errorHashes s /\ storage s' = storage s /\
    timerHandle s' = timerHandle s /\ intervals s' = intervals s /\
    crashlytics s' = crashlytics s ++ sent /\ sent `prefix_of` setup_calls env s.
Proof.
  intros Hrej. unfold initialized.
  destruct (setup_calls env s) as [|c1 calls]; [done|].
  rewrite remote_accepts_cons in Hrej. cbv zeta.
  destruct (remote_ok env (crashlytics s) c1); cbn [andb] in Hrej.
  - destruct (storage_get_ok env "userID").
    + cbn [with_console set_console set_crashlytics crashlytics]. rewrite Hrej.
      exists (init_failed rejected
                (set_crashlytics
                   ((crashlytics s ++ [c1])
                    ++ accepted_prefix env (crashlytics s ++ [c1]) calls)
                   (with_console ConsoleLog
                      "[Logger] Crashlytics initialized successfully as remote logging service"
                      [] (set_crashlytics (crashlytics s ++ [c1]) s)))),
             (c1 :: accepted_prefix env (crashlytics s ++ [c1]) calls).
      split_and!; try done.
      * cbn [init_failed with_console crashlytics set_console set_crashlytics].
        by rewrite <- app_assoc.
      * apply prefix_cons, accepted_prefix_prefix.
    + exists (init_failed storage_unreadable
                (with_console ConsoleLog
                   "[Logger] Crashlytics initialized successfully as remote logging service"
                   [] (set_crashlytics (crashlytics s ++ [c1]) s))), [c1].
      split_and!; try done. apply prefix_cons, prefix_nil.
  - exists (init_failed rejected s), []. split_and!; try done.
    + cbn [init_failed with_console crashlytics set_console]. by rewrite app_nil_r.
    + apply prefix_nil.
Qed.

Lemma log_fields env m ps s :
  exists s',
    log env m ps s = Some (Normal tt, s') /\
    logQueue s' = logQueue s ++ [mkLogEntry Log ("[LOG] " +:+ m) (formatted ps) (now env) None] /\
    errorHashes s' = errorHashes s /\
    crashlytics s' = crashlytics s /\
    (forall key, key <> QUEUE_KEY -> storage s' !! key = storage s !! key) /\
    ((forall text, storage_set_ok env QUEUE_KEY text = true) ->
     storage s' !! QUEUE_KEY = Some (queue_text (logQueue s'))).
Proof.
  rewrite log_spec. eexists. split; [reflexivity|].
  match goal with |- context [format_logged ps ?x] =>
    destruct (format_logged_fields ps x) as (Hq & Hh & Hst);
    destruct (format_logged_frame ps x) as (Hc & _) end.
  cbn [with_console logQueue errorHashes storage crashlytics set_console] in Hq, Hh, Hst, Hc.
  match goal with |- context [queued env Log ?m' ?p ?x] =>
    destruct (queued_not_error env Log m' p x) as [Hq' Hh']; [done|];
    destruct (queued_frame env Log m' p x) as (Hc' & _) end.
  rewrite Hq', Hh', Hc', Hq, Hh, Hc. split_and!; try done.
  - intros key Hne. by rewrite queued_storage_other, Hst.
  - intros Hset. rewrite <- Hq, <- Hq'. apply queued_synced; [done|].
    rewrite Hq'. intros Heq. apply (f_equal length) in Heq. rewrite length_app in Heq.
    cbn [length] in Heq. lia.
Qed.

(** X20: when initialization fails, the queue saved by the previous run
    is not restored (the in-memory queue stays empty, and only setup calls
    have been sent), and the next entry that is recorded replaces the saved
    queue in the store: afterwards the queue and the store hold that one
    entry only. *)
Theorem failed_init_then_log_overwrites_saved_queue env env1 m ps s :
  remote_accepts env (crashlytics s) (setup_calls env s) = false ->
  (forall text, storage_set_ok env1 QUEUE_KEY text = true) ->
  exists s1 s2 sent entry,
    constructor env s = Some (Normal tt, s1) /\
    logQueue s1 = [] /\
    storage s1 = storage s /\
    crashlytics s1 = crashlytics s ++ sent /\
    sent `prefix_of` setup_calls env s /\
    log env1 m ps s1 = Some (Normal tt, s2) /\
    message entry = "[LOG] " +:+ m /\
    logQueue s2 = [entry] /\
    JSON_stringify (queue_value [entry]) = Normal (storage s2 !! QUEUE_KEY) /\
    crashlytics s2 = crashlytics s1.
Proof.
  intros Hrej Hset. rewrite constructor_spec.
  destruct (initialized_rejected env (fresh s)) as (s1 & sent & -> & Hq1 & _ & Hst1 & _ & _ & Hc1 & Hsent);
    [done|].
  destruct (log_fields env1 m ps s1) as (s2 & Hlog & Hq2 & _ & Hc2 & _ & Hsync).
  rewrite Hq1 in Hq2. cbn [fresh logQueue app] in Hq2.
  exists s1, s2, sent, (mkLogEntry Log ("[LOG] " +:+ m) (formatted ps) (now env1) None).
  split; [done|]. split; [done|]. split; [done|]. split; [done|]. split; [done|].
  split; [done|]. split; [done|]. split; [done|].
  split; [|done]. rewrite (Hsync Hset), Hq2. apply stringify_queue.
Qed.

Lemma failed_init_then_log_overwrites_saved_queue_witness :
  remote_accepts demo_env_no_user (crashlytics demo_stored)
    (setup_calls demo_env_no_user demo_stored) = false /\
  (forall text, storage_set_ok demo_env QUEUE_KEY text = true) /\
  exists s1 s2 sent entry,
    constructor demo_env_no_user demo_stored = Some (Normal tt, s1) /\
    logQueue s1 = [] /\
    storage s1 = storage demo_stored /\
    crashlytics s1 = crashlytics demo_stored ++ sent /\
    sent `prefix_of` setup_calls demo_env_no_user demo_stored /\
    log demo_env "again" [] s1 = Some (Normal tt, s2) /\
    message entry = "[LOG] " +:+ "again" /\
    logQueue s2 = [entry] /\
    JSON_stringify (queue_value [entry]) = Normal (storage s2 !! QUEUE_KEY) /\
    crashlytics s2 = crashlytics s1.
Proof.
  split; [reflexivity|]. split; [reflexivity|].
  apply (failed_init_then_log_overwrites_saved_queue demo_env_no_user demo_env "again" []
           demo_stored); reflexivity.
Defined.

(** ** Calls in progress *)

Lemma flush_finish_spec env s : flush_finish env s = Some (Normal Done, flush_cleared env s).
Proof. unfold flush_finish, bind, modify. by rewrite saveQueue_spec. Qed.

Lemma set_crashlytics_twice c1 c2 s :
  set_crashlytics c1 (set_crashlytics c2 s) = set_crashlytics c1 s.
Proof. reflexivity. Qed.

Lemma await_call_accepted env c (rest : M Async) s :
  remote_ok env (crashlytics s) c = true ->
  flush_try (crashlytics_call env c >> rest) s
  = flush_try rest (set_crashlytics (crashlytics s ++ [c]) s).
Proof. intros Hc. unfold flush_try, try_catch, bind, crashlytics_call. by rewrite Hc. Qed.

Lemma await_call_rejected env c (rest : M Async) s :
  remote_ok env (crashlytics s) c = false ->
  flush_try (crashlytics_call env c >> rest) s
  = Some (Normal Done,
          with_console ConsoleError "[Logger] Failed to flush logs:" [ArgError rejected] s).
Proof. intros Hc. unfold flush_try, try_catch, bind, crashlytics_call. by rewrite Hc. Qed.

Lemma flush_try_suspended a s : flush_try (ret a) s = Some (Normal a, s).
Proof. reflexivity. Qed.

Lemma flush_errors_flushing errorLogs :
  errorLogs <> [] ->
  exists a, (forall env0 s0, flush_errors_async errorLogs env0 s0 = Some (Normal a, s0)) /\
            flushing (error_calls errorLogs) a.
Proof.
  induction errorLogs as [|entry rest IH]; [done|]. intros _.
  exists (Await (fun env =>
            flush_try (crashlytics_call env (CrashlyticsLog (error_line entry)) >>
                       await_call flush_try (RecordError (error_description entry))
                         (fun env' => flush_errors_async rest env')))).
  split; [reflexivity|].
  cbn [error_calls flat_map app flushing]. intros env s.
  destruct (remote_ok env (crashlytics s) _) eqn:H1; [|by apply await_call_rejected].
  exists (Await (fun env =>
            flush_try (crashlytics_call env (RecordError (error_description entry)) >>
                       flush_errors_async rest env))).
  split; [by rewrite await_call_accepted|].
  cbn [flushing]. intros env' s'. fold (error_calls rest).
  destruct (remote_ok env' (crashlytics s') _) eqn:H2; [|by apply await_call_rejected].
  rewrite await_call_accepted by done.
  destruct rest as [|entry' rest'].
  - cbn [error_calls flat_map flush_errors_async]. unfold flush_try, try_catch.
    by rewrite flush_finish_spec.
  - destruct IH as (a & Ha & Hfl); [done|].
    destruct (error_calls (entry' :: rest')) as [|c calls] eqn:Hcalls; [done|].
    exists a. split; [|done].
    unfold flush_try, try_catch. by rewrite Ha.
Qed.

Lemma flush_normals_flushing normalLogs errorLogs :
  normalLogs ++ errorLogs <> [] ->
  exists a, (forall env0 s0,
               flush_normals_async normalLogs errorLogs env0 s0 = Some (Normal a, s0)) /\
            flushing (normal_calls normalLogs ++ error_calls errorLogs) a.
Proof.
  induction normalLogs as [|entry rest IH]; [apply flush_errors_flushing|]. intros _.
  exists (Await (fun env =>
            flush_try (crashlytics_call env (CrashlyticsLog (normal_line entry)) >>
                       flush_normals_async rest errorLogs env))).
  split; [reflexivity|].
  cbn [normal_calls flat_map app flushing]. intros env s. fold (normal_calls rest).
  destruct (remote_ok env (crashlytics s) _) eqn:H1; [|by apply await_call_rejected].
  rewrite await_call_accepted by done.
  destruct (decide (rest ++ errorLogs = [])) as [Hnil|Hne].
  - apply app_eq_nil in Hnil as [-> ->].
    cbn [normal_calls error_calls flat_map app flush_normals_async flush_errors_async].
    unfold flush_try, try_catch. by rewrite flush_finish_spec.
  - destruct (IH Hne) as (a & Ha & Hfl).
    destruct (normal_calls rest ++ error_calls errorLogs) as [|c calls] eqn:Hcalls; [done|].
    exists a. split; [|done]. unfold flush_try, try_catch. by rewrite Ha.
Qed.

Lemma flush_ended_accepted env c calls s :
  remote_ok env (crashlytics s) c = true ->
  flush_ended env (c :: calls) s
  = flush_ended env calls (set_crashlytics (crashlytics s ++ [c]) s).
Proof.
  intros Hc. unfold flush_ended. cbn [remote_accepts accepted_prefix]. rewrite Hc. cbn [andb].
  cbn [crashlytics set_crashlytics]. by rewrite set_crashlytics_twice, <- app_assoc.
Qed.

Lemma flush_ended_rejected env c calls s :
  remote_ok env (crashlytics s) c = false ->
  flush_ended env (c :: calls) s
  = with_console ConsoleError "[Logger] Failed to flush logs:" [ArgError rejected] s.
Proof.
  intros Hc. unfold flush_ended. cbn [remote_accepts accepted_prefix]. rewrite Hc. cbn [andb].
  by rewrite app_nil_r, set_crashlytics_id.
Qed.

Lemma flush_ended_nil env s : flush_ended env [] s = flush_cleared env s.
Proof. unfold flush_ended. cbn [remote_accepts accepted_prefix]. by rewrite app_nil_r, set_crashlytics_id. Qed.

Lemma run_flushing env calls a s :
  flushing calls a -> run_async env a s = Some (Normal tt, flush_ended env calls s).
Proof.
  revert a s. induction calls as [|c rest IH]; intros [|resume] s Hfl; try done.
  cbn [run_async]. specialize (Hfl env s).
  destruct (remote_ok env (crashlytics s) c) eqn:Hc.
  - rewrite flush_ended_accepted by done. destruct rest as [|c' rest'].
    + rewrite Hfl. cbn [run_async]. by rewrite flush_ended_nil.
    + destruct Hfl as (a' & -> & Hfl). by apply IH.
  - rewrite Hfl. cbn [run_async]. by rewrite flush_ended_rejected.
Qed.

Lemma resume_flushing envs calls a s :
  flushing calls a ->
  Forall accepting envs ->
  (length envs < length calls)%nat ->
  exists a',
    resume_async envs a s
    = Some (Normal a', set_crashlytics (crashlytics s ++ take (length envs) calls) s) /\
    flushing (drop (length envs) calls) a'.
Proof.
  revert calls a s. induction envs as [|env envs IH]; intros calls a s Hfl Hacc Hlen.
  - exists a. cbn [length take drop]. rewrite app_nil_r, set_crashlytics_id.
    split; [by destruct a|done].
  - destruct calls as [|c rest]; [cbn in Hlen; lia|]. destruct a as [|resume]; [done|].
    apply Forall_cons in Hacc as [Henv Hacc]. cbn [length] in Hlen.
    cbn [flushing] in Hfl. specialize (Hfl env s). rewrite Henv in Hfl.
    destruct rest as [|c' rest']; [cbn in Hlen; lia|].
    destruct Hfl as (a' & Hres & Hfl).
    destruct (IH (c' :: rest') a' (set_crashlytics (crashlytics s ++ [c]) s) Hfl Hacc)
      as (a'' & Hrun & Hfl''); [cbn [length] in *; lia|].
    exists a''. cbn [resume_async]. unfold bind. rewrite Hres, Hrun.
    cbn [length take drop crashlytics set_crashlytics].
    by rewrite set_crashlytics_twice, <- app_assoc.
Qed.

Lemma filter_partition_nonempty (q : list LogEntry) :
  q <> [] ->
  filter (fun entry => type entry <> Error) q ++ filter (fun entry => type entry = Error) q <> [].
Proof.
  destruct q as [|e q]; [done|]. intros _.
  destruct (decide (type e = Error)) as [He|He].
  - rewrite (filter_cons_True (fun entry => type entry = Error)) by done.
    intros [_ ?]%app_eq_nil. done.
  - rewrite (filter_cons_True (fun entry => type entry <> Error)) by done. done.
Qed.

(** A flush of a queue that is not empty is suspended at its first call,
    with the calls of [delivery_plan] before it. *)
Lemma flushLogs_async_suspended env s :
  logQueue s <> [] ->
  exists a,
    flushLogs_async env s
    = Some (Normal a,
            with_console ConsoleLog
              ("[Logger] Flushing " +:+ Number_toString (Z.of_nat (length (logQueue s)))
               +:+ " logs to Crashlytics") [] s) /\
    flushing (delivery_plan (logQueue s)) a.
Proof.
  intros Hq.
  destruct (flush_normals_flushing (filter (fun entry => type entry <> Error) (logQueue s))
              (filter (fun entry => type entry = Error) (logQueue s)))
    as (a & Ha & Hfl); [by apply filter_partition_nonempty|].
  exists a. split; [|exact Hfl].
  unfold flushLogs_async. unfold bind at 1, gets at 1.
  destruct (logQueue s) as [|e q] eqn:Hqs; [done|]. cbn [length Nat.eqb].
  unfold bind at 1, console_log at 1, console_write at 1, modify at 1.
  unfold flush_try, try_catch. unfold bind at 1, gets at 1.
  cbn [logQueue set_console]. rewrite Hqs. by rewrite Ha.
Qed.

Lemma flushed_ended env s :
  logQueue s <> [] ->
  flushed env s
  = flush_ended env (delivery_plan (logQueue s))
      (with_console ConsoleLog
         ("[Logger] Flushing " +:+ Number_toString (Z.of_nat (length (logQueue s)))
          +:+ " logs to Crashlytics") [] s).
Proof.
  intros Hq. unfold flushed, flush_ended, flush_cleared.
  destruct (logQueue s) as [|e q] eqn:Hqs; [done|]. cbv zeta.
  cbn [with_console crashlytics logQueue set_console]. done.
Qed.

Lemma init_async_suspended s : init_async s = Some (Normal init_suspended, s).
Proof. reflexivity. Qed.

Lemma accepting_accepts env history calls :
  accepting env -> remote_accepts env history calls = true.
Proof.
  intros Henv. revert history. induction calls as [|c calls IH]; intros history; [done|].
  cbn [remote_accepts]. by rewrite Henv, IH.
Qed.

Lemma flush_ended_accepting env calls s :
  accepting env ->
  flush_ended env calls s = flush_cleared env (set_crashlytics (crashlytics s ++ calls) s).
Proof.
  intros Henv. unfold flush_ended.
  by rewrite (accepting_accepts env _ _ Henv), (accepted_prefix_all _ _ _ (accepting_accepts env _ _ Henv)).
Qed.

Lemma flush_cleared_fields env s :
  logQueue (flush_cleared env s) = [] /\
  errorHashes (flush_cleared env s) = ∅ /\
  crashlytics (flush_cleared env s) = crashlytics s /\
  (storage_set_ok env QUEUE_KEY "[]" = true ->
   storage (flush_cleared env s) !! QUEUE_KEY = Some "[]").
Proof.
  unfold flush_cleared. cbn [with_console logQueue errorHashes crashlytics storage set_console].
  rewrite saved_logQueue, saved_errorHashes, saved_crashlytics, saved_storage.
  split_and!; try done. intros Hset.
  change (queue_text (logQueue (set_errorHashes ∅ (set_logQueue [] s)))) with "[]".
  rewrite Hset. apply lookup_insert_eq.
Qed.

Lemma init_try_accepted env c (rest : M Async) s :
  remote_ok env (crashlytics s) c = true ->
  init_try (crashlytics_call env c >> rest) s
  = init_try rest (set_crashlytics (crashlytics s ++ [c]) s).
Proof. intros Hc. unfold init_try, try_catch, bind, crashlytics_call. by rewrite Hc. Qed.

Ltac case_call c :=
  match goal with
  | |- context [remote_ok ?e ?h c] => destruct (remote_ok e h c)
  end.

Lemma run_init_suspended env s : run_async env init_suspended s = init env s.
Proof.
  unfold init_suspended, init. cbn [run_async].
  unfold getItem, console_log, console_error, init_try, await_call, await_value.
  unfold console_write, storage_getString, crashlytics_call, modify, try_catch, bind, ret, throw.
  cbn [run_async crashlytics set_crashlytics set_console storage].
  case_call (SetCrashlyticsCollectionEnabled true); [|reflexivity].
  destruct (storage_get_ok env "userID"); [|reflexivity].
  cbn [run_async crashlytics set_crashlytics set_console storage].
  match goal with |- context [remote_ok env ?h (SetUserId ?u)] =>
    destruct (remote_ok env h (SetUserId u)) end; [|reflexivity].
  cbn [run_async crashlytics set_crashlytics set_console storage].
  case_call (SetAttribute "environment" (APP_ENV env)); [|reflexivity].
  cbn [run_async crashlytics set_crashlytics set_console storage].
  case_call (SetAttribute "platform" (Platform_OS env)); [|reflexivity].
  cbn [run_async crashlytics set_crashlytics set_console storage].
  case_call (SetAttribute "app_version" "1.0.0"); [|reflexivity].
  cbn [run_async crashlytics set_crashlytics set_console storage].
  match goal with |- context [restoreQueue env ?st] =>
    destruct (restoreQueue env st) as [[[[]|e] s']|] end; try reflexivity.
  cbn [run_async]. by destruct (startFlushTimer s') as [[[[]|e] s'']|].
Qed.

(** ** Calls that overlap *)

(** X21: when nothing else runs between the start of an [async] method and
    its end, the method behaves as one atomic operation: a flush as
    [flushLogs], an initialization as [init], a construction as
    [constructor]. *)
Theorem uninterrupted_async_is_atomic env s :
  (let* a := flushLogs_async env in run_async env a) s = flushLogs env s /\
  (let* a := init_async in run_async env a) s = init env s /\
  (let* a := constructor_async in run_async env a) s = constructor env s.
Proof.
  split_and!.
  - rewrite flushLogs_spec. destruct (decide (logQueue s = [])) as [Hq|Hq].
    + unfold flushLogs_async, bind, gets, flushed. by rewrite Hq.
    + destruct (flushLogs_async_suspended env s Hq) as (a & Ha & Hfl).
      unfold bind. rewrite Ha, (run_flushing env _ a _ Hfl). by rewrite flushed_ended.
  - unfold bind. rewrite init_async_suspended. apply run_init_suspended.
  - unfold constructor_async, constructor, bind, modify. rewrite init_async_suspended.
    apply run_init_suspended.
Qed.

Lemma run_op_recording env op s :
  recording op -> exists s', run_op env op s = Some (Normal tt, s') /\ step env op s = Some s'.
Proof.
  intros Hop. assert (forall s', run_op env op s = Some (Normal tt, s') ->
                        exists s'', run_op env op s = Some (Normal tt, s'')
                                    /\ step env op s = Some s'') as Hdone.
  { intros s' Hrun. exists s'. split; [done|]. unfold step. by rewrite Hrun. }
  destruct op as [|kind msg prm|msg args|msg args|msg args|msg args| |]; try done.
  - eapply Hdone. apply queueLog_spec.
  - eapply Hdone. apply log_spec.
  - eapply Hdone. apply warn_spec.
  - eapply Hdone. apply error_spec.
  - destruct (DEV env) eqn:Hdev; eapply Hdone; cbn [run_op]; unfold debug; by rewrite Hdev.
Qed.

Lemma queued_appends env t m p s :
  exists added, logQueue (queued env t m p s) = logQueue s ++ added /\
                (t <> Error -> length added = 1%nat).
Proof.
  unfold queued. destruct t.
  - eexists. rewrite saved_logQueue. by split.
  - case_bool_decide.
    + exists []. by rewrite app_nil_r.
    + eexists. rewrite saved_logQueue. by split.
  - eexists. rewrite saved_logQueue. by split.
Qed.

Lemma recording_appends env op s s' :
  recording op ->
  step env op s = Some s' ->
  exists added, logQueue s' = logQueue s ++ added /\ (plain op -> length added = 1%nat).
Proof.
  intros Hop. rewrite step_spec.
  destruct op as [|kind msg prm|msg args|msg args|msg args|msg args| |]; try done;
    unfold stepped; intros Hs; apply (inj Some) in Hs; subst s'.
  - destruct (queued_appends env kind msg prm s) as (added & Hq & _). by exists added.
  - match goal with |- context [queued env ?t ?m ?p ?x] =>
      destruct (queued_appends env t m p x) as (added & -> & Hlen);
      destruct (format_logged_fields args
                  (with_console ConsoleLog m (map ArgValue args) s)) as (-> & _) end.
    exists added. split; [done|]. intros _. by apply Hlen.
  - match goal with |- context [queued env ?t ?m ?p ?x] =>
      destruct (queued_appends env t m p x) as (added & -> & Hlen);
      destruct (format_logged_fields args
                  (with_console ConsoleWarn m (map ArgValue args) s)) as (-> & _) end.
    exists added. split; [done|]. intros _. by apply Hlen.
  - match goal with |- context [queued env ?t ?m ?p ?x] =>
      destruct (queued_appends env t m p x) as (added & -> & Hlen);
      destruct (format_logged_fields args
                  (with_console ConsoleError m (map ArgValue args) s)) as (-> & _) end.
    by exists added.
  - exists []. rewrite app_nil_r. split; [by destruct (DEV env) | done].
Qed.

Lemma flushing_resume env c calls resume s :
  accepting env ->
  flushing (c :: calls) (Await resume) ->
  exists a' s',
    resume env s = Some (Normal a', s') /\
    pending calls a' /\
    crashlytics s' = crashlytics s ++ [c] /\
    logQueue s' = match calls with [] => [] | _ :: _ => logQueue s end.
Proof.
  intros Henv Hfl. cbn [flushing] in Hfl. specialize (Hfl env s). rewrite Henv in Hfl.
  destruct calls as [|c' calls'].
  - eexists _, _. split; [exact Hfl|]. split; [done|].
    match goal with |- context [flush_cleared env ?x] =>
      destruct (flush_cleared_fields env x) as (-> & _ & -> & _) end. done.
  - destruct Hfl as (a' & Hres & Hfl). by exists a', (set_crashlytics (crashlytics s ++ [c]) s).
Qed.

Lemma resume_among_flushing events calls a s :
  flushing calls a ->
  Forall quiet events ->
  (settles events < length calls)%nat ->
  exists a1 s1 recorded,
    resume_among events a s = Some (Normal a1, s1) /\
    flushing (drop (settles events) calls) a1 /\
    crashlytics s1 = crashlytics s ++ take (settles events) calls /\
    logQueue s1 = logQueue s ++ recorded /\
    (plain_calls events <= length recorded)%nat.
Proof.
  revert calls a s. induction events as [|ev events IH]; intros calls a s Hfl Hev Hlen.
  - exists a, s, []. cbn [settles plain_calls drop take length]. rewrite !app_nil_r.
    split_and!; try done.
  - apply Forall_cons in Hev as [Hquiet Hev]. destruct ev as [env|env op].
    + cbn [settles] in *. destruct calls as [|c calls]; [cbn in Hlen; lia|].
      destruct a as [|resume]; [done|].
      destruct calls as [|c' calls']; [cbn in Hlen; lia|].
      destruct (flushing_resume env c (c' :: calls') resume s Hquiet Hfl)
        as (a' & s' & Hres & Hpend & Hc & Hq).
      destruct (IH (c' :: calls') a' s' Hpend Hev) as (a1 & s1 & recorded & Hrun & Hfl1 & Hc1 & Hq1 & Hn);
        [cbn [length] in *; lia|].
      exists a1, s1, recorded. cbn [resume_among plain_calls]. unfold bind. rewrite Hres, Hrun.
      split_and!; try done.
      * rewrite Hc1, Hc. cbn [take]. by rewrite <- app_assoc.
      * by rewrite Hq1, Hq.
    + cbn [settles quiet] in *.
      destruct (run_op_recording env op s Hquiet) as (s' & Hrun & Hstep).
      destruct (recording_appends env op s s' Hquiet Hstep) as (added & Hq & Hadded).
      destruct (recording_frame env op s s' Hquiet Hstep) as (Hc & _).
      destruct (IH calls a s' Hfl Hev Hlen) as (a1 & s1 & recorded & Hrun1 & Hfl1 & Hc1 & Hq1 & Hn).
      exists a1, s1, (added ++ recorded). cbn [resume_among]. unfold bind. rewrite Hrun, Hrun1.
      split_and!; try done.
      * by rewrite Hc1, Hc.
      * by rewrite Hq1, Hq, <- app_assoc.
      * rewrite length_app.
        destruct op as [|kind msg prm|msg args|msg args|msg args|msg args| |];
          cbn [plain_calls]; try lia; rewrite Hadded by done; lia.
Qed.

(** X22: what is recorded while a flush is in progress is lost.  Whatever
    the application records (any number of [log], [warn], [error] or [debug]
    calls, at any points) while the flush awaits its remote calls, if the
    flush then runs to a successful end it clears the whole queue and writes
    the empty queue to the store, although it sent only the entries that
    were queued when it started: the new entries are neither sent nor
    kept. *)
Theorem entries_recorded_during_flush_are_lost env0 events env s :
  logQueue s <> [] ->
  Forall quiet events ->
  (settles events < length (delivery_plan (logQueue s)))%nat ->
  accepting env ->
  storage_set_ok env QUEUE_KEY "[]" = true ->
  exists a0 s0 a1 s1 recorded s2,
    flushLogs_async env0 s = Some (Normal a0, s0) /\
    resume_among events a0 s0 = Some (Normal a1, s1) /\
    logQueue s1 = logQueue s ++ recorded /\
    (plain_calls events <= length recorded)%nat /\
    run_async env a1 s1 = Some (Normal tt, s2) /\
    logQueue s2 = [] /\
    storage s2 !! QUEUE_KEY = Some "[]" /\
    crashlytics s2 = crashlytics s ++ delivery_plan (logQueue s).
Proof.
  intros Hq Hev Hlen Henv Hset.
  destruct (flushLogs_async_suspended env0 s Hq) as (a0 & Ha0 & Hfl0).
  destruct (resume_among_flushing events _ a0
              (with_console ConsoleLog
                 ("[Logger] Flushing " +:+ Number_toString (Z.of_nat (length (logQueue s)))
                  +:+ " logs to Crashlytics") [] s) Hfl0 Hev Hlen)
    as (a1 & s1 & recorded & Ha1 & Hfl1 & Hc1 & Hq1 & Hn).
  do 6 eexists. split; [exact Ha0|]. split; [exact Ha1|].
  split; [exact Hq1|]. split; [exact Hn|].
  split; [apply (run_flushing env _ a1 s1 Hfl1)|].
  rewrite flush_ended_accepting by done.
  match goal with |- context [flush_cleared env ?x] =>
    destruct (flush_cleared_fields env x) as (-> & _ & -> & Hst) end.
  split; [done|]. split; [by apply Hst|].
  cbn [crashlytics set_crashlytics]. rewrite Hc1.
  cbn [with_console crashlytics set_console]. by rewrite <- app_assoc, take_drop.
Qed.

Lemma entries_recorded_during_flush_are_lost_witness :
  logQueue demo_queued <> [] /\
  Forall quiet [Settles demo_env; Calls demo_env (CallLog "late" []);
                Calls scenario_env (CallError "later" [VBool true])] /\
  (settles [Settles demo_env; Calls demo_env (CallLog "late" []);
            Calls scenario_env (CallError "later" [VBool true])]
   < length (delivery_plan (logQueue demo_queued)))%nat /\
  accepting demo_env /\
  storage_set_ok demo_env QUEUE_KEY "[]" = true /\
  exists a0 s0 a1 s1 recorded s2,
    flushLogs_async demo_env demo_queued = Some (Normal a0, s0) /\
    resume_among [Settles demo_env; Calls demo_env (CallLog "late" []);
                  Calls scenario_env (CallError "later" [VBool true])] a0 s0
    = Some (Normal a1, s1) /\
    logQueue s1 = logQueue demo_queued ++ recorded /\
    (plain_calls [Settles demo_env; Calls demo_env (CallLog "late" []);
                  Calls scenario_env (CallError "later" [VBool true])]
     <= length recorded)%nat /\
    run_async demo_env a1 s1 = Some (Normal tt, s2) /\
    logQueue s2 = [] /\
    storage s2 !! QUEUE_KEY = Some "[]" /\
    crashlytics s2 = crashlytics demo_queued ++ delivery_plan (logQueue demo_queued).
Proof.
  assert (accepting demo_env) as Hacc by (intros history c; reflexivity).
  assert (logQueue demo_queued <> []) as Hq by (by rewrite demo_queued_queue).
  assert (Forall quiet [Settles demo_env; Calls demo_env (CallLog "late" []);
                        Calls scenario_env (CallError "later" [VBool true])]) as Hev
    by (repeat constructor; exact Hacc).
  assert (settles [Settles demo_env; Calls demo_env (CallLog "late" []);
                   Calls scenario_env (CallError "later" [VBool true])]
          < length (delivery_plan (logQueue demo_queued)))%nat as Hlen
    by (rewrite demo_delivery_plan; cbn [settles length]; lia).
  split; [exact Hq|]. split; [exact Hev|]. split; [exact Hlen|]. split; [exact Hacc|].
  split; [reflexivity|].
  apply (entries_recorded_during_flush_are_lost demo_env
           [Settles demo_env; Calls demo_env (CallLog "late" []);
            Calls scenario_env (CallError "later" [VBool true])] demo_env demo_queued);
    [exact Hq | exact Hev | exact Hlen | exact Hacc | reflexivity].
Defined.

(** X23: a flush in progress that fails keeps what was recorded in the
    meantime: when the remote service rejects the call the flush is waiting
    for, the flush ends without touching the queue and the dedupe set, so
    the entries recorded since it started are still queued, after the ones
    it was sending. *)
Theorem entries_recorded_during_failed_flush_are_kept env0 events env s :
  logQueue s <> [] ->
  Forall quiet events ->
  (settles events < length (delivery_plan (logQueue s)))%nat ->
  (forall history c, remote_ok env history c = false) ->
  exists a0 s0 a1 s1 recorded s2,
    flushLogs_async env0 s = Some (Normal a0, s0) /\
    resume_among events a0 s0 = Some (Normal a1, s1) /\
    logQueue s1 = logQueue s ++ recorded /\
    (plain_calls events <= length recorded)%nat /\
    run_async env a1 s1 = Some (Normal tt, s2) /\
    logQueue s2 = logQueue s ++ recorded /\
    errorHashes s2 = errorHashes s1 /\
    storage s2 = storage s1 /\
    crashlytics s2 = crashlytics s ++ take (settles events) (delivery_plan (logQueue s)).
Proof.
  intros Hq Hev Hlen Henv.
  destruct (flushLogs_async_suspended env0 s Hq) as (a0 & Ha0 & Hfl0).
  destruct (resume_among_flushing events _ a0
              (with_console ConsoleLog
                 ("[Logger] Flushing " +:+ Number_toString (Z.of_nat (length (logQueue s)))
                  +:+ " logs to Crashlytics") [] s) Hfl0 Hev Hlen)
    as (a1 & s1 & recorded & Ha1 & Hfl1 & Hc1 & Hq1 & Hn).
  do 6 eexists. split; [exact Ha0|]. split; [exact Ha1|].
  split; [exact Hq1|]. split; [exact Hn|].
  split; [apply (run_flushing env _ a1 s1 Hfl1)|].
  destruct (drop (settles events) (delivery_plan (logQueue s))) as [|c rest] eqn:Hdrop.
  { apply (f_equal length) in Hdrop. rewrite length_drop in Hdrop. cbn [length] in Hdrop. lia. }
  rewrite flush_ended_rejected by apply Henv.
  cbn [with_console logQueue errorHashes storage crashlytics set_console].
  split; [exact Hq1|]. split; [done|]. split; [done|]. exact Hc1.
Qed.

Lemma entries_recorded_during_failed_flush_are_kept_witness :
  logQueue demo_queued <> [] /\
  Forall quiet [Settles demo_env; Calls demo_env (CallLog "late" [])] /\
  (settles [Settles demo_env; Calls demo_env (CallLog "late" [])]
   < length (delivery_plan (logQueue demo_queued)))%nat /\
  (forall history c, remote_ok demo_env_offline history c = false) /\
  exists a0 s0 a1 s1 recorded s2,
    flushLogs_async demo_env demo_queued = Some (Normal a0, s0) /\
    resume_among [Settles demo_env; Calls demo_env (CallLog "late" [])] a0 s0
    = Some (Normal a1, s1) /\
    logQueue s1 = logQueue demo_queued ++ recorded /\
    (plain_calls [Settles demo_env; Calls demo_env (CallLog "late" [])] <= length recorded)%nat /\
    run_async demo_env_offline a1 s1 = Some (Normal tt, s2) /\
    logQueue s2 = logQueue demo_queued ++ recorded /\
    errorHashes s2 = errorHashes s1 /\
    storage s2 = storage s1 /\
    crashlytics s2
    = crashlytics demo_queued
      ++ take (settles [Settles demo_env; Calls demo_env (CallLog "late" [])])
           (delivery_plan (logQueue demo_queued)).
Proof.
  assert (accepting demo_env) as Hacc by (intros history c; reflexivity).
  assert (logQueue demo_queued <> []) as Hq by (by rewrite demo_queued_queue).
  assert (Forall quiet [Settles demo_env; Calls demo_env (CallLog "late" [])]) as Hev
    by (repeat constructor; exact Hacc).
  assert (settles [Settles demo_env; Calls demo_env (CallLog "late" [])]
          < length (delivery_plan (logQueue demo_queued)))%nat as Hlen
    by (rewrite demo_delivery_plan; cbn [settles length]; lia).
  split; [exact Hq|]. split; [exact Hev|]. split; [exact Hlen|]. split; [reflexivity|].
  apply (entries_recorded_during_failed_flush_are_kept demo_env
           [Settles demo_env; Calls demo_env (CallLog "late" [])] demo_env_offline demo_queued);
    [exact Hq | exact Hev | exact Hlen | reflexivity].
Defined.

Lemma pending_done calls a : (length calls <= 0)%nat -> pending calls a -> a = Done.
Proof. destruct calls; [done|]. cbn [length]. lia. Qed.

Lemma resume_two_flushing schedule ca cb a b s :
  pending ca a ->
  pending cb b ->
  Forall (fun turn => accepting (snd turn)) schedule ->
  exists a' b' s' sent,
    resume_two schedule a b s = Some (Normal (a', b'), s') /\
    pending (drop (turns true schedule) ca) a' /\
    pending (drop (turns false schedule) cb) b' /\
    crashlytics s' = crashlytics s ++ sent /\
    sent ≡ₚ take (turns true schedule) ca ++ take (turns false schedule) cb /\
    (logQueue s' = [] \/
     (logQueue s' = logQueue s /\
      (ca <> [] -> turns true schedule < length ca)%nat /\
      (cb <> [] -> turns false schedule < length cb)%nat)).
Proof.
  revert ca cb a b s.
  induction schedule as [|[first env] schedule IH]; intros ca cb a b s Ha Hb Hacc.
  - exists a, b, s, []. cbn [turns drop take app resume_two]. rewrite app_nil_r.
    split_and!; try done. right. split_and!; try done.
    + intros Hne. destruct ca; [done|]. cbn [length]. lia.
    + intros Hne. destruct cb; [done|]. cbn [length]. lia.
  - apply Forall_cons in Hacc as [Henv Hacc]. cbn [snd] in Henv. destruct first.
    + change (turns true ((true, env) :: schedule)) with (S (turns true schedule)).
      change (turns false ((true, env) :: schedule)) with (turns false schedule).
      destruct ca as [|c ca'].
      * cbn [pending] in Ha. subst a.
        destruct (IH [] cb Done b s) as (a' & b' & s' & sent & Hrun & Ha' & Hb' & Hc & Hperm & Hq);
          [done..|].
        exists a', b', s', sent. cbn [resume_two]. rewrite !drop_nil, !take_nil in *.
        split_and!; try done.
        destruct Hq as [Hq|(Hq & _ & Hcb)]; [by left|]. right. by split_and!.
      * destruct a as [|resume]; [done|].
        destruct (flushing_resume env c ca' resume s Henv Ha) as (a1 & s1 & Hres & Hpend & Hc1 & Hq1).
        destruct (IH ca' cb a1 b s1 Hpend Hb Hacc)
          as (a' & b' & s' & sent & Hrun & Ha' & Hb' & Hc & Hperm & Hq).
        exists a', b', s', (c :: sent). cbn [resume_two]. unfold bind. rewrite Hres, Hrun.
        cbn [drop take]. split_and!; try done.
        -- rewrite Hc, Hc1. by rewrite <- app_assoc.
        -- cbn [app]. by constructor.
        -- destruct Hq as [Hq|(Hq & Hca & Hcb)]; [by left|].
           destruct ca' as [|c' ca'']; [left; by rewrite Hq, Hq1|].
           right. rewrite Hq, Hq1. split_and!; try done.
           intros _. cbn [length]. specialize (Hca ltac:(done)). cbn [length] in Hca. lia.
    + change (turns true ((false, env) :: schedule)) with (turns true schedule).
      change (turns false ((false, env) :: schedule)) with (S (turns false schedule)).
      destruct cb as [|c cb'].
      * cbn [pending] in Hb. subst b.
        destruct (IH ca [] a Done s) as (a' & b' & s' & sent & Hrun & Ha' & Hb' & Hc & Hperm & Hq);
          [done..|].
        exists a', b', s', sent. cbn [resume_two]. rewrite !drop_nil, !take_nil in *.
        split_and!; try done.
        destruct Hq as [Hq|(Hq & Hca & _)]; [by left|]. right. by split_and!.
      * destruct b as [|resume]; [done|].
        destruct (flushing_resume env c cb' resume s Henv Hb) as (b1 & s1 & Hres & Hpend & Hc1 & Hq1).
        destruct (IH ca cb' a b1 s1 Ha Hpend Hacc)
          as (a' & b' & s' & sent & Hrun & Ha' & Hb' & Hc & Hperm & Hq).
        exists a', b', s', (c :: sent). cbn [resume_two]. unfold bind. rewrite Hres, Hrun.
        cbn [drop take]. split_and!; try done.
        -- rewrite Hc, Hc1. by rewrite <- app_assoc.
        -- rewrite Hperm. apply Permutation_middle.
        -- destruct Hq as [Hq|(Hq & Hca & Hcb)]; [by left|].
           destruct cb' as [|c' cb'']; [left; by rewrite Hq, Hq1|].
           right. rewrite Hq, Hq1. split_and!; try done.
           intros _. cbn [length]. specialize (Hcb ltac:(done)). cbn [length] in Hcb. lia.
Qed.

(** X24: two flushes that overlap send everything twice.  When a second
    flush starts (the timer fires, or [forceFlush] is called) while the
    first one still awaits a remote call, it reads the same queue; in
    whatever order the two are then resumed, when both have come to their
    end every call of the batch has reached the remote service twice. *)
Theorem overlapping_flushes_deliver_twice env0 envs env1 schedule s :
  logQueue s <> [] ->
  Forall accepting envs ->
  (length envs < length (delivery_plan (logQueue s)))%nat ->
  Forall (fun turn => accepting (snd turn)) schedule ->
  (length (delivery_plan (logQueue s)) <= length envs + turns true schedule)%nat ->
  (length (delivery_plan (logQueue s)) <= turns false schedule)%nat ->
  exists a0 s0 a1 s1 b s2 s3 sent,
    flushLogs_async env0 s = Some (Normal a0, s0) /\
    resume_async envs a0 s0 = Some (Normal a1, s1) /\
    flushLogs_async env1 s1 = Some (Normal b, s2) /\
    resume_two schedule a1 b s2 = Some (Normal (Done, Done), s3) /\
    logQueue s3 = [] /\
    crashlytics s3 = crashlytics s ++ sent /\
    sent ≡ₚ delivery_plan (logQueue s) ++ delivery_plan (logQueue s).
Proof.
  intros Hq Henvs Hlen Hsched Hfirst Hsecond.
  destruct (flushLogs_async_suspended env0 s Hq) as (a0 & Ha0 & Hfl0).
  destruct (resume_flushing envs _ a0
              (with_console ConsoleLog
                 ("[Logger] Flushing " +:+ Number_toString (Z.of_nat (length (logQueue s)))
                  +:+ " logs to Crashlytics") [] s) Hfl0 Henvs Hlen)
    as (a1 & Ha1 & Hfl1).
  match type of Ha1 with _ = Some (_, ?x) => set (s1 := x) in * end.
  assert (logQueue s1 = logQueue s) as Hq1 by done.
  assert (logQueue s1 <> []) as Hq1' by (by rewrite Hq1).
  destruct (flushLogs_async_suspended env1 s1 Hq1') as (b & Hb & Hflb).
  match type of Hb with _ = Some (_, ?x) => set (s2 := x) in * end.
  rewrite Hq1 in Hflb.
  set (plan := delivery_plan (logQueue s)) in *.
  assert (pending (drop (length envs) plan) a1) as Hpa.
  { unfold pending. destruct (drop (length envs) plan) eqn:Hdrop; [|done].
    apply (f_equal length) in Hdrop. rewrite length_drop in Hdrop. cbn [length] in Hdrop. lia. }
  assert (pending plan b) as Hpb.
  { unfold pending. destruct plan; [cbn [length] in Hlen; lia | done]. }
  destruct (resume_two_flushing schedule _ _ a1 b s2 Hpa Hpb Hsched)
    as (a' & b' & s3 & sent & Hrun & Ha' & Hb' & Hc & Hperm & Hqs).
  apply pending_done in Ha'; [|rewrite !length_drop; lia].
  apply pending_done in Hb'; [|rewrite length_drop; lia].
  subst a' b'.
  exists a0. eexists. exists a1, s1, b, s2, s3, (take (length envs) plan ++ sent).
  split; [exact Ha0|]. split; [exact Ha1|]. split; [exact Hb|]. split; [exact Hrun|].
  split_and!.
  - destruct Hqs as [Hqs|(_ & _ & Hcb)]; [done|]. exfalso.
    assert (plan <> []) as Hne by (intros Hnil; rewrite Hnil in Hlen; cbn [length] in Hlen; lia).
    specialize (Hcb Hne). lia.
  - rewrite Hc. subst s2 s1. cbn [with_console crashlytics set_console set_crashlytics].
    by rewrite <- app_assoc.
  - rewrite Hperm. rewrite (take_ge plan (turns false schedule)) by lia.
    rewrite (take_ge (drop (length envs) plan)) by (rewrite length_drop; lia).
    by rewrite (app_assoc (take _ _)), take_drop.
Qed.

Lemma overlapping_flushes_deliver_twice_witness :
  logQueue demo_queued <> [] /\
  Forall accepting [demo_env] /\
  (length [demo_env] < length (delivery_plan (logQueue demo_queued)))%nat /\
  Forall (fun turn => accepting (snd turn))
    [(false, demo_env); (true, demo_env); (false, scenario_env); (true, scenario_env);
     (false, demo_env)] /\
  (length (delivery_plan (logQueue demo_queued))
   <= length [demo_env]
      + turns true [(false, demo_env); (true, demo_env); (false, scenario_env);
                    (true, scenario_env); (false, demo_env)])%nat /\
  (length (delivery_plan (logQueue demo_queued))
   <= turns false [(false, demo_env); (true, demo_env); (false, scenario_env);
                   (true, scenario_env); (false, demo_env)])%nat /\
  exists a0 s0 a1 s1 b s2 s3 sent,
    flushLogs_async demo_env demo_queued = Some (Normal a0, s0) /\
    resume_async [demo_env] a0 s0 = Some (Normal a1, s1) /\
    flushLogs_async demo_env s1 = Some (Normal b, s2) /\
    resume_two [(false, demo_env); (true, demo_env); (false, scenario_env);
                (true, scenario_env); (false, demo_env)] a1 b s2
    = Some (Normal (Done, Done), s3) /\
    logQueue s3 = [] /\
    crashlytics s3 = crashlytics demo_queued ++ sent /\
    sent ≡ₚ delivery_plan (logQueue demo_queued) ++ delivery_plan (logQueue demo_queued).
Proof.
  assert (accepting demo_env) as Hacc by (intros history c; reflexivity).
  assert (accepting scenario_env) as Hacc' by (intros history c; reflexivity).
  assert (logQueue demo_queued <> []) as Hq by (by rewrite demo_queued_queue).
  assert (length (delivery_plan (logQueue demo_queued)) = 3%nat) as Hplan
    by (by rewrite demo_delivery_plan).
  assert (Forall (fun turn => accepting (snd turn))
            [(false, demo_env); (true, demo_env); (false, scenario_env); (true, scenario_env);
             (false, demo_env)]) as Hsched by (repeat constructor; done).
  split; [exact Hq|]. split; [by constructor|].
  split; [rewrite Hplan; cbn [length]; lia|]. split; [exact Hsched|].
  split; [rewrite Hplan; cbn; lia|]. split; [rewrite Hplan; cbn; lia|].
  apply (overlapping_flushes_deliver_twice demo_env [demo_env] demo_env
           [(false, demo_env); (true, demo_env); (false, scenario_env); (true, scenario_env);
            (false, demo_env)] demo_queued);
    [exact Hq | by constructor | rewrite Hplan; cbn [length]; lia | exact Hsched
    | rewrite Hplan; cbn; lia | rewrite Hplan; cbn; lia].
Defined.






Lemma setup_calls_storage env s s' :
  storage s' !! "userID" = storage s !! "userID" -> setup_calls env s' = setup_calls env s.
Proof. intros Hst. unfold setup_calls. by rewrite Hst. Qed.

(** X26: a [log] call that comes before [init] has resumed destroys the
    queue saved by the previous run.  The constructor returns while [init]
    waits for its first remote call; [log] then writes a queue that holds
    only the new entry over the saved one, and when [init] resumes it
    restores that one entry.  The entries of the previous run are neither
    restored nor sent, whereas a start that nothing interrupts restores
    them. *)
Theorem log_before_init_resumes_drops_saved_queue env1 env2 m ps s q :
  Forall wf_entry q ->
  JSON_stringify (queue_value q) = Normal (storage s !! QUEUE_KEY) ->
  valid_env env1 ->
  (forall text, storage_set_ok env1 QUEUE_KEY text = true) ->
  accepting env2 ->
  storage_get_ok env2 "userID" = true ->
  storage_get_ok env2 QUEUE_KEY = true ->
  exists a s0 s1 s2 entry,
    constructor_async s = Some (Normal a, s0) /\
    log env1 m ps s0 = Some (Normal tt, s1) /\
    run_async env2 a s1 = Some (Normal tt, s2) /\
    message entry = "[LOG] " +:+ m /\
    logQueue s2 = [entry] /\
    JSON_stringify (queue_value [entry]) = Normal (storage s2 !! QUEUE_KEY) /\
    crashlytics s2 = crashlytics s ++ setup_calls env2 s /\
    exists s', constructor env2 s = Some (Normal tt, s') /\ logQueue s' = q.
Proof.
  intros Hwf Hser Henv1 Hset Henv2 Hid Hget.
  destruct (log_fields env1 m ps (fresh s)) as (s1 & Hlog & Hq1 & Hh1 & Hc1 & Hother & Hsync).
  cbn [fresh logQueue errorHashes crashlytics app] in Hq1, Hh1, Hc1.
  specialize (Hsync Hset). rewrite Hq1 in Hsync.
  set (entry := mkLogEntry Log ("[LOG] " +:+ m) (formatted ps) (now env1) None) in *.
  assert (Forall wf_entry [entry]) as Hwf1
    by (constructor; [split; [exact Henv1 | reflexivity] | constructor]).
  assert (setup_calls env2 s1 = setup_calls env2 s) as Hcalls.
  { apply setup_calls_storage. by rewrite Hother. }
  assert (initialized env2 s1 = timer_started <$> restored env2 (identified env2 s1)) as Hinit.
  { apply initialized_accepted; [done|]. by apply accepting_accepts. }
  destruct (restored_synced env2 (identified env2 s1) Hget [entry] Hwf1 Hsync)
    as (s2 & Hr & Hq2 & _).
  destruct (restored_frame _ _ _ Hr) as (Hst2 & Hc2 & _).
  exists init_suspended, (fresh s), s1, (timer_started s2), entry.
  split; [reflexivity|]. split; [exact Hlog|].
  split; [by rewrite run_init_suspended, init_spec, Hinit, Hr|].
  split; [reflexivity|]. split; [exact Hq2|]. split_and!.
  - change (storage (timer_started s2)) with (storage s2). rewrite Hst2.
    cbn [identified with_console storage set_console set_crashlytics].
    rewrite Hsync. apply stringify_queue.
  - change (crashlytics (timer_started s2)) with (crashlytics s2). rewrite Hc2.
    cbn [identified with_console crashlytics set_console set_crashlytics].
    by rewrite Hc1, Hcalls.
  - rewrite constructor_spec, initialized_accepted; [|done|by apply accepting_accepts].
    destruct (storage s !! QUEUE_KEY) as [text|] eqn:Hst.
    + destruct (restored_stringified env2 (identified env2 (fresh s)) q text Hget Hst Hwf Hser)
        as (s' & Hrun & Hq' & _).
      rewrite restoreQueue_spec in Hrun.
      destruct (restored env2 (identified env2 (fresh s))) as [s0|]; [|done].
      injection Hrun as ->. by exists (timer_started s').
    + exfalso. revert Hser. rewrite stringify_queue. done.
Qed.

Lemma log_before_init_resumes_drops_saved_queue_witness :
  Forall wf_entry [demo_entry] /\
  JSON_stringify (queue_value [demo_entry]) = Normal (storage demo_stored !! QUEUE_KEY) /\
  valid_env demo_env /\
  (forall text, storage_set_ok demo_env QUEUE_KEY text = true) /\
  accepting scenario_env /\
  storage_get_ok scenario_env "userID" = true /\
  storage_get_ok scenario_env QUEUE_KEY = true /\
  exists a s0 s1 s2 entry,
    constructor_async demo_stored = Some (Normal a, s0) /\
    log demo_env "started" [] s0 = Some (Normal tt, s1) /\
    run_async scenario_env a s1 = Some (Normal tt, s2) /\
    message entry = "[LOG] " +:+ "started" /\
    logQueue s2 = [entry] /\
    JSON_stringify (queue_value [entry]) = Normal (storage s2 !! QUEUE_KEY) /\
    crashlytics s2 = crashlytics demo_stored ++ setup_calls scenario_env demo_stored /\
    exists s', constructor scenario_env demo_stored = Some (Normal tt, s')
               /\ logQueue s' = [demo_entry].
Proof.
  assert (Forall wf_entry [demo_entry]) as Hwf
    by (constructor; [apply demo_entry_wf | constructor]).
  assert (JSON_stringify (queue_value [demo_entry]) = Normal (storage demo_stored !! QUEUE_KEY))
    as Hser by (by vm_compute).
  assert (accepting scenario_env) as Hacc by (intros history c; reflexivity).
  split; [exact Hwf|]. split; [exact Hser|]. split; [apply demo_env_valid|].
  split; [reflexivity|]. split; [exact Hacc|]. split; [reflexivity|]. split; [reflexivity|].
  apply (log_before_init_resumes_drops_saved_queue demo_env scenario_env "started" []
           demo_stored [demo_entry]);
    [exact Hwf | exact Hser | apply demo_env_valid | reflexivity | exact Hacc | reflexivity
    | reflexivity].
Defined.

Example log_before_init_resumes :
  let s1 := default (fresh demo_stored)
              (step demo_env (CallLog "started" []) (fresh demo_stored)) in
  (logQueue ∘ snd <$> run_async scenario_env init_suspended s1)
  = Some [mkLogEntry Log "[LOG] started" "" 1700000000000 None] /\
  (logQueue ∘ snd <$> constructor scenario_env demo_stored) = Some [demo_entry].
Proof. split; by vm_compute. Qed.

(** ** The console is write-only *)

Lemma without_console_eq s t :
  without_console s = without_console t -> exists c, t = set_console c s.
Proof.
  destruct s, t. unfold without_console, set_console. cbn. intros [= -> -> -> -> -> -> ->].
  by eexists.
Qed.

Lemma saved_console env c s :
  without_console (saved env (set_console c s)) = without_console (saved env s).
Proof. unfold saved. cbn [logQueue set_console]. by destruct (storage_set_ok env QUEUE_KEY _). Qed.

Lemma queued_console env t m p c s :
  without_console (queued env t m p (set_console c s)) = without_console (queued env t m p s).
Proof.
  unfold queued. destruct t; cbn [errorHashes logQueue set_console];
    [| case_bool_decide; [done|] |];
    match goal with |- without_console (saved env ?x) = without_console (saved env ?y) =>
      change x with (set_console c y); apply saved_console end.
Qed.

Lemma format_logged_console ps c s :
  without_console (format_logged ps (set_console c s)) = without_console (format_logged ps s).
Proof. unfold format_logged. destruct ps; [done|]. by destruct (map_params _). Qed.

Lemma with_console_console lv msg a s :
  without_console (with_console lv msg a s) = without_console s.
Proof. done. Qed.

Lemma flushed_console env c s :
  without_console (flushed env (set_console c s)) = without_console (flushed env s).
Proof.
  unfold flushed. cbn [logQueue crashlytics set_console]. destruct (logQueue s); [done|]. cbv zeta.
  cbn [with_console crashlytics set_console].
  destruct (remote_accepts env (crashlytics s) _); [|done].
  rewrite !with_console_console.
  match goal with |- without_console (saved env ?x) = without_console (saved env ?y) =>
    change x with (set_console (console x) y); apply saved_console end.
Qed.

Lemma restored_console env c s :
  without_console <$> restored env (set_console c s) = without_console <$> restored env s.
Proof.
  unfold restored. cbn [storage set_console].
  destruct (storage_get_ok env QUEUE_KEY); [|done].
  destruct (truthy (storage s !! QUEUE_KEY)); [|done].
  destruct (JSON_parse _) as [j|]; [|done]. by destruct (as_LogEntries j).
Qed.

Lemma timer_started_console s t :
  without_console s = without_console t ->
  without_console (timer_started s) = without_console (timer_started t).
Proof. intros [c ->]%without_console_eq. done. Qed.

Lemma initialized_console env c s :
  without_console <$> initialized env (set_console c s) = without_console <$> initialized env s.
Proof.
  unfold initialized. cbn [setup_calls storage crashlytics set_console]. cbv zeta.
  destruct (remote_ok env (crashlytics s) _); [|done].
  cbn [with_console crashlytics set_console set_crashlytics].
  destruct (storage_get_ok env "userID"); [|done].
  destruct (remote_accepts env _ _); [|done].
  match goal with
  | |- without_console <$> (timer_started <$> restored env ?x)
       = without_console <$> (timer_started <$> restored env ?y) =>
      pose proof (restored_console env (console x) y) as Hr;
      change (set_console (console x) y) with x in Hr;
      destruct (restored env x) as [x'|], (restored env y) as [y'|]; try done
  end.
  cbn [fmap option_fmap option_map] in *. f_equal. apply timer_started_console.
  by apply (inj Some).
Qed.

Lemma logged_console env t lv m ps c s :
  without_console (queued env t m (formatted ps)
                     (format_logged ps (with_console lv m (map ArgValue ps) (set_console c s))))
  = without_console (queued env t m (formatted ps)
                       (format_logged ps (with_console lv m (map ArgValue ps) s))).
Proof.
  assert (without_console (format_logged ps (with_console lv m (map ArgValue ps) s))
          = without_console (format_logged ps (with_console lv m (map ArgValue ps)
                                                 (set_console c s)))) as Hf.
  { change (with_console lv m (map ArgValue ps) (set_console c s))
      with (set_console (c ++ [mkConsoleLine lv m (map ArgValue ps)])
              (with_console lv m (map ArgValue ps) s)).
    symmetry. apply format_logged_console. }
  apply without_console_eq in Hf as [c' ->]. apply queued_console.
Qed.

Lemma stepped_console env op c s :
  without_console <$> stepped env op (set_console c s) = without_console <$> stepped env op s.
Proof.
  destruct op; unfold stepped; cbn [fmap option_fmap option_map].
  - change (fresh (set_console c s)) with (set_console c (fresh s)). apply initialized_console.
  - f_equal. apply queued_console.
  - f_equal. apply logged_console.
  - f_equal. apply logged_console.
  - f_equal. apply logged_console.
  - by destruct (DEV env).
  - f_equal. apply flushed_console.
  - f_equal. cbn [timerHandle intervals set_console]. destruct (timerHandle s); [|done].
    case_bool_decide; [apply flushed_console | done].
Qed.

Lemma step_console env op s t :
  without_console s = without_console t ->
  without_console (default s (step env op s)) = without_console (default t (step env op t)).
Proof.
  intros Hst. destruct (without_console_eq s t Hst) as [c ->]. rewrite !step_spec.
  pose proof (stepped_console env op c s) as Hstep.
  destruct (stepped env op (set_console c s)), (stepped env op s); try done.
  cbn [fmap option_fmap option_map default] in *. by apply (inj Some).
Qed.

Lemma debug_step_console env m ps s :
  without_console (default s (step env (CallDebug m ps) s)) = without_console s.
Proof. rewrite step_spec. unfold stepped. by destruct (DEV env). Qed.

Lemma run_trace_console trace s t :
  without_console s = without_console t ->
  without_console (run_trace trace s)
  = without_console (run_trace (filter (fun step_ => is_debug (snd step_) = false) trace) t).
Proof.
  revert s t. induction trace as [|[env op] trace IH]; intros s t Hst; [done|].
  unfold run_trace. cbn [foldl fst snd]. fold (run_trace trace (default s (step env op s))).
  destruct (is_debug op) eqn:Hop.
  - rewrite filter_cons_False by (cbn [snd]; by rewrite Hop).
    apply IH. destruct op; try done. by rewrite debug_step_console.
  - rewrite filter_cons_True by (cbn [snd]; by rewrite Hop).
    unfold run_trace. cbn [foldl fst snd].
    fold (run_trace (filter (fun step_ => is_debug (snd step_) = false) trace)
            (default t (step env op t))).
    apply IH. by apply step_console.
Qed.

(** X27: [debug] output is invisible to the rest of the logger: removing
    the [debug] calls from a run, whatever the other operations and their
    environments are, changes nothing but the console: the queue, the dedupe
    set, the store, the calls received by the remote service and the timers
    end up the same. *)
Theorem debug_calls_are_invisible trace s :
  set_console [] (run_trace trace s)
  = set_console [] (run_trace (filter (fun step_ => is_debug (snd step_) = false) trace) s).
Proof. by apply run_trace_console. Qed.

(** ** Nothing is dropped between two starts *)

Lemma delivery_plan_sent q entry : entry ∈ q -> sent entry (delivery_plan q).
Proof.
  intros Hin. split; [apply delivery_plan_lines; by exists entry|].
  intros Ht. unfold delivery_plan. apply elem_of_app. right.
  apply list_elem_of_In, in_flat_map. exists entry.
  split; [by apply list_elem_of_In, list_elem_of_filter|]. right. by left.
Qed.

Lemma sent_app entry calls more : sent entry calls -> sent entry (calls ++ more).
Proof.
  intros [Hline Hrecord]. split; [by apply elem_of_app; left|].
  intros Ht. apply elem_of_app. left. by apply Hrecord.
Qed.

Lemma flushed_keeps_or_sends env s entry :
  entry ∈ logQueue s \/ sent entry (crashlytics s) ->
  entry ∈ logQueue (flushed env s) \/ sent entry (crashlytics (flushed env s)).
Proof.
  rewrite flushed_logQueue, flushed_crashlytics. intros [Hin|Hsent].
  - destruct (remote_accepts env (crashlytics s) _) eqn:Hacc; [|by left].
    right. rewrite (accepted_prefix_all _ _ _ Hacc). split.
    + apply elem_of_app. right. by apply delivery_plan_sent.
    + intros Ht. apply elem_of_app. right. by apply delivery_plan_sent.
  - right. by apply sent_app.
Qed.

Lemma step_keeps_or_sends env op s entry :
  op <> Construct ->
  entry ∈ logQueue s \/ sent entry (crashlytics s) ->
  entry ∈ logQueue (default s (step env op s))
  \/ sent entry (crashlytics (default s (step env op s))).
Proof.
  intros Hop Hentry. destruct (step env op s) as [s'|] eqn:Hstep; [|done].
  change (default s (Some s')) with s'.
  assert (recording op ->
          entry ∈ logQueue s' \/ sent entry (crashlytics s')) as Hrecording.
  { intros Hrec.
    destruct (recording_appends env op s s' Hrec Hstep) as (added & -> & _).
    destruct (recording_frame env op s s' Hrec Hstep) as (-> & _).
    destruct Hentry as [Hin|Hsent]; [left; apply elem_of_app; by left | by right]. }
  destruct op as [|kind msg prm|msg args|msg args|msg args|msg args| |];
    [done | by apply Hrecording.. | |]; clear Hrecording;
    rewrite step_spec in Hstep; unfold stepped in Hstep; apply (inj Some) in Hstep; subst s'.
  - by apply flushed_keeps_or_sends.
  - destruct (timerHandle s); [|done]. case_bool_decide; [by apply flushed_keeps_or_sends|done].
Qed.

(** X28: between two starts of the process, and with every operation
    running to its end before the next one begins, no entry is dropped:
    through any run of logging calls, flushes and timer ticks, whether
    deliveries succeed or fail, an entry that is in the queue stays there
    until the remote service has received its log line (and, for an error,
    the recorded error). *)
Theorem entries_are_kept_or_sent trace s entry :
  Forall (fun step_ => snd step_ <> Construct) trace ->
  entry ∈ logQueue s \/ sent entry (crashlytics s) ->
  entry ∈ logQueue (run_trace trace s) \/ sent entry (crashlytics (run_trace trace s)).
Proof.
  revert s. induction trace as [|[env op] trace IH]; intros s Htrace Hentry; [done|].
  apply Forall_cons in Htrace as [Hop Htrace]. cbn [snd] in Hop.
  unfold run_trace. cbn [foldl fst snd]. fold (run_trace trace (default s (step env op s))).
  apply IH; [done|]. by apply step_keeps_or_sends.
Qed.

Lemma entries_are_kept_or_sent_witness :
  Forall (fun step_ => snd step_ <> Construct)
    [(demo_env_one_call, ForceFlush); (demo_env, CallWarn "slow" []); (demo_env, TimerFires)] /\
  (demo_entry ∈ logQueue demo_queued \/ sent demo_entry (crashlytics demo_queued)) /\
  (demo_entry ∈ logQueue (run_trace [(demo_env_one_call, ForceFlush);
                                      (demo_env, CallWarn "slow" []);
                                      (demo_env, TimerFires)] demo_queued)
   \/ sent demo_entry (crashlytics (run_trace [(demo_env_one_call, ForceFlush);
                                               (demo_env, CallWarn "slow" []);
                                               (demo_env, TimerFires)] demo_queued))).
Proof.
  assert (Forall (fun step_ => snd step_ <> Construct)
            [(demo_env_one_call, ForceFlush); (demo_env, CallWarn "slow" []);
             (demo_env, TimerFires)]) as Htrace by (repeat constructor; done).
  assert (demo_entry ∈ logQueue demo_queued \/ sent demo_entry (crashlytics demo_queued))
    as Hentry.
  { left. rewrite demo_queued_queue. apply elem_of_cons. right. apply elem_of_cons. by left. }
  split; [exact Htrace|]. split; [exact Hentry|].
  apply (entries_are_kept_or_sent
           [(demo_env_one_call, ForceFlush); (demo_env, CallWarn "slow" []);
            (demo_env, TimerFires)] demo_queued demo_entry Htrace Hentry).
Defined.
